(** * RingCode: frame codec of the ring-code encoder and decoder

    A shallow embedding of the bit-level part of the repository:
    - [Ringcode] follows [src/lib/ringcode.ts] (capacity model, [bytesToBits],
      [checksum8], [simpleRS], [encodeText]);
    - [Decoder] follows the decoder module (capacity model, [rsDecodeSimple],
      [bitsToBytes], [checksum8], [tryDecodeLinear]);
    - [Js] holds the platform operations both rely on (typed-array stores,
      [Array.prototype.slice], [TextEncoder], [TextDecoder]).

    Numbers are [Z]: the code computes with integers throughout, except
    for one comparison with a double in [rsDecodeSimple], which is treated
    there.  Bits and bytes are the integers the code manipulates; a
    [Uint8Array] is a [list Z] whose stores wrap modulo 256.  Where the code
    uses 32-bit operators ([<<], [|], [^], [&]) the unbounded ones of [Z]
    stand for them: every such result is either below 2^31 or is kept only
    modulo 256, where the two agree. *)

From Stdlib Require Import ZArith Lia List Bool Floats Uint63.
From stdpp Require Import base list gmap.

Local Open Scope Z_scope.

(** ** Platform operations *)

Module Js.

(** Storing an integer into a [Uint8Array] element keeps it modulo 256. *)
Definition toUint8 (v : Z) : Z := v mod 256.

(** [arr[k] = v] on a [Uint8Array]; an index past the end is ignored. *)
Definition u8store (arr : list Z) (k : nat) (v : Z) : list Z :=
  <[k := toUint8 v]> arr.

(** [new Uint8Array(n)]: [n] zero bytes. *)
Definition u8new (n : Z) : list Z := replicate (Z.to_nat n) 0.

(** [dst.set(src)]: copies [src] over the front of [dst].  The one call
    with a source that could be too long is guarded by the length test of
    [encodeText]. *)
Definition u8set (dst src : list Z) : list Z :=
  list_inserts 0 (map toUint8 src) dst.

(** [l.slice(s, e)] (also [subarray] as far as values go): negative
    positions count from the end, everything is clamped to the length. *)
Definition slice {A} (l : list A) (s e : Z) : list A :=
  let len := Z.of_nat (length l) in
  let k := if s <? 0 then Z.max (len + s) 0 else Z.min s len in
  let fin := if e <? 0 then Z.max (len + e) 0 else Z.min e len in
  take (Z.to_nat (fin - k)) (drop (Z.to_nat k) l).

(** A JavaScript string is a sequence of UTF-16 code units. *)
Definition jsString := list Z.

Definition isHigh (u : Z) : bool := (0xD800 <=? u) && (u <=? 0xDBFF).
Definition isLow (u : Z) : bool := (0xDC00 <=? u) && (u <=? 0xDFFF).

(** Conversion of a string to scalar values: a surrogate pair is one code
    point, a surrogate on its own becomes U+FFFD. *)
Fixpoint toScalarValues (s : jsString) : list Z :=
  match s with
  | [] => []
  | u :: rest =>
      if isHigh u then
        match rest with
        | v :: rest' =>
            if isLow v
            then (0x10000 + (u - 0xD800) * 0x400 + (v - 0xDC00)) :: toScalarValues rest'
            else 0xFFFD :: toScalarValues rest
        | [] => [0xFFFD]
        end
      else if isLow u then 0xFFFD :: toScalarValues rest
      else u :: toScalarValues rest
  end.

(** A code point as UTF-16 code units. *)
Definition codeUnits (c : Z) : list Z :=
  if c <? 0x10000 then [c]
  else [0xD800 + Z.shiftr (c - 0x10000) 10; 0xDC00 + Z.land (c - 0x10000) 0x3FF].

Definition fromCodePoints (cps : list Z) : jsString := flat_map codeUnits cps.

(** The UTF-8 encoder, one scalar value at a time. *)
Definition utf8EncodeCp (c : Z) : list Z :=
  if c <=? 0x7F then [c]
  else if c <=? 0x7FF then
    [Z.shiftr c 6 + 0xC0; Z.lor 0x80 (Z.land c 0x3F)]
  else if c <=? 0xFFFF then
    [Z.shiftr c 12 + 0xE0; Z.lor 0x80 (Z.land (Z.shiftr c 6) 0x3F);
     Z.lor 0x80 (Z.land c 0x3F)]
  else
    [Z.shiftr c 18 + 0xF0; Z.lor 0x80 (Z.land (Z.shiftr c 12) 0x3F);
     Z.lor 0x80 (Z.land (Z.shiftr c 6) 0x3F); Z.lor 0x80 (Z.land c 0x3F)].

(** [new TextEncoder().encode(text)]. *)
Definition TextEncoder_encode (text : jsString) : list Z :=
  flat_map utf8EncodeCp (toScalarValues text).

(** The UTF-8 decoder's state: code point under construction, bytes seen
    and needed, and the bounds the next continuation byte must obey. *)
Record Utf8State := {
  cp : Z; seen : Z; needed : Z; lower : Z; upper : Z
}.

Definition utf8Init : Utf8State :=
  {| cp := 0; seen := 0; needed := 0; lower := 0x80; upper := 0xBF |}.

(** A byte read while no sequence is open. *)
Definition utf8Start (b : Z) : list Z * Utf8State :=
  if b <=? 0x7F then ([b], utf8Init)
  else if (0xC2 <=? b) && (b <=? 0xDF) then
    ([], {| cp := Z.land b 0x1F; seen := 0; needed := 1;
            lower := 0x80; upper := 0xBF |})
  else if (0xE0 <=? b) && (b <=? 0xEF) then
    ([], {| cp := Z.land b 0xF; seen := 0; needed := 2;
            lower := if b =? 0xE0 then 0xA0 else 0x80;
            upper := if b =? 0xED then 0x9F else 0xBF |})
  else if (0xF0 <=? b) && (b <=? 0xF4) then
    ([], {| cp := Z.land b 0x7; seen := 0; needed := 3;
            lower := if b =? 0xF0 then 0x90 else 0x80;
            upper := if b =? 0xF4 then 0x8F else 0xBF |})
  else ([0xFFFD], utf8Init).

(** One byte of input.  A byte that cannot continue the open sequence
    ends it with U+FFFD and is then read again as a first byte. *)
Definition utf8Step (st : Utf8State) (b : Z) : list Z * Utf8State :=
  if needed st =? 0 then utf8Start b
  else if (b <? lower st) || (upper st <? b) then
    let '(out, st') := utf8Start b in (0xFFFD :: out, st')
  else
    let cp' := Z.lor (Z.shiftl (cp st) 6) (Z.land b 0x3F) in
    if seen st + 1 =? needed st then ([cp'], utf8Init)
    else ([], {| cp := cp'; seen := seen st + 1; needed := needed st;
                 lower := 0x80; upper := 0xBF |}).

(** The whole input; a sequence left open at the end gives U+FFFD. *)
Fixpoint utf8Run (st : Utf8State) (bytes : list Z) : list Z :=
  match bytes with
  | [] => if needed st =? 0 then [] else [0xFFFD]
  | b :: rest =>
      let '(out, st') := utf8Step st b in out ++ utf8Run st' rest
  end.

(** [new TextDecoder('utf-8', { fatal: false }).decode(bytes)]: malformed
    input is replaced, and a leading byte order mark is dropped. *)
Definition TextDecoder_decode (bytes : list Z) : jsString :=
  let cps := utf8Run utf8Init bytes in
  fromCodePoints
    match cps with
    | c :: rest => if c =? 0xFEFF then rest else cps
    | [] => cps
    end.

End Js.

(** ** The encoder, [src/lib/ringcode.ts] *)

Module Ringcode.
Import Js.

Definition SECTORS : list Z := [128; 192; 256; 256; 256; 256].
Definition START_PATTERN_BITS : list Z := concat (replicate 16 [1; 0]).
Definition HEADER_BYTES : Z := 7.
Definition HEADER_BITS : Z := HEADER_BYTES * 8.

Definition capacityBits : Z := fold_left Z.add SECTORS 0.

Definition capacityDataBits : Z :=
  capacityBits - Z.of_nat (length START_PATTERN_BITS) - HEADER_BITS.

Definition bytesToBits (bytes : list Z) : list Z :=
  flat_map
    (fun byte => map (fun i => Z.land (Z.shiftr byte i) 1) [7; 6; 5; 4; 3; 2; 1; 0])
    bytes.

Definition checksum8 (bytes : list Z) : Z :=
  Z.land (fold_left Z.add bytes 0) 0xFF.

(** [sum] after the inner loop of [simpleRS] for redundancy byte [i].
    The code xors 32-bit integers; only the low 8 bits of the result are
    kept, and on those the 32-bit and the unbounded xor agree. *)
Definition rsSum (data : list Z) (i : Z) : Z :=
  fold_left (fun sum d => Z.lxor sum (d * (i + 1))) data 0.

Definition simpleRS (data : list Z) (eccBytes : Z) : list Z :=
  let result := u8new (Z.of_nat (length data) + eccBytes) in
  let result := u8set result data in
  fold_left
    (fun result i =>
       u8store result (length data + i) (Z.land (rsSum data (Z.of_nat i)) 0xFF))
    (seq 0 (Z.to_nat eccBytes)) result.

Definition eccMap : gmap Z Z := <[0 := 8]> (<[1 := 16]> (<[2 := 32]> (<[3 := 64]> ∅))).

(** [eccMap[eccLevel] || 32] *)
Definition eccBytesOf (eccLevel : Z) : Z :=
  match eccMap !! eccLevel with
  | Some v => if v =? 0 then 32 else v
  | None => 32
  end.

(** The one exception [encodeText] throws,
    [Error("Text too long: <length> > <max> bytes")]. *)
Inductive EncodeError : Type :=
| PayloadTooLarge (length maxPayloadBytes : Z).

Definition header (textLength eccLevel eccBytes : Z) : list Z :=
  let header := u8new HEADER_BYTES in
  let header := u8store header 0 3 in
  let header := u8store header 1 eccLevel in
  let header := u8store header 2 (Z.land (Z.shiftr textLength 8) 0xFF) in
  let header := u8store header 3 (Z.land textLength 0xFF) in
  let header := u8store header 4 (Z.land (Z.shiftr eccBytes 8) 0xFF) in
  let header := u8store header 5 (Z.land eccBytes 0xFF) in
  u8store header 6 (checksum8 (slice header 0 6)).

Definition encodeText (text : jsString) (eccLevel : Z) : EncodeError + list Z :=
  let textBytes := TextEncoder_encode text in
  let eccBytes := eccBytesOf eccLevel in
  let dataBitsAvail := capacityDataBits - eccBytes * 8 in
  let maxPayloadBytes := dataBitsAvail / 8 in
  if Z.of_nat (length textBytes) >? maxPayloadBytes then
    inl (PayloadTooLarge (Z.of_nat (length textBytes)) maxPayloadBytes)
  else
    let payload := u8set (u8new maxPayloadBytes) textBytes in
    let encoded := simpleRS payload eccBytes in
    let header := header (Z.of_nat (length textBytes)) eccLevel eccBytes in
    let allBits := START_PATTERN_BITS ++ bytesToBits header ++ bytesToBits encoded in
    let allBits :=
      allBits ++ replicate (Z.to_nat (capacityBits - Z.of_nat (length allBits))) 0 in
    inr (slice allBits 0 capacityBits).

End Ringcode.

(** ** The decoder *)

Module Decoder.
Import Js.

Definition SECTORS := Ringcode.SECTORS.
Definition START_PATTERN_BITS := Ringcode.START_PATTERN_BITS.
Definition HEADER_BITS := Ringcode.HEADER_BITS.

(** [count > dataLen * 0.8] as the code computes it, in binary64: the
    constant is the double nearest to 0.8. *)
Definition moreThan80PercentDouble (count dataLen : Z) : bool :=
  PrimFloat.ltb
    (PrimFloat.mul (PrimFloat.of_uint63 (Uint63.of_Z dataLen)) 0x1.999999999999ap-1%float)
    (PrimFloat.of_uint63 (Uint63.of_Z count)).

(** The same test on integers.  When [dataLen] is a multiple of 5 the
    product rounds to the integer [4 * dataLen / 5]; otherwise it lies at
    least 0.2 away from every integer.  Either way the test is
    [5 * count > 4 * dataLen]; [moreThan80Percent_double] below checks the
    two against each other on every length [tryDecodeLinear] can pass. *)
Definition moreThan80Percent (count dataLen : Z) : bool :=
  4 * dataLen <? 5 * count.

Definition countEq (v : Z) (data : list Z) : Z :=
  Z.of_nat (length (filter (fun x => x = v) data)).

(** [checkXor] is computed and never used, as in the code. *)
Definition rsDecodeSimple (codeword : list Z) (eccLen : Z) : option (list Z) :=
  let dataLen := Z.of_nat (length codeword) - eccLen in
  if (dataLen <=? 0) || (Z.of_nat (length codeword) <? eccLen) then None
  else
    let data := slice codeword 0 dataLen in
    let checkXor := fold_left Z.lxor data 0 in
    let zeros := countEq 0 data in
    let ones := countEq 255 data in
    if moreThan80Percent zeros dataLen || moreThan80Percent ones dataLen
    then None
    else Some data.

(** The inner loop of [bitsToBytes]: the byte assembled from the eight
    bits at positions [i .. i+7], a position past the end counting as 0. *)
Definition byteAt (bits : list Z) (i : nat) : Z :=
  fold_left
    (fun b j =>
       Z.lor (Z.shiftl b 1)
             (if (i + j <? length bits)%nat then nth (i + j) bits 0 else 0))
    (seq 0 8) 0.

(** The outer loop runs for [i = 0, 8, 16, ...] below [bits.length]; the
    bytes go into a [Uint8Array]. *)
Definition bitsToBytes (bits : list Z) : list Z :=
  map (fun k => toUint8 (byteAt bits (8 * k)))
      (seq 0 ((length bits + 7) / 8)%nat).

Definition checksum8 (bb : list Z) : Z :=
  Z.land (fold_left (fun sum byte => sum + byte) bb 0) 0xFF.

Definition capacityBits : Z := fold_left Z.add SECTORS 0.

Definition capacityDataBits : Z :=
  capacityBits - Z.of_nat (length START_PATTERN_BITS) - HEADER_BITS.

(** The header of a bit sequence, as [tryDecodeLinear] reads it. *)
Definition headerOf (linear : list Z) : list Z :=
  let i := Z.of_nat (length START_PATTERN_BITS) in
  bitsToBytes (slice linear i (i + HEADER_BITS)).

(** [null] is [None].  Nothing inside the [try] block can throw
    ([rsDecodeSimple] has no failing operation and the [TextDecoder] is not
    fatal), so the [catch] branch is never taken. *)
Definition tryDecodeLinear (linear : list Z) : option jsString :=
  let i := Z.of_nat (length START_PATTERN_BITS) in
  if Z.of_nat (length linear) <? i + HEADER_BITS then None
  else
    let hdr := headerOf linear in
    if negb (Z.of_nat (length hdr) =? 7) then None
    else
      let version := nth 0 hdr 0 in
      let eccLevel := nth 1 hdr 0 in
      let payloadLen := Z.lor (Z.shiftl (nth 2 hdr 0) 8) (nth 3 hdr 0) in
      let eccLen := Z.lor (Z.shiftl (nth 4 hdr 0) 8) (nth 5 hdr 0) in
      let checksumVal := nth 6 hdr 0 in
      if negb (checksum8 (slice hdr 0 6) =? checksumVal) then None
      else if payloadLen <=? 0 then None
      else
        let capBytes := capacityDataBits / 8 in
        if payloadLen + eccLen >? capBytes then None
        else
          let dataStart := i + HEADER_BITS in
          let needBits := (payloadLen + eccLen) * 8 in
          if dataStart + needBits >? Z.of_nat (length linear) then None
          else
            let codewordBits := slice linear dataStart (dataStart + needBits) in
            let codeword := bitsToBytes codewordBits in
            match rsDecodeSimple codeword eccLen with
            | None => None
            | Some decoded =>
                let msg := slice decoded 0 payloadLen in
                Some (TextDecoder_decode msg)
            end.

End Decoder.

Import Js Ringcode.

(** ** Vocabulary of the statements *)

(** [maxPayloadBytes] as [encodeText] computes it. *)
Definition maxPayloadBytes (eccLevel : Z) : Z :=
  (capacityDataBits - eccBytesOf eccLevel * 8) / 8.

(** The bits [encodeText] assembles before padding and cutting. *)
Definition frameBits (text : jsString) (eccLevel : Z) : list Z :=
  START_PATTERN_BITS
    ++ bytesToBits
         (header (Z.of_nat (length (TextEncoder_encode text))) eccLevel (eccBytesOf eccLevel))
    ++ bytesToBits
         (simpleRS (u8set (u8new (maxPayloadBytes eccLevel)) (TextEncoder_encode text))
                   (eccBytesOf eccLevel)).

Definition paddedBits (text : jsString) (eccLevel : Z) : list Z :=
  frameBits text eccLevel
    ++ replicate (Z.to_nat (capacityBits - Z.of_nat (length (frameBits text eccLevel)))) 0.

(** [encodeText] failed: it threw its only exception. *)
Definition encodeFails (r : EncodeError + list Z) : Prop :=
  exists n m, r = inl (PayloadTooLarge n m).

(** The per-level payload capacities the interface documents. *)
Definition levelCapacity (eccLevel : Z) : Z :=
  if eccLevel =? 0 then 149
  else if eccLevel =? 1 then 141
  else if eccLevel =? 2 then 125
  else 93.

(** A value a [Uint8Array] can hold. *)
Definition isByte (b : Z) : Prop := 0 <= b < 256.

(** A bit. *)
Definition isBit (b : Z) : Prop := b = 0 \/ b = 1.

(** The redundancy layer in the words of its description: redundancy byte
    [i] is the xor, over all payload bytes, of the byte times [i + 1], masked
    to 8 bits. *)
Fixpoint xorOfProducts (payload : list Z) (factor : Z) : Z :=
  match payload with
  | [] => 0
  | b :: rest => Z.lxor (b * factor) (xorOfProducts rest factor)
  end.

Definition redundancyByte (payload : list Z) (i : nat) : Z :=
  xorOfProducts payload (Z.of_nat i + 1) mod 256.

Definition appendRedundancy (payload : list Z) (n : nat) : list Z :=
  map (redundancyByte payload) (seq 0 n).

(** The data bytes of a codeword that carries [eccLen] redundancy bytes. *)
Definition dataBytes (codeword : list Z) (eccLen : Z) : list Z :=
  take (Z.to_nat (Z.of_nat (length codeword) - eccLen)) codeword.

(** The bit [bitsToBytes] reads at position [p]: 0 past the end. *)
Definition bitAt (bits : list Z) (p : nat) : Z :=
  if (p <? length bits)%nat then nth p bits 0 else 0.

(** The bit sequence with the bit at position [p] inverted. *)
Definition flipBit (p : nat) (bits : list Z) : list Z :=
  <[p := 1 - nth p bits 0]> bits.

(** A Unicode scalar value: a code point that is not a surrogate. *)
Definition isScalar (c : Z) : Prop :=
  0 <= c < 0xD800 \/ 0xE000 <= c <= 0x10FFFF.

(** A string in which every surrogate is part of a pair (and every code
    unit is a 16-bit value). *)
Fixpoint wellFormed (s : jsString) : bool :=
  match s with
  | [] => true
  | u :: rest =>
      if isHigh u then
        match rest with
        | v :: rest' => isLow v && wellFormed rest'
        | [] => false
        end
      else negb (isLow u) && (0 <=? u) && (u <? 0x10000) && wellFormed rest
  end.

(** The text "hello". *)
Definition hello : jsString := [104; 101; 108; 108; 111].

(** The payload length and the redundancy length a bit sequence declares
    in its header, as [tryDecodeLinear] reads them. *)
Definition payloadLenOf (linear : list Z) : Z :=
  Z.lor (Z.shiftl (nth 2 (Decoder.headerOf linear) 0) 8) (nth 3 (Decoder.headerOf linear) 0).

Definition eccLenOf (linear : list Z) : Z :=
  Z.lor (Z.shiftl (nth 4 (Decoder.headerOf linear) 0) 8) (nth 5 (Decoder.headerOf linear) 0).

(** The bytes that follow the header, as many as it declares for the
    payload. *)
Definition payloadBytesOf (linear : list Z) : list Z :=
  Decoder.bitsToBytes (slice linear 88 (88 + payloadLenOf linear * 8)).

(** Every check of [tryDecodeLinear] on a sequence that holds a header. *)
Definition frameAccepted (linear : list Z) : bool :=
  (Decoder.checksum8 (slice (Decoder.headerOf linear) 0 6) =? nth 6 (Decoder.headerOf linear) 0)
  && (0 <? payloadLenOf linear)
  && (payloadLenOf linear + eccLenOf linear <=? 157)
  && (88 + (payloadLenOf linear + eccLenOf linear) * 8 <=? Z.of_nat (length linear))
  && negb (Decoder.moreThan80Percent (Decoder.countEq 0 (payloadBytesOf linear))
                                     (payloadLenOf linear)
           || Decoder.moreThan80Percent (Decoder.countEq 255 (payloadBytesOf linear))
                                        (payloadLenOf linear)).

(** ** The renderers' use of the bits, [src/lib/ringcode.ts] *)

Module Render.

(** A filled wedge: ring index and sector index.  [renderRingCode] fills
    one canvas path per wedge and [generateSVG] appends one path element per
    wedge; radii and angles are computed from the two indices in floating
    point and are left out here. *)
Definition Wedge : Type := nat * nat.

(** The inner loop of both renderers,
    [for (s = 0; s < sectors && bitIndex < bits.length; s++, bitIndex++)],
    with [todo] iterations left before [s] reaches [sectors]: the wedges
    drawn and the value of [bitIndex] at the end. *)
Fixpoint sectorLoop (bits : list Z) (ringIdx todo s bitIndex : nat) : list Wedge * nat :=
  match todo with
  | O => ([], bitIndex)
  | S todo' =>
      if (bitIndex <? length bits)%nat then
        let drawn := if nth bitIndex bits 0 =? 1 then [(ringIdx, s)] else [] in
        let '(more, bitIndex') := sectorLoop bits ringIdx todo' (S s) (S bitIndex) in
        (drawn ++ more, bitIndex')
      else ([], bitIndex)
  end.

(** The outer loop over the rings, from ring [ringIdx] on. *)
Fixpoint ringLoop (bits : list Z) (sectorCounts : list Z) (ringIdx bitIndex : nat)
  : list Wedge :=
  match sectorCounts with
  | [] => []
  | sectors :: more =>
      let '(drawn, bitIndex') := sectorLoop bits ringIdx (Z.to_nat sectors) 0 bitIndex in
      drawn ++ ringLoop bits more (S ringIdx) bitIndex'
  end.

(** The wedges [renderRingCode] and [generateSVG] draw, in drawing order. *)
Definition wedges (bits : list Z) : list Wedge := ringLoop bits SECTORS 0 0.

End Render.

(** The ring and sector that hold bit [k] of the layout: the rings start
    at bits 0, 128, 320, 576, 832 and 1088. *)
Definition wedgeAt (k : nat) : Render.Wedge :=
  if (k <? 128)%nat then (0, k)%nat
  else if (k <? 320)%nat then (1, k - 128)%nat
  else if (k <? 576)%nat then (2, k - 320)%nat
  else if (k <? 832)%nat then (3, k - 576)%nat
  else if (k <? 1088)%nat then (4, k - 832)%nat
  else (5, k - 1088)%nat.
(** The decoder's flattening of the per-ring bits into one sequence,
    [for (const ring of ringBits) linear.push(...ring)]. *)
Definition flatten (ringBits : list (list Z)) : list Z :=
  fold_left (fun linear ring => linear ++ ring) ringBits [].

(** Sampling without noise: one list per ring as the decoder's ring loop
    builds them ([n = SECTORS[ri]] bits for ring [ri]), the bit of a sector
    being 1 exactly when its wedge was drawn. *)
Definition idealRingBits (drawn : list Render.Wedge) : list (list Z) :=
  map (fun ri =>
         map (fun s => if decide ((ri, s) ∈ drawn) then 1 else 0)
             (seq 0 (Z.to_nat (nth ri SECTORS 0))))
      (seq 0 (length SECTORS)).

(** Number of sectors of ring [ri], and the position of its first bit. *)
Definition ringSize (ri : nat) : nat := Z.to_nat (nth ri SECTORS 0).

Definition ringStart (ri : nat) : nat := Z.to_nat (fold_left Z.add (take ri SECTORS) 0).
(** ** The hypothesis sweep of the decoder *)

Module Sweep.

(** [threshMode], ['pct'] or ['otsu']. *)
Inductive ThreshMode : Type := pct | otsu.

(** The bias values tried, 1.00, 0.95, 1.05, 0.90 and 1.10 as doubles. *)
Definition biases : list float :=
  [0x1p+0; 0x1.e666666666666p-1; 0x1.0cccccccccccdp+0; 0x1.ccccccccccccdp-1;
   0x1.199999999999ap+0]%float.

(** The anchors tried, [for (s0 = 0; s0 < SECTORS[0]; s0 += 4)]. *)
Definition anchors : list Z :=
  map (fun i => 4 * i) (seqZ 0 ((nth 0 SECTORS 0 + 3) / 4)).

(** A loop that returns from the function at the first item for which the
    body yields a text. *)
Fixpoint firstResult {A : Type} (items : list A) (body : A -> option jsString)
  : option jsString :=
  match items with
  | [] => None
  | item :: rest =>
      match body item with
      | Some text => Some text
      | None => firstResult rest body
      end
  end.

Section Search.

(** The thresholded samples of one ring: [sampleRing] on variant [vi] at
    the mid radius of ring [ri] with [n] sectors and the given shift, then
    [valsToBitsPercentile] or [valsToBitsOtsu] with the bias.  The pixel
    arithmetic is floating point and trigonometry; it is a parameter here. *)
Variable thresholded : nat -> ThreshMode -> float -> nat -> Z -> Z -> list Z.

(** The body of the innermost loop up to the flattening: the bits of one
    hypothesis.  The shift [(s0 * n) / SECTORS[0]] is a whole number for
    every anchor and ring, so the integer division is the code's. *)
Definition linearOf (vi : nat) (inv : bool) (bias : float) (threshMode : ThreshMode)
    (s0 : Z) : list Z :=
  flatten
    (map (fun ri =>
            let n := nth ri SECTORS 0 in
            let shift := s0 * n / nth 0 SECTORS 0 in
            let bits := thresholded vi threshMode bias ri n shift in
            if inv then map (fun b => 1 - b) bits else bits)
         (seq 0 (length SECTORS))).

(** [decodeRingCodeFromImage]: the five preprocessing variants, both
    polarities, the biases, the two threshold modes and the anchors, in this
    nesting; the first text [tryDecodeLinear] gives is returned.  Progress
    callbacks and logging do not touch the result and are left out. *)
Definition decodeRingCodeFromImage : option jsString :=
  firstResult (seq 0 5) (fun vi =>
    firstResult [false; true] (fun inv =>
      firstResult biases (fun bias =>
        firstResult [pct; otsu] (fun threshMode =>
          firstResult anchors (fun s0 =>
            Decoder.tryDecodeLinear (linearOf vi inv bias threshMode s0)))))).

End Search.

End Sweep.

(** One hypothesis of the sweep: variant, polarity, bias, threshold mode
    and anchor. *)
Definition SweepPoint : Type := nat * bool * float * Sweep.ThreshMode * Z.

(** The hypotheses in the order the loops visit them. *)
Definition sweepOrder : list SweepPoint :=
  flat_map (fun vi =>
    flat_map (fun inv =>
      flat_map (fun bias =>
        flat_map (fun threshMode =>
          map (fun s0 => (vi, inv, bias, threshMode, s0)) Sweep.anchors)
          [Sweep.pct; Sweep.otsu])
        Sweep.biases)
      [false; true])
    (seq 0 5).
(** The bits the sweep hands to [tryDecodeLinear] at a hypothesis. *)
Definition candidateOf (thresholded : nat -> Sweep.ThreshMode -> float -> nat -> Z -> Z -> list Z)
    (h : SweepPoint) : list Z :=
  let '(vi, inv, bias, threshMode, s0) := h in
  Sweep.linearOf thresholded vi inv bias threshMode s0.

(** ** Numbers of the decoder's thresholding *)

Module JsNum.

(** A count, an index or a gray level as a JS number: these are integers
    from 0 to below 2^53, which a double holds exactly. *)
Definition num (z : Z) : float := PrimFloat.of_uint63 (Uint63.of_Z z).

(** The finite double [S754_finite s m e] has the value [(-1)^s * m * 2^e];
    the two functions below compute on that value exactly.  [None] stands
    for a result that is not a finite number. *)
Definition Math_floor (x : float) : option Z :=
  match Prim2SF x with
  | S754_zero _ => Some 0
  | S754_finite s m e =>
      let n := if s then Z.neg m else Z.pos m in
      Some (if 0 <=? e then n * 2 ^ e else n / 2 ^ (- e))
  | S754_infinity _ | S754_nan => None
  end.

(** [Math.round] gives the integer nearest to its argument, the upper one
    of two that are equally near: the floor of the argument plus one half. *)
Definition Math_round (x : float) : option Z :=
  match Prim2SF x with
  | S754_zero _ => Some 0
  | S754_finite s m e =>
      let n := if s then Z.neg m else Z.pos m in
      Some (if 0 <=? e then n * 2 ^ e else (2 * n + 2 ^ (- e)) / 2 ^ (1 - e))
  | S754_infinity _ | S754_nan => None
  end.

End JsNum.

(** ** Thresholding of a sampled ring *)

Module Threshold.

Import JsNum.

(** [[...vals].sort((a, b) => a - b)]: the sort is stable and, on numbers
    none of which is NaN, ascending. *)
Fixpoint insertSorted (a : float) (sorted : list float) : list float :=
  match sorted with
  | [] => [a]
  | b :: rest => if (a <=? b)%float then a :: sorted else b :: insertSorted a rest
  end.

Definition sortAscending (vals : list float) : list float :=
  foldr insertSorted [] vals.

(** [sorted[Math.floor(sorted.length * frac)]]; an index outside the array
    reads [undefined], which the arithmetic that follows turns into NaN. *)
Definition percentileIndex (length : nat) (frac : float) : option Z :=
  Math_floor (num (Z.of_nat length) * frac)%float.

Definition percentileAt (sorted : list float) (frac : float) : float :=
  match percentileIndex (length sorted) frac with
  | Some idx => nth (Z.to_nat idx) sorted nan
  | None => nan
  end.

Definition valsToBitsPercentile (vals : list float) (bias : float) : list Z :=
  let sorted := sortAscending vals in
  let p30 := percentileAt sorted 0x1.3333333333333p-2%float in
  let p70 := percentileAt sorted 0x1.6666666666666p-1%float in
  let thr := ((p30 + p70) / 2 * bias)%float in
  map (fun v => if (v <? thr)%float then 1 else 0) vals.

(** [Math.max(0, Math.min(255, Math.round(v)))]; [None] is NaN. *)
Definition clip (v : float) : option Z :=
  match Prim2SF v with
  | S754_nan => None
  | S754_infinity s => Some (if s then 0 else 255)
  | _ => option_map (fun r => Z.max 0 (Z.min 255 r)) (Math_round v)
  end.

(** [histogram[val]++] over the clipped values.  An entry that is NaN names
    no element of the array and leaves the 256 counters as they are. *)
Definition histogramOf (clipped : list (option Z)) : list Z :=
  fold_left
    (fun histogram val =>
       match val with
       | Some v => <[Z.to_nat v := nth (Z.to_nat v) histogram 0 + 1]> histogram
       | None => histogram
       end)
    clipped (replicate 256 0).

Definition weightedSum (histogram : list Z) : Z :=
  fold_left (fun sum i => sum + i * nth (Z.to_nat i) histogram 0) (seqZ 0 256) 0.

(** The loop [for (let t = 0; t < 256; t++)], with [n] rounds left to go:
    [continue] while no value is at or below [t], [break] once none is
    above it. *)
Fixpoint otsuLoop (histogram : list Z) (sum total : Z) (n : nat) (t : Z)
    (sumB wB : Z) (maxVariance : float) (threshold : Z) : Z :=
  match n with
  | O => threshold
  | S n' =>
      let wB := wB + nth (Z.to_nat t) histogram 0 in
      if wB =? 0 then otsuLoop histogram sum total n' (t + 1) sumB wB maxVariance threshold
      else
        let wF := total - wB in
        if wF =? 0 then threshold
        else
          let sumB := sumB + t * nth (Z.to_nat t) histogram 0 in
          let mB := (num sumB / num wB)%float in
          let mF := (num (sum - sumB) / num wF)%float in
          let variance := (num wB * num wF * (mB - mF) * (mB - mF))%float in
          if (maxVariance <? variance)%float
          then otsuLoop histogram sum total n' (t + 1) sumB wB variance t
          else otsuLoop histogram sum total n' (t + 1) sumB wB maxVariance threshold
  end.

Definition otsuThreshold (clipped : list (option Z)) : Z :=
  let histogram := histogramOf clipped in
  otsuLoop histogram (weightedSum histogram) (Z.of_nat (length clipped))
           256 0 0 0 0%float 0.

Definition valsToBitsOtsu (vals : list float) (bias : float) : list Z :=
  let clipped := map clip vals in
  let thr := (num (otsuThreshold clipped) * bias)%float in
  map (fun v => match v with
                | Some c => if (num c <? thr)%float then 1 else 0
                | None => 0
                end) clipped.

End Threshold.

(** The number of values counted at the levels [t], ..., [t + n - 1]. *)
Fixpoint rangeSum (histogram : list Z) (n : nat) (t : Z) : Z :=
  match n with
  | O => 0
  | S n' => nth (Z.to_nat t) histogram 0 + rangeSum histogram n' (t + 1)
  end.

(** The biases of the sweep that do not raise the threshold. *)
Definition lowBias (bias : float) : Prop :=
  In bias Sweep.biases /\ (bias <=? 1)%float = true.

(** A clipped value that is a number, hence a level from 0 to 255. *)
Definition levelIn (x : option Z) : Prop := exists c, x = Some c /\ 0 <= c <= 255.

(** A ring sampled from a drawing in pure black and white: every value is
    0 (a drawn sector) or 255; the bit a drawn sector stands for is 1. *)
Definition blackOrWhite (v : float) : Prop := v = 0%float \/ v = 255%float.

Definition blackBit (v : float) : Z := if (v =? 0)%float then 1 else 0.

Definition countBlack (vals : list float) : Z :=
  Z.of_nat (length (List.filter (fun v => (v =? 0)%float) vals)).

(** Lines 353 to 360 of [decodeRingCodeFromImage]: the values that
    [sampleRing] reads on variant [vi] at the mid radius of ring [ri] with
    [n] sectors and the given shift, here [sampled vi ri n shift], turned
    into bits in the mode of the hypothesis. *)
Definition thresholdedOf (sampled : nat -> nat -> Z -> Z -> list float)
    (vi : nat) (threshMode : Sweep.ThreshMode) (bias : float) (ri : nat) (n shift : Z)
    : list Z :=
  let vals := sampled vi ri n shift in
  match threshMode with
  | Sweep.pct => Threshold.valsToBitsPercentile vals bias
  | Sweep.otsu => Threshold.valsToBitsOtsu vals bias
  end.

(** The value sampled on a sector of a drawing in pure black and white:
    a bit 1 is a black wedge. *)
Definition paint (b : Z) : float := if b =? 1 then 0%float else 255%float.

(** The bits of ring [ri] in a full sequence. *)
Definition ringOf (bits : list Z) (ri : nat) : list Z :=
  take (ringSize ri) (drop (ringStart ri) bits).

(** ** Preprocessing of the image *)

Module Preprocess.

Import JsNum.

(** Storing a number into a [Uint8ClampedArray]: NaN becomes 0, the number
    is clamped to 0..255 and rounded to the nearest integer, to the even one
    of two that are equally near. *)
Definition toUint8Clamp (x : float) : Z :=
  match Prim2SF x with
  | S754_nan | S754_zero _ => 0
  | S754_infinity s => if s then 0 else 255
  | S754_finite true _ _ => 0
  | S754_finite false m e =>
      if 0 <=? e then Z.min 255 (Z.pos m * 2 ^ e)
      else
        let d := 2 ^ (- e) in
        let f := Z.pos m / d in
        let twice := 2 * (Z.pos m mod d) in
        Z.min 255 (if twice <? d then f
                   else if d <? twice then f + 1
                   else if Z.even f then f else f + 1)
  end.

(** Storing [Math.round(x)] into a [Uint8ClampedArray]. *)
Definition storeRounded (x : float) : Z :=
  match Prim2SF x with
  | S754_nan => 0
  | S754_infinity s => if s then 0 else 255
  | _ => match Math_round x with
         | Some z => Z.max 0 (Z.min 255 z)
         | None => 0
         end
  end.

(** [0.299 * r + 0.587 * g + 0.114 * b]. *)
Definition grayOf (r g b : Z) : float :=
  (0x1.322d0e5604189p-2 * num r + 0x1.2c8b439581062p-1 * num g
   + 0x1.d2f1a9fbe76c9p-4 * num b)%float.

(** [createGrayscale] on the bytes of the image, four to a pixel.  The new
    array is as long as the old one and starts out as zeros; in a last group
    of fewer than four bytes a missing green or blue reads [undefined], the
    gray value is NaN and is stored as 0, and nothing is stored past the
    end. *)
Fixpoint createGrayscale (data : list Z) : list Z :=
  match data with
  | r :: g :: b :: _ :: rest =>
      let gray := toUint8Clamp (grayOf r g b) in
      gray :: gray :: gray :: 255 :: createGrayscale rest
  | [r; g; b] =>
      let gray := toUint8Clamp (grayOf r g b) in [gray; gray; gray]
  | [_; _] => [0; 0]
  | [_] => [0]
  | [] => []
  end.

(** The bytes [data[0]], [data[4]], ...: what the loops with [i += 4] read. *)
Fixpoint firstChannel (data : list Z) : list Z :=
  match data with
  | r :: _ :: _ :: _ :: rest => r :: firstChannel rest
  | r :: _ => [r]
  | [] => []
  end.

(** The first loop of [normalizeImage]. *)
Definition minMax (data : list Z) : Z * Z :=
  fold_left (fun '(min, max) val =>
               (if val <? min then val else min, if max <? val then val else max))
            (firstChannel data) (255, 0).

Definition stretch (min range val : Z) : Z :=
  storeRounded (num (val - min) / num range * 255)%float.

(** The second loop of [normalizeImage]: the three colours of every pixel
    are set to [f] of its first byte and its fourth byte to 255, as far as
    the array reaches. *)
Fixpoint mapPixels (f : Z -> Z) (data : list Z) : list Z :=
  match data with
  | r :: _ :: _ :: _ :: rest => f r :: f r :: f r :: 255 :: mapPixels f rest
  | [r; _; _] => [f r; f r; f r]
  | [r; _] => [f r; f r]
  | [r] => [f r]
  | [] => []
  end.

Definition normalizeImage (data : list Z) : list Z :=
  let '(min, max) := minMax data in
  let range := max - min in
  if range =? 0 then data else mapPixels (stretch min range) data.

End Preprocess.

(** ** Histogram equalization *)

Module Clahe.

Import JsNum Preprocess.

(** A JS number that holds an integer which may be negative. *)
Definition numZ (z : Z) : float := if z <? 0 then (- num (- z))%float else num z.

(** [cdf[0] = histogram[0]; cdf[i] = cdf[i - 1] + histogram[i]]. *)
Fixpoint cdfFrom (before : Z) (histogram : list Z) : list Z :=
  match histogram with
  | [] => []
  | count :: rest => (before + count) :: cdfFrom (before + count) rest
  end.

Definition cdfOf (data : list Z) : list Z :=
  cdfFrom 0 (Threshold.histogramOf (map Some (firstChannel data))).

(** [cdf.find(v => v > 0) || 0]. *)
Definition cdfMinOf (cdf : list Z) : Z :=
  match List.find (fun v => 0 <? v) cdf with
  | Some v => v
  | None => 0
  end.

(** The new value of the pixels whose first byte is [val]. *)
Definition equalized (data : list Z) (width height : Z) (val : Z) : Z :=
  let cdf := cdfOf data in
  let total := width * height in
  let cdfMin := cdfMinOf cdf in
  storeRounded
    (numZ (nth (Z.to_nat val) cdf 0%Z - cdfMin) / numZ (total - cdfMin) * 255)%float.

(** The array starts as a copy of the image; the three colours of every
    pixel are overwritten and its fourth byte stays. *)
Fixpoint mapColours (f : Z -> Z) (data : list Z) : list Z :=
  match data with
  | r :: _ :: _ :: a :: rest => f r :: f r :: f r :: a :: mapColours f rest
  | [r; _; _] => [f r; f r; f r]
  | [r; _] => [f r; f r]
  | [r] => [f r]
  | [] => []
  end.

(** [applyCLAHE]; the parameters [clipLimit] and [tileSize] are not used by
    the code. *)
Definition applyCLAHE (data : list Z) (width height : Z) : list Z :=
  mapColours (equalized data width height) data.

End Clahe.

(** ** Bit arithmetic *)

Section BitArithmetic.

Lemma lor_shiftl_add (x y k : Z) :
  0 <= k -> 0 <= y < 2 ^ k -> Z.lor (Z.shiftl x k) y = x * 2 ^ k + y.
Proof.
  intros Hk Hy.
  rewrite <- Z.shiftl_mul_pow2 by lia.
  rewrite <- Z.add_lor_land.
  assert (Hland : Z.land (Z.shiftl x k) y = 0).
  { apply Z.bits_inj'. intros n Hn.
    rewrite Z.land_spec, Z.bits_0.
    destruct (Z.lt_ge_cases n k) as [Hlt | Hge].
    - rewrite Z.shiftl_spec_low by lia. reflexivity.
    - rewrite <- (Z.mod_small y (2 ^ k)) by lia.
      rewrite Z.mod_pow2_bits_high by lia. apply andb_false_r. }
  rewrite Hland. symmetry. apply Z.add_0_r.
Qed.

Lemma land_mask (x k : Z) : 0 <= k -> Z.land x (2 ^ k - 1) = x mod 2 ^ k.
Proof.
  intros Hk. rewrite <- Z.land_ones by lia.
  f_equal. rewrite Z.ones_equiv. lia.
Qed.

Lemma land_0xFF (x : Z) : Z.land x 0xFF = x mod 256.
Proof. apply (land_mask x 8). lia. Qed.

Lemma land_0x3F (x : Z) : Z.land x 0x3F = x mod 64.
Proof. apply (land_mask x 6). lia. Qed.

Lemma land_1 (x : Z) : Z.land x 1 = x mod 2.
Proof. apply (land_mask x 1). lia. Qed.

Lemma lor_0x80 (y : Z) : 0 <= y < 64 -> Z.lor 0x80 y = 128 + y.
Proof.
  intros Hy. pose proof (lor_shiftl_add 2 y 6) as H.
  change (2 ^ 6) with 64 in H. change (Z.shiftl 2 6) with 128 in H.
  rewrite H; lia.
Qed.

End BitArithmetic.

(** ** Slices *)

Section Slices.
Context {A : Type}.
Implicit Types l : list A.

Lemma slice_take_drop l (s e : Z) :
  0 <= s <= e -> e <= Z.of_nat (length l) ->
  Js.slice l s e = take (Z.to_nat (e - s)) (drop (Z.to_nat s) l).
Proof.
  intros Hs He. unfold Js.slice.
  destruct (Z.ltb_spec s 0); [lia |].
  destruct (Z.ltb_spec e 0); [lia |].
  rewrite !Z.min_l by lia. reflexivity.
Qed.

Lemma slice_prefix l (e : Z) : 0 <= e -> Js.slice l 0 e = take (Z.to_nat e) l.
Proof.
  intros He. unfold Js.slice. change (0 <? 0) with false. cbv iota.
  destruct (Z.ltb_spec e 0); [lia |].
  rewrite (Z.min_l 0) by lia. rewrite Z.sub_0_r.
  change (drop (Z.to_nat 0) l) with l.
  destruct (Z.le_ge_cases e (Z.of_nat (length l))).
  - rewrite Z.min_l by lia. reflexivity.
  - rewrite Z.min_r by lia. rewrite Nat2Z.id.
    rewrite (take_ge l (length l)) by lia.
    rewrite (take_ge l (Z.to_nat e)) by lia. reflexivity.
Qed.

Lemma length_slice l (s e : Z) :
  0 <= s <= e -> e <= Z.of_nat (length l) ->
  Z.of_nat (length (Js.slice l s e)) = e - s.
Proof.
  intros Hs He. rewrite slice_take_drop by lia.
  rewrite length_take, length_drop. lia.
Qed.

Lemma slice_all l (e : Z) : Z.of_nat (length l) <= e -> Js.slice l 0 e = l.
Proof. intros He. rewrite slice_prefix by lia. apply take_ge. lia. Qed.

End Slices.

(** ** The capacity model and the redundancy table *)

Section Capacity.

Lemma capacityBits_eq : capacityBits = 1344.
Proof. reflexivity. Qed.

Lemma capacityDataBits_eq : capacityDataBits = 1256.
Proof. reflexivity. Qed.

Lemma decoder_capacity_eq :
  Decoder.capacityBits = capacityBits /\ Decoder.capacityDataBits = capacityDataBits.
Proof. split; reflexivity. Qed.

Lemma length_START_PATTERN_BITS : length START_PATTERN_BITS = 32%nat.
Proof. reflexivity. Qed.

Lemma eccBytesOf_levels :
  eccBytesOf 0 = 8 /\ eccBytesOf 1 = 16 /\ eccBytesOf 2 = 32 /\ eccBytesOf 3 = 64.
Proof. repeat split; reflexivity. Qed.

Lemma eccBytesOf_fallback (eccLevel : Z) :
  ~ (0 <= eccLevel <= 3) -> eccBytesOf eccLevel = 32.
Proof.
  intros Hout. unfold eccBytesOf, eccMap.
  rewrite !lookup_insert_ne by lia. rewrite lookup_empty. reflexivity.
Qed.

(** Whatever the level, the table gives one of four byte counts. *)
Lemma eccBytesOf_cases (eccLevel : Z) :
  eccBytesOf eccLevel = 8 \/ eccBytesOf eccLevel = 16 \/
  eccBytesOf eccLevel = 32 \/ eccBytesOf eccLevel = 64.
Proof.
  destruct (decide (0 <= eccLevel <= 3)) as [Hin | Hout].
  - assert (eccLevel = 0 \/ eccLevel = 1 \/ eccLevel = 2 \/ eccLevel = 3)
      as [-> | [-> | [-> | ->]]] by lia; auto.
  - rewrite eccBytesOf_fallback by assumption. auto.
Qed.

Lemma maxPayloadBytes_eq (eccLevel : Z) :
  maxPayloadBytes eccLevel = 157 - eccBytesOf eccLevel.
Proof.
  unfold maxPayloadBytes. rewrite capacityDataBits_eq.
  destruct (eccBytesOf_cases eccLevel) as [-> | [-> | [-> | ->]]]; reflexivity.
Qed.

End Capacity.

(** ** The two outcomes of [encodeText] *)

Section EncodeOutcome.
Variables (text : jsString) (eccLevel : Z).

Local Abbreviation textBytes := (TextEncoder_encode text).

Lemma encodeText_too_long :
  maxPayloadBytes eccLevel < Z.of_nat (length textBytes) ->
  encodeText text eccLevel =
    inl (PayloadTooLarge (Z.of_nat (length textBytes)) (maxPayloadBytes eccLevel)).
Proof.
  intros Hlen. unfold encodeText. cbv zeta.
  fold (maxPayloadBytes eccLevel).
  destruct (Z.gtb_spec (Z.of_nat (length textBytes)) (maxPayloadBytes eccLevel));
    [reflexivity | lia].
Qed.

Lemma encodeText_fits :
  Z.of_nat (length textBytes) <= maxPayloadBytes eccLevel ->
  encodeText text eccLevel = inr (slice (paddedBits text eccLevel) 0 capacityBits).
Proof.
  intros Hlen. unfold encodeText. cbv zeta.
  fold (maxPayloadBytes eccLevel).
  destruct (Z.gtb_spec (Z.of_nat (length textBytes)) (maxPayloadBytes eccLevel));
    [lia | reflexivity].
Qed.

Lemma encodeText_accepted (bits : list Z) :
  encodeText text eccLevel = inr bits ->
  Z.of_nat (length textBytes) <= maxPayloadBytes eccLevel
  /\ bits = slice (paddedBits text eccLevel) 0 capacityBits.
Proof.
  intros Henc.
  destruct (Z.lt_ge_cases (maxPayloadBytes eccLevel) (Z.of_nat (length textBytes)))
    as [Hlong | Hfits].
  - rewrite encodeText_too_long in Henc by assumption. discriminate.
  - rewrite encodeText_fits in Henc by lia. split; [lia | congruence].
Qed.

Lemma length_paddedBits :
  capacityBits <= Z.of_nat (length (paddedBits text eccLevel)).
Proof. unfold paddedBits. rewrite length_app, length_replicate. lia. Qed.

End EncodeOutcome.

Lemma encodeFails_iff (text : jsString) (eccLevel : Z) :
  encodeFails (encodeText text eccLevel)
  <-> maxPayloadBytes eccLevel < Z.of_nat (length (TextEncoder_encode text)).
Proof.
  split.
  - intros (n & m & Hfail).
    destruct (Z.lt_ge_cases (maxPayloadBytes eccLevel)
                (Z.of_nat (length (TextEncoder_encode text)))) as [Hlong | Hfits];
      [assumption |].
    rewrite encodeText_fits in Hfail by lia. discriminate.
  - intros Hlong. rewrite encodeText_too_long by assumption.
    do 2 eexists. reflexivity.
Qed.

Lemma maxPayloadBytes_levels (eccLevel : Z) :
  0 <= eccLevel <= 3 -> maxPayloadBytes eccLevel = levelCapacity eccLevel.
Proof.
  intros Hlevel.
  assert (eccLevel = 0 \/ eccLevel = 1 \/ eccLevel = 2 \/ eccLevel = 3)
    as [-> | [-> | [-> | ->]]] by lia; reflexivity.
Qed.

(** C2: for the four levels, [encodeText] fails with [PayloadTooLarge]
    exactly when the UTF-8 length of the text exceeds the level's capacity
    (149, 141, 125, 93 bytes); a text of exactly that length is accepted and
    one of a byte more is refused. *)
Theorem encodeText_PayloadTooLarge_iff (text : jsString) (eccLevel : Z) :
  0 <= eccLevel <= 3 ->
  levelCapacity 0 = 149 /\ levelCapacity 1 = 141
  /\ levelCapacity 2 = 125 /\ levelCapacity 3 = 93
  /\ (encodeFails (encodeText text eccLevel)
      <-> levelCapacity eccLevel < Z.of_nat (length (TextEncoder_encode text)))
  /\ (Z.of_nat (length (TextEncoder_encode text)) = levelCapacity eccLevel ->
      exists bits, encodeText text eccLevel = inr bits)
  /\ (Z.of_nat (length (TextEncoder_encode text)) = levelCapacity eccLevel + 1 ->
      encodeText text eccLevel
      = inl (PayloadTooLarge (levelCapacity eccLevel + 1) (levelCapacity eccLevel))).
Proof.
  intros Hlevel. repeat split; try reflexivity.
  - rewrite encodeFails_iff, maxPayloadBytes_levels by assumption. trivial.
  - rewrite encodeFails_iff, maxPayloadBytes_levels by assumption. trivial.
  - intros Hlen. eexists. apply encodeText_fits.
    rewrite maxPayloadBytes_levels by assumption. lia.
  - intros Hlen. rewrite encodeText_too_long.
    + rewrite maxPayloadBytes_levels by assumption. rewrite Hlen. reflexivity.
    + rewrite maxPayloadBytes_levels by assumption. lia.
Qed.

(** C5: the layout holds 1344 bits, 1256 of them after the start pattern
    and the header, and every accepted input yields exactly 1344 bits. *)
Theorem encodeText_length (text : jsString) (eccLevel : Z) (bits : list Z) :
  encodeText text eccLevel = inr bits ->
  capacityBits = 1344
  /\ capacityBits = fold_left Z.add [128; 192; 256; 256; 256; 256] 0
  /\ capacityDataBits = 1344 - 32 - 56
  /\ capacityDataBits = 1256
  /\ length bits = 1344%nat.
Proof.
  intros Henc. repeat split.
  apply encodeText_accepted in Henc as [_ ->].
  pose proof (length_paddedBits text eccLevel) as Hpad.
  pose proof (length_slice (paddedBits text eccLevel) 0 capacityBits) as Hlen.
  rewrite capacityBits_eq in *. lia.
Qed.

(** ** The redundancy bytes of [simpleRS] *)

Section SimpleRS.

Lemma toUint8_byte (b : Z) : isByte b -> toUint8 b = b.
Proof. unfold isByte, toUint8. intros Hb. apply Z.mod_small. lia. Qed.

Lemma toUint8_isByte (v : Z) : isByte (toUint8 v).
Proof. unfold isByte, toUint8. apply Z.mod_pos_bound. lia. Qed.

Lemma map_toUint8_bytes (data : list Z) :
  Forall isByte data -> map toUint8 data = data.
Proof.
  induction 1 as [| b data Hb _ IH]; simpl; [reflexivity |].
  rewrite toUint8_byte, IH by assumption. reflexivity.
Qed.

Lemma toUint8_land_0xFF (v : Z) : toUint8 (Z.land v 0xFF) = v mod 256.
Proof.
  rewrite land_0xFF. unfold toUint8. apply Z.mod_mod. lia.
Qed.

(** The accumulator of the inner loop, run left to right. *)
Lemma rsSum_from (data : list Z) (i acc : Z) :
  fold_left (fun sum d => Z.lxor sum (d * (i + 1))) data acc
  = Z.lxor acc (xorOfProducts data (i + 1)).
Proof.
  revert acc. induction data as [| d data IH]; intros acc; simpl.
  - symmetry. apply Z.lxor_0_r.
  - rewrite IH. apply Z.lxor_assoc.
Qed.

Lemma rsSum_xorOfProducts (data : list Z) (i : Z) :
  rsSum data i = xorOfProducts data (i + 1).
Proof. unfold rsSum. rewrite rsSum_from. apply Z.lxor_0_l. Qed.

(** [result.set(data)] on a fresh array. *)
Lemma u8set_fresh (data : list Z) (extra : nat) :
  Forall isByte data ->
  u8set (replicate (length data + extra) 0) data = data ++ replicate extra 0.
Proof.
  intros Hdata. unfold u8set.
  rewrite map_toUint8_bytes by assumption.
  rewrite replicate_add. apply list_inserts_0_r.
  rewrite length_replicate. reflexivity.
Qed.

(** The outer loop stores its bytes one after the other behind the data. *)
Lemma store_loop (f : nat -> Z) (data : list Z) (k : nat) :
  forall (a : nat) (done : list Z),
    length done = a ->
    fold_left (fun result i => u8store result (length data + i) (f i))
              (seq a k) (data ++ done ++ replicate k 0)
    = data ++ done ++ map (fun i => toUint8 (f i)) (seq a k).
Proof.
  induction k as [| k IH]; intros a done Hdone; [reflexivity |].
  cbn [seq fold_left map replicate].
  assert (Hstore :
    u8store (data ++ done ++ 0 :: replicate k 0) (length data + a) (f a)
    = data ++ (done ++ [toUint8 (f a)]) ++ replicate k 0).
  { unfold u8store. rewrite insert_app_r. f_equal.
    replace a with (length done + 0)%nat by lia.
    rewrite insert_app_r, <- app_assoc. reflexivity. }
  rewrite Hstore.
  rewrite IH by (rewrite length_app; simpl; lia).
  rewrite <- app_assoc. reflexivity.
Qed.

Lemma simpleRS_eq (data : list Z) (eccBytes : Z) :
  Forall isByte data -> 0 <= eccBytes ->
  simpleRS data eccBytes = data ++ appendRedundancy data (Z.to_nat eccBytes).
Proof.
  intros Hdata Hecc. unfold simpleRS, u8new. cbv zeta.
  replace (Z.to_nat (Z.of_nat (length data) + eccBytes))
    with (length data + Z.to_nat eccBytes)%nat by lia.
  rewrite u8set_fresh by assumption.
  pose proof (store_loop (fun i => Z.land (rsSum data (Z.of_nat i)) 0xFF)
                data (Z.to_nat eccBytes) 0%nat [] eq_refl) as Hloop.
  cbn [app] in Hloop. rewrite Hloop. f_equal.
  unfold appendRedundancy. apply map_ext. intros i.
  rewrite toUint8_land_0xFF, rsSum_xorOfProducts. reflexivity.
Qed.

End SimpleRS.

(** C7: [simpleRS] returns the payload followed by exactly [n] further
    bytes, byte [i] being the xor over all payload bytes of the byte times
    [i + 1], masked to 8 bits. *)
Theorem simpleRS_appendRedundancy (payload : list Z) (n : Z) :
  Forall isByte payload -> 0 <= n ->
  simpleRS payload n = payload ++ appendRedundancy payload (Z.to_nat n)
  /\ length (appendRedundancy payload (Z.to_nat n)) = Z.to_nat n
  /\ (forall i : nat,
        (i < Z.to_nat n)%nat ->
        nth (length payload + i) (simpleRS payload n) 0
        = Z.land (xorOfProducts payload (Z.of_nat i + 1)) 0xFF).
Proof.
  intros Hpayload Hn.
  assert (Hlen : length (appendRedundancy payload (Z.to_nat n)) = Z.to_nat n).
  { unfold appendRedundancy. rewrite length_map, length_seq. reflexivity. }
  repeat split; [apply simpleRS_eq; assumption | exact Hlen |].
  intros i Hi. rewrite simpleRS_eq by assumption.
  rewrite app_nth2 by lia.
  replace (length payload + i - length payload)%nat with i by lia.
  unfold appendRedundancy.
  rewrite (nth_indep _ 0 (redundancyByte payload 0))
    by (rewrite length_map, length_seq; lia).
  rewrite (map_nth (redundancyByte payload)).
  rewrite seq_nth by lia. unfold redundancyByte.
  rewrite land_0xFF. reflexivity.
Qed.

Lemma simpleRS_appendRedundancy_witness :
  Forall isByte [1; 2; 255] /\ 0 <= 4
  /\ simpleRS [1; 2; 255] 4 = [1; 2; 255; 252; 248; 248; 240].
Proof.
  assert (Hbytes : Forall isByte [1; 2; 255])
    by (repeat constructor; unfold isByte; lia).
  assert (Hn : 0 <= 4) by lia.
  split; [exact Hbytes | split; [exact Hn |]].
  exact (proj1 (simpleRS_appendRedundancy [1; 2; 255] 4 Hbytes Hn)).
Defined.

(** ** Redundancy validation *)

(** The integer form of the 80% test is the binary64 one, for every data
    length up to 200 and every count up to the length; [tryDecodeLinear]
    never passes more than 157 data bytes. *)
Lemma moreThan80Percent_double :
  forallb
    (fun dataLen =>
       forallb
         (fun count =>
            Bool.eqb (Decoder.moreThan80PercentDouble count dataLen)
                     (Decoder.moreThan80Percent count dataLen))
         (seqZ 0 (dataLen + 1)))
    (seqZ 0 201)
  = true.
Proof. vm_compute. reflexivity. Qed.

Section RsDecodeSimple.
Variables (codeword : list Z) (eccLen : Z).

Local Abbreviation dataLen := (Z.of_nat (length codeword) - eccLen).

Lemma rsDecodeSimple_no_data :
  dataLen <= 0 -> Decoder.rsDecodeSimple codeword eccLen = None.
Proof.
  intros Hlen. unfold Decoder.rsDecodeSimple. cbv zeta.
  destruct (Z.leb_spec dataLen 0); [reflexivity | lia].
Qed.

(** With data present, the outcome is decided by the two counts alone. *)
Lemma rsDecodeSimple_data :
  0 < dataLen ->
  Decoder.rsDecodeSimple codeword eccLen =
    if Decoder.moreThan80Percent (Decoder.countEq 0 (dataBytes codeword eccLen)) dataLen
       || Decoder.moreThan80Percent (Decoder.countEq 255 (dataBytes codeword eccLen)) dataLen
    then None
    else Some (dataBytes codeword eccLen).
Proof.
  intros Hlen. unfold Decoder.rsDecodeSimple. cbv zeta.
  destruct (Z.leb_spec dataLen 0); [lia |].
  destruct (Z.ltb_spec (Z.of_nat (length codeword)) eccLen); [lia |].
  cbn [orb]. rewrite slice_prefix by lia. reflexivity.
Qed.

Lemma moreThan80Percent_spec (count : Z) :
  Decoder.moreThan80Percent count dataLen = true <-> 4 * dataLen < 5 * count.
Proof. unfold Decoder.moreThan80Percent. apply Z.ltb_lt. Qed.

(** The three ways to be refused, and no other. *)
Lemma rsDecodeSimple_None_iff :
  Decoder.rsDecodeSimple codeword eccLen = None
  <-> dataLen <= 0
      \/ 4 * dataLen < 5 * Decoder.countEq 0 (dataBytes codeword eccLen)
      \/ 4 * dataLen < 5 * Decoder.countEq 255 (dataBytes codeword eccLen).
Proof.
  destruct (Z.le_gt_cases dataLen 0) as [Hno | Hdata].
  - rewrite rsDecodeSimple_no_data by assumption. tauto.
  - rewrite rsDecodeSimple_data by lia.
    rewrite <- !moreThan80Percent_spec.
    destruct (Decoder.moreThan80Percent (Decoder.countEq 0 _) _),
             (Decoder.moreThan80Percent (Decoder.countEq 255 _) _);
      cbn [orb]; split; intros H; try tauto; try discriminate;
      destruct H as [H | [H | H]]; try lia; discriminate.
Qed.

End RsDecodeSimple.

(** C3, as the code has it: a codeword in which strictly more than 80% of
    the data bytes equal 0, or strictly more than 80% equal 255, is refused;
    the two counts are taken separately, and exactly 80% is accepted. *)
Theorem rsDecodeSimple_rejects_mostly_blank (codeword : list Z) (eccLen : Z) :
  4 * (Z.of_nat (length codeword) - eccLen)
    < 5 * Decoder.countEq 0 (dataBytes codeword eccLen)
  \/ 4 * (Z.of_nat (length codeword) - eccLen)
    < 5 * Decoder.countEq 255 (dataBytes codeword eccLen) ->
  Decoder.rsDecodeSimple codeword eccLen = None.
Proof.
  intros Hblank. apply rsDecodeSimple_None_iff. tauto.
Qed.

Lemma rsDecodeSimple_rejects_mostly_blank_witness :
  (4 * (Z.of_nat (length [0; 0; 0; 0; 0; 7; 200; 201]) - 2)
     < 5 * Decoder.countEq 0 (dataBytes [0; 0; 0; 0; 0; 7; 200; 201] 2)
   \/ 4 * (Z.of_nat (length [0; 0; 0; 0; 0; 7; 200; 201]) - 2)
     < 5 * Decoder.countEq 255 (dataBytes [0; 0; 0; 0; 0; 7; 200; 201] 2))
  /\ Decoder.rsDecodeSimple [0; 0; 0; 0; 0; 7; 200; 201] 2 = None.
Proof.
  assert (H : 4 * (Z.of_nat (length [0; 0; 0; 0; 0; 7; 200; 201]) - 2)
     < 5 * Decoder.countEq 0 (dataBytes [0; 0; 0; 0; 0; 7; 200; 201] 2)
   \/ 4 * (Z.of_nat (length [0; 0; 0; 0; 0; 7; 200; 201]) - 2)
     < 5 * Decoder.countEq 255 (dataBytes [0; 0; 0; 0; 0; 7; 200; 201] 2))
    by (left; vm_compute; reflexivity).
  split; [exact H |].
  exact (rsDecodeSimple_rejects_mostly_blank [0; 0; 0; 0; 0; 7; 200; 201] 2 H).
Defined.

(** C3 as worded fails: with exactly 80% of the data bytes equal to 0 the
    codeword is accepted. *)
Lemma rsDecodeSimple_accepts_80_percent :
  4 * Z.of_nat (length (dataBytes [0; 0; 0; 0; 9; 77] 1))
    <= 5 * Decoder.countEq 0 (dataBytes [0; 0; 0; 0; 9; 77] 1)
  /\ Decoder.rsDecodeSimple [0; 0; 0; 0; 9; 77] 1 = Some [0; 0; 0; 0; 9].
Proof. split; vm_compute; [discriminate | reflexivity]. Qed.

(** Every data byte is 0 or 255, yet neither value alone passes 80%. *)
Example rsDecodeSimple_accepts_mixed_blank :
  Decoder.rsDecodeSimple [0; 0; 0; 255; 255; 77] 1 = Some [0; 0; 0; 255; 255].
Proof. reflexivity. Qed.

(** C6: the trailing [eccLen] bytes of a codeword play no part: two
    codewords of the same length with the same data bytes get the same
    answer from [rsDecodeSimple]. *)
Theorem rsDecodeSimple_ignores_redundancy (codeword1 codeword2 : list Z) (eccLen : Z) :
  length codeword1 = length codeword2 ->
  dataBytes codeword1 eccLen = dataBytes codeword2 eccLen ->
  Decoder.rsDecodeSimple codeword1 eccLen = Decoder.rsDecodeSimple codeword2 eccLen.
Proof.
  intros Hlen Hdata.
  destruct (Z.le_gt_cases (Z.of_nat (length codeword1) - eccLen) 0) as [Hno | Hsome].
  - rewrite !rsDecodeSimple_no_data by lia. reflexivity.
  - rewrite !rsDecodeSimple_data by lia.
    rewrite Hdata, Hlen. reflexivity.
Qed.

Lemma rsDecodeSimple_ignores_redundancy_witness :
  length [10; 20; 30; 1; 2] = length [10; 20; 30; 250; 251]
  /\ dataBytes [10; 20; 30; 1; 2] 2 = dataBytes [10; 20; 30; 250; 251] 2
  /\ Decoder.rsDecodeSimple [10; 20; 30; 1; 2] 2
     = Decoder.rsDecodeSimple [10; 20; 30; 250; 251] 2.
Proof.
  split; [reflexivity | split; [reflexivity |]].
  apply (rsDecodeSimple_ignores_redundancy [10; 20; 30; 1; 2] [10; 20; 30; 250; 251] 2);
    reflexivity.
Defined.

(** ** What [tryDecodeLinear] reads *)

Section StartPattern.

(** A slice that starts at or after position 32 sees nothing before it. *)
Lemma slice_after_start (l1 l2 : list Z) (s e : Z) :
  32 <= s ->
  length l1 = length l2 -> drop 32 l1 = drop 32 l2 ->
  slice l1 s e = slice l2 s e.
Proof.
  intros Hs Hlen Hdrop. unfold slice. rewrite Hlen.
  destruct (Z.ltb_spec s 0); [lia |].
  set (len := Z.of_nat (length l2)).
  set (fin := if e <? 0 then Z.max (len + e) 0 else Z.min e len).
  f_equal.
  destruct (Z.le_gt_cases 32 len) as [Hlong | Hshort].
  - replace (Z.to_nat (Z.min s len)) with (32 + (Z.to_nat (Z.min s len) - 32))%nat by lia.
    rewrite <- !drop_drop, Hdrop. reflexivity.
  - rewrite !drop_ge by lia. reflexivity.
Qed.

Lemma headerOf_after_start (l1 l2 : list Z) :
  length l1 = length l2 -> drop 32 l1 = drop 32 l2 ->
  Decoder.headerOf l1 = Decoder.headerOf l2.
Proof.
  intros Hlen Hdrop. unfold Decoder.headerOf. cbv zeta. f_equal.
  apply slice_after_start; [reflexivity | assumption | assumption].
Qed.

End StartPattern.

(** C8: the first 32 bits are never looked at: two bit sequences of the
    same length that agree from position 32 on are decoded alike. *)
Theorem tryDecodeLinear_ignores_start_pattern (linear1 linear2 : list Z) :
  length linear1 = length linear2 ->
  drop 32 linear1 = drop 32 linear2 ->
  Decoder.tryDecodeLinear linear1 = Decoder.tryDecodeLinear linear2.
Proof.
  intros Hlen Hdrop. unfold Decoder.tryDecodeLinear. cbv zeta.
  rewrite (headerOf_after_start linear1 linear2) by assumption.
  rewrite Hlen.
  set (needBits := (Z.lor _ _ + Z.lor _ _) * 8).
  rewrite (slice_after_start linear1 linear2
             (Z.of_nat (length Decoder.START_PATTERN_BITS) + Decoder.HEADER_BITS)
             (Z.of_nat (length Decoder.START_PATTERN_BITS) + Decoder.HEADER_BITS + needBits))
    by (assumption || (vm_compute; discriminate)).
  reflexivity.
Qed.

Lemma tryDecodeLinear_ignores_start_pattern_witness :
  length (frameBits hello 2) = length (replicate 32 0 ++ drop 32 (frameBits hello 2))
  /\ drop 32 (frameBits hello 2) = drop 32 (replicate 32 0 ++ drop 32 (frameBits hello 2))
  /\ Decoder.tryDecodeLinear (frameBits hello 2)
     = Decoder.tryDecodeLinear (replicate 32 0 ++ drop 32 (frameBits hello 2)).
Proof.
  assert (Hlen : length (frameBits hello 2)
                 = length (replicate 32 0 ++ drop 32 (frameBits hello 2)))
    by (vm_compute; reflexivity).
  assert (Hdrop : drop 32 (frameBits hello 2)
                  = drop 32 (replicate 32 0 ++ drop 32 (frameBits hello 2)))
    by reflexivity.
  split; [exact Hlen | split; [exact Hdrop |]].
  exact (tryDecodeLinear_ignores_start_pattern _ _ Hlen Hdrop).
Defined.

(** With the start pattern blanked, the text is still read. *)
Example tryDecodeLinear_blank_start_pattern :
  Decoder.tryDecodeLinear (replicate 32 0 ++ drop 32 (frameBits hello 2)) = Some hello.
Proof. vm_compute. reflexivity. Qed.

(** ** Bits and bytes *)

Section BitsBytes.

Lemma bitAt_app (pre rest : list Z) (p : nat) :
  bitAt (pre ++ rest) (length pre + p) = bitAt rest p.
Proof.
  unfold bitAt. rewrite length_app, app_nth2_plus.
  destruct (Nat.ltb_spec (length pre + p) (length pre + length rest)),
           (Nat.ltb_spec p (length rest)); (reflexivity || lia).
Qed.

Lemma bitAt_app_l (pre rest : list Z) (p : nat) :
  (p < length pre)%nat -> bitAt (pre ++ rest) p = bitAt pre p.
Proof.
  intros Hp. unfold bitAt. rewrite length_app, app_nth1 by assumption.
  destruct (Nat.ltb_spec p (length pre + length rest)),
           (Nat.ltb_spec p (length pre)); (reflexivity || lia).
Qed.

(** A byte of [bitsToBytes] is fixed by the eight bits it is made of. *)
Lemma byteAt_ext (l1 l2 : list Z) (i1 i2 : nat) :
  (forall j : nat, (j < 8)%nat -> bitAt l1 (i1 + j) = bitAt l2 (i2 + j)) ->
  Decoder.byteAt l1 i1 = Decoder.byteAt l2 i2.
Proof.
  intros Hbits. unfold Decoder.byteAt. cbn [seq fold_left].
  fold (bitAt l1 (i1 + 0)) (bitAt l1 (i1 + 1)) (bitAt l1 (i1 + 2)) (bitAt l1 (i1 + 3))
       (bitAt l1 (i1 + 4)) (bitAt l1 (i1 + 5)) (bitAt l1 (i1 + 6)) (bitAt l1 (i1 + 7)).
  fold (bitAt l2 (i2 + 0)) (bitAt l2 (i2 + 1)) (bitAt l2 (i2 + 2)) (bitAt l2 (i2 + 3))
       (bitAt l2 (i2 + 4)) (bitAt l2 (i2 + 5)) (bitAt l2 (i2 + 6)) (bitAt l2 (i2 + 7)).
  rewrite !Hbits by lia. reflexivity.
Qed.

(** The value of a byte made of bits: the most significant comes first. *)
Lemma byteAt_value (l : list Z) (i : nat) :
  (forall j : nat, (j < 8)%nat -> isBit (bitAt l (i + j))) ->
  Decoder.byteAt l i
  = 128 * bitAt l (i + 0) + 64 * bitAt l (i + 1) + 32 * bitAt l (i + 2)
    + 16 * bitAt l (i + 3) + 8 * bitAt l (i + 4) + 4 * bitAt l (i + 5)
    + 2 * bitAt l (i + 6) + bitAt l (i + 7).
Proof.
  intros Hbits. unfold Decoder.byteAt. cbn [seq fold_left].
  fold (bitAt l (i + 0)) (bitAt l (i + 1)) (bitAt l (i + 2)) (bitAt l (i + 3))
       (bitAt l (i + 4)) (bitAt l (i + 5)) (bitAt l (i + 6)) (bitAt l (i + 7)).
  assert (Hstep : forall b x, isBit x -> Z.lor (Z.shiftl b 1) x = 2 * b + x).
  { intros b x [-> | ->]; rewrite (lor_shiftl_add b _ 1); lia. }
  rewrite !Hstep by (apply Hbits; lia). lia.
Qed.

Lemma byteAt_isByte (l : list Z) (i : nat) :
  (forall j : nat, (j < 8)%nat -> isBit (bitAt l (i + j))) ->
  isByte (Decoder.byteAt l i).
Proof.
  intros Hbits. rewrite byteAt_value by assumption.
  pose proof (Hbits 0%nat) as H0. pose proof (Hbits 1%nat) as H1.
  pose proof (Hbits 2%nat) as H2. pose proof (Hbits 3%nat) as H3.
  pose proof (Hbits 4%nat) as H4. pose proof (Hbits 5%nat) as H5.
  pose proof (Hbits 6%nat) as H6. pose proof (Hbits 7%nat) as H7.
  unfold isBit, isByte in *. lia.
Qed.

Lemma bitAt_isBit (l : list Z) (p : nat) : Forall isBit l -> isBit (bitAt l p).
Proof.
  intros Hl. unfold bitAt.
  destruct (Nat.ltb_spec p (length l)) as [Hp | Hp]; [| left; reflexivity].
  rewrite Forall_forall in Hl. apply Hl. apply list_elem_of_In, nth_In. exact Hp.
Qed.

End BitsBytes.

(** ** Reading bytes back from a bit sequence *)

Section ReadBack.

Lemma bytesToBits_cons (b : Z) (bytes : list Z) :
  bytesToBits (b :: bytes)
  = [Z.land (Z.shiftr b 7) 1; Z.land (Z.shiftr b 6) 1; Z.land (Z.shiftr b 5) 1;
     Z.land (Z.shiftr b 4) 1; Z.land (Z.shiftr b 3) 1; Z.land (Z.shiftr b 2) 1;
     Z.land (Z.shiftr b 1) 1; Z.land (Z.shiftr b 0) 1] ++ bytesToBits bytes.
Proof. reflexivity. Qed.

Lemma length_bytesToBits (bytes : list Z) :
  length (bytesToBits bytes) = (8 * length bytes)%nat.
Proof.
  induction bytes as [| b bytes IH]; [reflexivity |].
  rewrite bytesToBits_cons, length_app, IH. cbn [length]. lia.
Qed.

Lemma bytesToBits_app (bytes1 bytes2 : list Z) :
  bytesToBits (bytes1 ++ bytes2) = bytesToBits bytes1 ++ bytesToBits bytes2.
Proof. unfold bytesToBits. apply flat_map_app. Qed.

Lemma land_1_isBit (x : Z) : isBit (Z.land x 1).
Proof.
  rewrite land_1. unfold isBit.
  pose proof (Z.mod_pos_bound x 2). lia.
Qed.

Lemma bytesToBits_isBit (bytes : list Z) : Forall isBit (bytesToBits bytes).
Proof.
  induction bytes as [| b bytes IH]; [constructor |].
  rewrite bytesToBits_cons.
  repeat (apply Forall_cons; split; [apply land_1_isBit |]). exact IH.
Qed.

(** The eight bits of a byte, put together again. *)
Lemma byte_of_its_bits (b : Z) :
  isByte b ->
  128 * Z.land (Z.shiftr b 7) 1 + 64 * Z.land (Z.shiftr b 6) 1
  + 32 * Z.land (Z.shiftr b 5) 1 + 16 * Z.land (Z.shiftr b 4) 1
  + 8 * Z.land (Z.shiftr b 3) 1 + 4 * Z.land (Z.shiftr b 2) 1
  + 2 * Z.land (Z.shiftr b 1) 1 + Z.land (Z.shiftr b 0) 1 = b.
Proof.
  unfold isByte. intros Hb.
  rewrite !land_1, !Z.shiftr_div_pow2 by lia.
  change (2 ^ 7) with 128. change (2 ^ 6) with 64. change (2 ^ 5) with 32.
  change (2 ^ 4) with 16. change (2 ^ 3) with 8. change (2 ^ 2) with 4.
  change (2 ^ 1) with 2. change (2 ^ 0) with 1.
  Z.div_mod_to_equations. lia.
Qed.

(** In a sequence that holds the bits of [bytes] from position
    [length pre] on, byte [k] is read back at position [length pre + 8 k]. *)
Lemma byteAt_bytesToBits (pre post bytes : list Z) :
  Forall isByte bytes ->
  forall k : nat,
    (k < length bytes)%nat ->
    Decoder.byteAt (pre ++ bytesToBits bytes ++ post) (length pre + 8 * k)
    = nth k bytes 0.
Proof.
  intros Hbytes k Hk.
  transitivity (Decoder.byteAt (bytesToBits bytes ++ post) (8 * k)).
  { apply byteAt_ext. intros j _.
    rewrite <- Nat.add_assoc. apply bitAt_app. }
  revert k Hk. induction Hbytes as [| b bytes Hb _ IH]; intros k Hk.
  { cbn [length] in Hk. lia. }
  destruct k as [| k].
  - transitivity (Decoder.byteAt (bytesToBits [b]) 0).
    { rewrite bytesToBits_cons, <- app_assoc. apply byteAt_ext. intros j Hj.
      change (8 * 0 + j)%nat with j. change (0 + j)%nat with j.
      apply bitAt_app_l. exact Hj. }
    rewrite byteAt_value by (intros j _; apply bitAt_isBit, bytesToBits_isBit).
    apply byte_of_its_bits. exact Hb.
  - cbn [nth length] in *. rewrite <- IH by lia.
    rewrite bytesToBits_cons, <- app_assoc.
    apply byteAt_ext. intros j _.
    replace (8 * S k + j)%nat with (8 + (8 * k + j))%nat by lia.
    apply (bitAt_app [_; _; _; _; _; _; _; _]).
Qed.

End ReadBack.

Section ReadSlices.

Lemma bitAt_slice (linear : list Z) (s m p : nat) :
  (s + m <= length linear)%nat -> (p < m)%nat ->
  bitAt (slice linear (Z.of_nat s) (Z.of_nat s + Z.of_nat m)) p = bitAt linear (s + p).
Proof.
  intros Hlen Hp. rewrite slice_take_drop by lia.
  replace (Z.to_nat (Z.of_nat s + Z.of_nat m - Z.of_nat s)) with m by lia.
  rewrite Nat2Z.id. unfold bitAt.
  rewrite length_take, length_drop.
  destruct (Nat.ltb_spec p (Nat.min m (length linear - s))); [| lia].
  destruct (Nat.ltb_spec (s + p) (length linear)); [| lia].
  rewrite nth_firstn.
  destruct (Nat.ltb_spec p m); [| lia].
  apply nth_skipn.
Qed.

(** The bytes [bitsToBytes] makes of [n] bytes' worth of bits cut out at
    position [s]. *)
Lemma bitsToBytes_slice (linear : list Z) (s n : nat) :
  (s + 8 * n <= length linear)%nat ->
  Decoder.bitsToBytes (slice linear (Z.of_nat s) (Z.of_nat s + Z.of_nat (8 * n)))
  = map (fun k => toUint8 (Decoder.byteAt linear (s + 8 * k))) (seq 0 n).
Proof.
  intros Hlen. unfold Decoder.bitsToBytes.
  assert (Hcut : length (slice linear (Z.of_nat s) (Z.of_nat s + Z.of_nat (8 * n)))
                 = (8 * n)%nat).
  { pose proof (length_slice linear (Z.of_nat s) (Z.of_nat s + Z.of_nat (8 * n))). lia. }
  rewrite Hcut.
  replace ((8 * n + 7) / 8)%nat with n
    by (apply Nat.div_unique with (r := 7%nat); lia).
  apply map_ext_in. intros k Hk. apply in_seq in Hk. f_equal.
  apply byteAt_ext. intros j Hj.
  rewrite bitAt_slice by lia. f_equal. lia.
Qed.

Lemma map_nth_seq (l : list Z) (m : nat) :
  (m <= length l)%nat -> map (fun k => nth k l 0) (seq 0 m) = take m l.
Proof.
  revert m. induction l as [| x l IH]; intros m Hm.
  - cbn [length] in Hm. replace m with 0%nat by lia. reflexivity.
  - destruct m as [| m]; [reflexivity |].
    cbn [seq map nth take]. f_equal.
    rewrite <- seq_shift, map_map. cbn [nth]. apply IH.
    cbn [length] in Hm. lia.
Qed.

(** Bytes written at position [length pre] are read back as they were. *)
Lemma bitsToBytes_read_back (pre post bytes : list Z) (n : nat) :
  Forall isByte bytes -> (n <= length bytes)%nat ->
  Decoder.bitsToBytes
    (slice (pre ++ bytesToBits bytes ++ post)
           (Z.of_nat (length pre)) (Z.of_nat (length pre) + Z.of_nat (8 * n)))
  = take n bytes.
Proof.
  intros Hbytes Hn.
  rewrite bitsToBytes_slice
    by (rewrite !length_app, length_bytesToBits; lia).
  rewrite <- map_nth_seq by assumption.
  apply map_ext_in. intros k Hk. apply in_seq in Hk.
  rewrite byteAt_bytesToBits by (assumption || lia).
  apply toUint8_byte.
  rewrite Forall_forall in Hbytes. apply Hbytes, list_elem_of_In, nth_In. lia.
Qed.

End ReadSlices.

(** ** The frame [encodeText] builds *)

Section Frame.
Variables (text : jsString) (eccLevel : Z).

Local Abbreviation textBytes := (TextEncoder_encode text).
Local Abbreviation eccBytes := (eccBytesOf eccLevel).
Local Abbreviation textLength := (Z.of_nat (length textBytes)).

Lemma header_eq (n level ecc : Z) :
  header n level ecc
  = [3; toUint8 level;
     toUint8 (Z.land (Z.shiftr n 8) 0xFF); toUint8 (Z.land n 0xFF);
     toUint8 (Z.land (Z.shiftr ecc 8) 0xFF); toUint8 (Z.land ecc 0xFF);
     toUint8 (checksum8
                [3; toUint8 level;
                 toUint8 (Z.land (Z.shiftr n 8) 0xFF); toUint8 (Z.land n 0xFF);
                 toUint8 (Z.land (Z.shiftr ecc 8) 0xFF); toUint8 (Z.land ecc 0xFF)])].
Proof. reflexivity. Qed.

Lemma header_isByte (n level ecc : Z) : Forall isByte (header n level ecc).
Proof.
  rewrite header_eq.
  repeat (apply Forall_cons; split;
          [first [apply toUint8_isByte | unfold isByte; lia] |]).
  constructor.
Qed.

Lemma length_header (n level ecc : Z) : length (header n level ecc) = 7%nat.
Proof. rewrite header_eq. reflexivity. Qed.

Lemma eccBytes_pos : 0 < eccBytes <= 64.
Proof. destruct (eccBytesOf_cases eccLevel) as [-> | [-> | [-> | ->]]]; lia. Qed.

Lemma payload_isByte (m : Z) (src : list Z) : Forall isByte (u8set (u8new m) src).
Proof.
  unfold u8set, u8new. apply Forall_inserts.
  - apply Forall_replicate. unfold isByte. lia.
  - apply Forall_map, Forall_forall. intros b _. apply toUint8_isByte.
Qed.

Lemma length_payload (m : Z) (src : list Z) :
  length (u8set (u8new m) src) = Z.to_nat m.
Proof. unfold u8set, u8new. rewrite length_inserts. apply length_replicate. Qed.

Lemma length_simpleRS (data : list Z) (ecc : Z) :
  Forall isByte data -> 0 <= ecc ->
  length (simpleRS data ecc) = (length data + Z.to_nat ecc)%nat.
Proof.
  intros Hdata Hecc. rewrite simpleRS_eq by assumption.
  unfold appendRedundancy. rewrite length_app, length_map, length_seq. reflexivity.
Qed.

(** The codeword always fills the data capacity, 157 bytes. *)
Lemma length_encoded :
  length (simpleRS (u8set (u8new (maxPayloadBytes eccLevel)) textBytes) eccBytes)
  = 157%nat.
Proof.
  pose proof eccBytes_pos as Hecc.
  rewrite length_simpleRS by (apply payload_isByte || lia).
  rewrite length_payload, maxPayloadBytes_eq. lia.
Qed.

Lemma length_frameBits : length (frameBits text eccLevel) = 1344%nat.
Proof.
  unfold frameBits.
  rewrite !length_app, !length_bytesToBits, length_header, length_encoded.
  reflexivity.
Qed.

Lemma paddedBits_frameBits : paddedBits text eccLevel = frameBits text eccLevel.
Proof.
  unfold paddedBits. rewrite length_frameBits. cbn [replicate].
  change (Z.to_nat (capacityBits - Z.of_nat 1344)) with 0%nat.
  apply app_nil_r.
Qed.

(** An accepted text gives exactly the frame: nothing is padded or cut. *)
Lemma encodeText_frameBits (bits : list Z) :
  encodeText text eccLevel = inr bits ->
  textLength <= maxPayloadBytes eccLevel /\ bits = frameBits text eccLevel.
Proof.
  intros Henc. apply encodeText_accepted in Henc as [Hfits ->].
  split; [exact Hfits |].
  rewrite paddedBits_frameBits. apply slice_all.
  rewrite length_frameBits. vm_compute. discriminate.
Qed.

Lemma frameBits_isBit : Forall isBit (frameBits text eccLevel).
Proof.
  unfold frameBits. rewrite !Forall_app. repeat split.
  - unfold START_PATTERN_BITS. cbn.
    repeat (apply Forall_cons; split; [unfold isBit; lia |]). constructor.
  - apply bytesToBits_isBit.
  - apply bytesToBits_isBit.
Qed.

(** The decoder reads the header the encoder wrote. *)
Lemma headerOf_frameBits :
  Decoder.headerOf (frameBits text eccLevel) = header textLength eccLevel eccBytes.
Proof.
  unfold Decoder.headerOf, frameBits. cbv zeta.
  change (Z.of_nat (length Decoder.START_PATTERN_BITS))
    with (Z.of_nat (length START_PATTERN_BITS)).
  change Decoder.HEADER_BITS with (Z.of_nat (8 * 7)).
  rewrite bitsToBytes_read_back.
  - apply take_ge. rewrite length_header. lia.
  - apply header_isByte.
  - rewrite length_header. lia.
Qed.

End Frame.

(** ** Flipping a header bit *)

Section FlipBit.

Lemma length_flipBit (p : nat) (l : list Z) : length (flipBit p l) = length l.
Proof. unfold flipBit. apply length_insert. Qed.

Lemma bitAt_flipBit (p q : nat) (l : list Z) :
  bitAt (flipBit p l) q
  = if (q =? p)%nat && (p <? length l)%nat then 1 - bitAt l p else bitAt l q.
Proof.
  unfold bitAt. rewrite length_flipBit. unfold flipBit.
  rewrite !nth_lookup.
  destruct (Nat.eqb_spec q p) as [-> | Hne]; cbn [andb].
  - destruct (Nat.ltb_spec p (length l)) as [Hp | Hp]; [| reflexivity].
    rewrite list_lookup_insert_eq by assumption. reflexivity.
  - rewrite list_lookup_insert_ne by congruence. reflexivity.
Qed.

Lemma flipBit_isBit (p : nat) (l : list Z) : Forall isBit l -> Forall isBit (flipBit p l).
Proof.
  intros Hl. unfold flipBit.
  destruct (Nat.lt_ge_cases p (length l)) as [Hp | Hp].
  - apply Forall_insert; [exact Hl |].
    pose proof (bitAt_isBit l p Hl) as Hbit. unfold bitAt in Hbit.
    destruct (Nat.ltb_spec p (length l)); [| lia].
    unfold isBit in *. lia.
  - rewrite list_insert_ge by lia. exact Hl.
Qed.

(** A byte that does not hold the flipped bit keeps its value. *)
Lemma byteAt_flipBit_outside (p i : nat) (l : list Z) :
  (p < i \/ i + 8 <= p)%nat ->
  Decoder.byteAt (flipBit p l) i = Decoder.byteAt l i.
Proof.
  intros Hout. apply byteAt_ext. intros j Hj.
  rewrite bitAt_flipBit.
  destruct (Nat.eqb_spec (i + j) p); [lia | reflexivity].
Qed.

(** The byte that holds the flipped bit changes. *)
Lemma byteAt_flipBit_inside (p i : nat) (l : list Z) :
  Forall isBit l -> (p < length l)%nat -> (i <= p < i + 8)%nat ->
  Decoder.byteAt (flipBit p l) i <> Decoder.byteAt l i.
Proof.
  intros Hl Hp Hin.
  rewrite !byteAt_value
    by (intros j _; apply bitAt_isBit; try apply flipBit_isBit; exact Hl).
  rewrite !bitAt_flipBit.
  destruct (Nat.ltb_spec p (length l)); [| lia].
  pose proof (bitAt_isBit l p Hl) as Hbit.
  assert (Hcase : p = (i + 0)%nat \/ p = (i + 1)%nat \/ p = (i + 2)%nat
                  \/ p = (i + 3)%nat \/ p = (i + 4)%nat \/ p = (i + 5)%nat
                  \/ p = (i + 6)%nat \/ p = (i + 7)%nat) by lia.
  repeat match goal with
         | |- context [Nat.eqb ?a ?b] => destruct (Nat.eqb_spec a b)
         end;
    cbn [andb]; unfold isBit in Hbit; try lia;
    repeat match goal with H : (_ + _)%nat = p |- _ => rewrite H in * end; lia.
Qed.

Lemma sum_mod_changes (a a' rest c : Z) :
  isByte a -> isByte a' -> a <> a' ->
  (a + rest) mod 256 = c -> (a' + rest) mod 256 <> c.
Proof.
  unfold isByte. intros Ha Ha' Hne Hsum Hsum'.
  Z.div_mod_to_equations. lia.
Qed.

End FlipBit.

Section HeaderBytes.
Variable linear : list Z.
Hypothesis Hlong : (88 <= length linear)%nat.

(** The seven header bytes as [tryDecodeLinear] reads them. *)
Lemma headerOf_bytes :
  Decoder.headerOf linear
  = map (fun k => toUint8 (Decoder.byteAt linear (32 + 8 * k))) (seq 0 7).
Proof.
  unfold Decoder.headerOf. cbv zeta.
  change (Z.of_nat (length Decoder.START_PATTERN_BITS)) with (Z.of_nat 32).
  change Decoder.HEADER_BITS with (Z.of_nat (8 * 7)).
  apply bitsToBytes_slice. lia.
Qed.

Lemma length_headerOf : length (Decoder.headerOf linear) = 7%nat.
Proof. rewrite headerOf_bytes. reflexivity. Qed.

(** A header whose checksum byte disagrees is refused. *)
Lemma tryDecodeLinear_checksum_mismatch :
  Decoder.checksum8 (slice (Decoder.headerOf linear) 0 6)
    <> nth 6 (Decoder.headerOf linear) 0 ->
  Decoder.tryDecodeLinear linear = None.
Proof.
  intros Hsum. unfold Decoder.tryDecodeLinear. cbv zeta.
  change (Z.of_nat (length Decoder.START_PATTERN_BITS) + Decoder.HEADER_BITS) with 88.
  destruct (Z.ltb_spec (Z.of_nat (length linear)) 88); [reflexivity |].
  rewrite length_headerOf. cbn [Z.of_nat Z.eqb negb Pos.of_succ_nat Pos.succ Pos.eqb].
  destruct (Z.eqb_spec (Decoder.checksum8 (slice (Decoder.headerOf linear) 0 6))
              (nth 6 (Decoder.headerOf linear) 0)); [contradiction | reflexivity].
Qed.

End HeaderBytes.

Section HeaderFlip.
Variables (linear : list Z) (p : nat).
Hypothesis Hbits : Forall isBit linear.
Hypothesis Hlong : (88 <= length linear)%nat.
Hypothesis Hp : (32 <= p < 80)%nat.

Local Abbreviation B l k := (Decoder.byteAt l (32 + 8 * k%nat)%nat).

Lemma header_byte_isByte (l : list Z) (k : nat) :
  Forall isBit l -> isByte (Decoder.byteAt l (32 + 8 * k)).
Proof. intros Hl. apply byteAt_isByte. intros j _. apply bitAt_isBit, Hl. Qed.

(** Checksum and stored byte in terms of the seven bytes. *)
Lemma header_checksum (l : list Z) :
  Forall isBit l -> (88 <= length l)%nat ->
  Decoder.checksum8 (slice (Decoder.headerOf l) 0 6)
    = (B l 0 + B l 1 + B l 2 + B l 3 + B l 4 + B l 5) mod 256
  /\ nth 6 (Decoder.headerOf l) 0 = B l 6.
Proof.
  intros Hl Hlen. rewrite headerOf_bytes by assumption.
  rewrite slice_prefix by lia.
  cbn [seq map take Z.to_nat Pos.to_nat Pos.iter_op Nat.add nth].
  rewrite !toUint8_byte by (apply header_byte_isByte, Hl).
  split; [| reflexivity].
  unfold Decoder.checksum8. cbn [fold_left]. rewrite land_0xFF.
  f_equal; lia.
Qed.

(** Flipping one bit of the first six header bytes breaks the checksum. *)
Lemma flipped_header_checksum :
  Decoder.checksum8 (slice (Decoder.headerOf linear) 0 6)
    = nth 6 (Decoder.headerOf linear) 0 ->
  Decoder.checksum8 (slice (Decoder.headerOf (flipBit p linear)) 0 6)
    <> nth 6 (Decoder.headerOf (flipBit p linear)) 0.
Proof.
  pose proof (flipBit_isBit p linear Hbits) as Hbits'.
  pose proof (length_flipBit p linear) as Hlen'.
  destruct (header_checksum linear Hbits Hlong) as [-> ->].
  destruct (header_checksum (flipBit p linear) Hbits' ltac:(lia)) as [-> ->].
  rewrite (byteAt_flipBit_outside p (32 + 8 * 6)) by lia.
  pose proof (fun k => header_byte_isByte linear k Hbits) as Hbyte.
  pose proof (fun k => header_byte_isByte (flipBit p linear) k Hbits') as Hbyte'.
  assert (Hcase : (32 + 8 * 0 <= p < 32 + 8 * 0 + 8 \/ 32 + 8 * 1 <= p < 32 + 8 * 1 + 8
                   \/ 32 + 8 * 2 <= p < 32 + 8 * 2 + 8 \/ 32 + 8 * 3 <= p < 32 + 8 * 3 + 8
                   \/ 32 + 8 * 4 <= p < 32 + 8 * 4 + 8
                   \/ 32 + 8 * 5 <= p < 32 + 8 * 5 + 8)%nat) by lia.
  intros Hsum.
  destruct Hcase as [Hin | [Hin | [Hin | [Hin | [Hin | Hin]]]]];
    pose proof (byteAt_flipBit_inside p _ linear Hbits ltac:(lia) Hin) as Hchanged;
    [ rewrite (byteAt_flipBit_outside p (32 + 8 * 1)),
              (byteAt_flipBit_outside p (32 + 8 * 2)),
              (byteAt_flipBit_outside p (32 + 8 * 3)),
              (byteAt_flipBit_outside p (32 + 8 * 4)),
              (byteAt_flipBit_outside p (32 + 8 * 5)) by lia
    | rewrite (byteAt_flipBit_outside p (32 + 8 * 0)),
              (byteAt_flipBit_outside p (32 + 8 * 2)),
              (byteAt_flipBit_outside p (32 + 8 * 3)),
              (byteAt_flipBit_outside p (32 + 8 * 4)),
              (byteAt_flipBit_outside p (32 + 8 * 5)) by lia
    | rewrite (byteAt_flipBit_outside p (32 + 8 * 0)),
              (byteAt_flipBit_outside p (32 + 8 * 1)),
              (byteAt_flipBit_outside p (32 + 8 * 3)),
              (byteAt_flipBit_outside p (32 + 8 * 4)),
              (byteAt_flipBit_outside p (32 + 8 * 5)) by lia
    | rewrite (byteAt_flipBit_outside p (32 + 8 * 0)),
              (byteAt_flipBit_outside p (32 + 8 * 1)),
              (byteAt_flipBit_outside p (32 + 8 * 2)),
              (byteAt_flipBit_outside p (32 + 8 * 4)),
              (byteAt_flipBit_outside p (32 + 8 * 5)) by lia
    | rewrite (byteAt_flipBit_outside p (32 + 8 * 0)),
              (byteAt_flipBit_outside p (32 + 8 * 1)),
              (byteAt_flipBit_outside p (32 + 8 * 2)),
              (byteAt_flipBit_outside p (32 + 8 * 3)),
              (byteAt_flipBit_outside p (32 + 8 * 5)) by lia
    | rewrite (byteAt_flipBit_outside p (32 + 8 * 0)),
              (byteAt_flipBit_outside p (32 + 8 * 1)),
              (byteAt_flipBit_outside p (32 + 8 * 2)),
              (byteAt_flipBit_outside p (32 + 8 * 3)),
              (byteAt_flipBit_outside p (32 + 8 * 4)) by lia ];
    intros Hsum';
    pose proof (Hbyte 0%nat); pose proof (Hbyte 1%nat); pose proof (Hbyte 2%nat);
    pose proof (Hbyte 3%nat); pose proof (Hbyte 4%nat); pose proof (Hbyte 5%nat);
    pose proof (Hbyte' 0%nat); pose proof (Hbyte' 1%nat); pose proof (Hbyte' 2%nat);
    pose proof (Hbyte' 3%nat); pose proof (Hbyte' 4%nat); pose proof (Hbyte' 5%nat);
    unfold isByte in *; Z.div_mod_to_equations; lia.
Qed.

End HeaderFlip.

(** The header [encodeText] writes carries the checksum the decoder
    recomputes. *)
Lemma frameBits_checksum (text : jsString) (eccLevel : Z) :
  Decoder.checksum8 (slice (Decoder.headerOf (frameBits text eccLevel)) 0 6)
  = nth 6 (Decoder.headerOf (frameBits text eccLevel)) 0.
Proof.
  rewrite headerOf_frameBits, header_eq.
  rewrite slice_prefix by lia.
  cbn [take Z.to_nat Pos.to_nat Pos.iter_op Nat.add nth].
  unfold Decoder.checksum8, checksum8.
  symmetry. apply toUint8_byte.
  rewrite land_0xFF. apply toUint8_isByte.
Qed.

(** C4: in the bits of an accepted text, inverting any one bit of the
    first six header bytes (positions 32 to 79) makes the recomputed header
    checksum differ from the stored checksum byte, and [tryDecodeLinear]
    returns nothing. *)
Theorem header_bit_flip_rejected
    (text : jsString) (eccLevel : Z) (bits : list Z) (p : nat) :
  encodeText text eccLevel = inr bits ->
  (32 <= p < 32 + 6 * 8)%nat ->
  Decoder.checksum8 (slice (Decoder.headerOf (flipBit p bits)) 0 6)
    <> nth 6 (Decoder.headerOf (flipBit p bits)) 0
  /\ Decoder.tryDecodeLinear (flipBit p bits) = None.
Proof.
  intros Henc Hp. apply encodeText_frameBits in Henc as [_ ->].
  pose proof (length_frameBits text eccLevel) as Hlen.
  assert (Hsum :
    Decoder.checksum8 (slice (Decoder.headerOf (flipBit p (frameBits text eccLevel))) 0 6)
    <> nth 6 (Decoder.headerOf (flipBit p (frameBits text eccLevel))) 0).
  { apply flipped_header_checksum.
    - apply frameBits_isBit.
    - lia.
    - lia.
    - apply frameBits_checksum. }
  split; [exact Hsum |].
  apply tryDecodeLinear_checksum_mismatch; [| exact Hsum].
  rewrite length_flipBit. lia.
Qed.

(** ** UTF-8: what is encoded is decoded *)

Section Utf8.

Lemma utf8EncodeCp_1 (c : Z) : c <= 0x7F -> utf8EncodeCp c = [c].
Proof.
  intros Hc. unfold utf8EncodeCp.
  destruct (Z.leb_spec c 0x7F); [reflexivity | lia].
Qed.

Lemma utf8EncodeCp_2 (c : Z) :
  0x7F < c <= 0x7FF -> utf8EncodeCp c = [192 + c / 64; 128 + c mod 64].
Proof.
  intros Hc. unfold utf8EncodeCp.
  destruct (Z.leb_spec c 0x7F); [lia |].
  destruct (Z.leb_spec c 0x7FF); [| lia].
  rewrite land_0x3F, lor_0x80 by (apply Z.mod_pos_bound; lia).
  rewrite Z.shiftr_div_pow2 by lia. change (2 ^ 6) with 64.
  f_equal. lia.
Qed.

Lemma utf8EncodeCp_3 (c : Z) :
  0x7FF < c <= 0xFFFF ->
  utf8EncodeCp c = [224 + c / 4096; 128 + (c / 64) mod 64; 128 + c mod 64].
Proof.
  intros Hc. unfold utf8EncodeCp.
  destruct (Z.leb_spec c 0x7F); [lia |].
  destruct (Z.leb_spec c 0x7FF); [lia |].
  destruct (Z.leb_spec c 0xFFFF); [| lia].
  rewrite !land_0x3F, !lor_0x80 by (apply Z.mod_pos_bound; lia).
  rewrite !Z.shiftr_div_pow2 by lia. change (2 ^ 6) with 64. change (2 ^ 12) with 4096.
  f_equal. lia.
Qed.

Lemma utf8EncodeCp_4 (c : Z) :
  0xFFFF < c ->
  utf8EncodeCp c
  = [240 + c / 262144; 128 + (c / 4096) mod 64; 128 + (c / 64) mod 64; 128 + c mod 64].
Proof.
  intros Hc. unfold utf8EncodeCp.
  destruct (Z.leb_spec c 0x7F); [lia |].
  destruct (Z.leb_spec c 0x7FF); [lia |].
  destruct (Z.leb_spec c 0xFFFF); [lia |].
  rewrite !land_0x3F, !lor_0x80 by (apply Z.mod_pos_bound; lia).
  rewrite !Z.shiftr_div_pow2 by lia.
  change (2 ^ 6) with 64. change (2 ^ 12) with 4096. change (2 ^ 18) with 262144.
  f_equal. lia.
Qed.

Lemma utf8Step_init (b : Z) : utf8Step utf8Init b = utf8Start b.
Proof. reflexivity. Qed.

Lemma utf8Start_ascii (b : Z) : b <= 0x7F -> utf8Start b = ([b], utf8Init).
Proof.
  intros Hb. unfold utf8Start.
  destruct (Z.leb_spec b 0x7F); [reflexivity | lia].
Qed.

Lemma land_low (b base k mask : Z) :
  0 <= k -> mask = 2 ^ k - 1 -> base mod 2 ^ k = 0 -> base <= b <= base + mask ->
  Z.land b mask = b - base.
Proof.
  intros Hk -> Hbase Hb. rewrite land_mask by assumption.
  assert (Hpow : 0 < 2 ^ k) by (apply Z.pow_pos_nonneg; lia).
  replace b with ((b - base) + base) at 1 by lia.
  rewrite Z.add_mod, Hbase, Z.add_0_r, Z.mod_mod by lia.
  apply Z.mod_small. lia.
Qed.

Lemma utf8Start_lead2 (b : Z) :
  0xC2 <= b <= 0xDF ->
  utf8Start b
  = ([], {| cp := b - 192; seen := 0; needed := 1; lower := 0x80; upper := 0xBF |}).
Proof.
  intros Hb. unfold utf8Start.
  destruct (Z.leb_spec b 0x7F); [lia |].
  destruct (Z.leb_spec 0xC2 b); [| lia].
  destruct (Z.leb_spec b 0xDF); [| lia].
  cbn [andb]. rewrite (land_low b 192 5 0x1F) by (reflexivity || lia). reflexivity.
Qed.

Lemma utf8Start_lead3 (b : Z) :
  0xE0 <= b <= 0xEF ->
  utf8Start b
  = ([], {| cp := b - 224; seen := 0; needed := 2;
            lower := if b =? 0xE0 then 0xA0 else 0x80;
            upper := if b =? 0xED then 0x9F else 0xBF |}).
Proof.
  intros Hb. unfold utf8Start.
  destruct (Z.leb_spec b 0x7F); [lia |].
  destruct (Z.leb_spec 0xC2 b); [| lia].
  destruct (Z.leb_spec b 0xDF); [lia |].
  destruct (Z.leb_spec 0xE0 b); [| lia].
  destruct (Z.leb_spec b 0xEF); [| lia].
  cbn [andb]. rewrite (land_low b 224 4 0xF) by (reflexivity || lia). reflexivity.
Qed.

Lemma utf8Start_lead4 (b : Z) :
  0xF0 <= b <= 0xF4 ->
  utf8Start b
  = ([], {| cp := b - 240; seen := 0; needed := 3;
            lower := if b =? 0xF0 then 0x90 else 0x80;
            upper := if b =? 0xF4 then 0x8F else 0xBF |}).
Proof.
  intros Hb. unfold utf8Start.
  destruct (Z.leb_spec b 0x7F); [lia |].
  destruct (Z.leb_spec 0xC2 b); [| lia].
  destruct (Z.leb_spec b 0xDF); [lia |].
  destruct (Z.leb_spec 0xE0 b); [| lia].
  destruct (Z.leb_spec b 0xEF); [lia |].
  destruct (Z.leb_spec 0xF0 b); [| lia].
  destruct (Z.leb_spec b 0xF4); [| lia].
  cbn [andb]. rewrite (land_low b 240 3 0x7) by (reflexivity || lia). reflexivity.
Qed.

(** A continuation byte within the bounds of the open sequence. *)
Lemma utf8Step_continue (st : Utf8State) (b : Z) :
  needed st <> 0 -> lower st <= b <= upper st -> 0x80 <= b <= 0xBF ->
  utf8Step st b
  = if seen st + 1 =? needed st
    then ([cp st * 64 + (b - 128)], utf8Init)
    else ([], {| cp := cp st * 64 + (b - 128); seen := seen st + 1;
                 needed := needed st; lower := 0x80; upper := 0xBF |}).
Proof.
  intros Hopen Hbounds Hb. unfold utf8Step.
  destruct (Z.eqb_spec (needed st) 0); [contradiction |].
  destruct (Z.ltb_spec b (lower st)); [lia |].
  destruct (Z.ltb_spec (upper st) b); [lia |].
  cbn [orb].
  rewrite (land_low b 128 6 0x3F) by (reflexivity || lia).
  rewrite (lor_shiftl_add (cp st) (b - 128) 6) by (change (2 ^ 6) with 64; lia).
  reflexivity.
Qed.

End Utf8.

Section Utf8RoundTrip.

Ltac divmod_lia := Z.div_mod_to_equations; lia.

(** One scalar value, encoded and read back with nothing open before it. *)
Lemma utf8Run_encoded (c : Z) (rest : list Z) :
  isScalar c ->
  utf8Run utf8Init (utf8EncodeCp c ++ rest) = c :: utf8Run utf8Init rest.
Proof.
  unfold isScalar. intros Hc.
  destruct (Z.le_gt_cases c 0x7F) as [H1 | H1];
    [| destruct (Z.le_gt_cases c 0x7FF) as [H2 | H2];
       [| destruct (Z.le_gt_cases c 0xFFFF) as [H3 | H3]]].
  - rewrite utf8EncodeCp_1 by lia. cbn [app utf8Run].
    rewrite utf8Step_init, utf8Start_ascii by lia. reflexivity.
  - rewrite utf8EncodeCp_2 by lia. cbn [app utf8Run].
    rewrite utf8Step_init, utf8Start_lead2 by divmod_lia. cbn [app].
    rewrite utf8Step_continue by (cbn [needed lower upper]; divmod_lia).
    cbn [seen needed cp]. change (0 + 1 =? 1) with true. cbv iota. cbn [app].
    f_equal. divmod_lia.
  - rewrite utf8EncodeCp_3 by lia. cbn [app utf8Run].
    rewrite utf8Step_init, utf8Start_lead3 by divmod_lia. cbn [app].
    rewrite utf8Step_continue.
    + cbn [seen needed cp]. change (0 + 1 =? 2) with false. cbv iota. cbn [app].
      rewrite utf8Step_continue by (cbn [needed lower upper]; divmod_lia).
      cbn [seen needed cp]. change (0 + 1 + 1 =? 2) with true. cbv iota. cbn [app].
      f_equal. divmod_lia.
    + cbn [needed]. lia.
    + cbn [lower upper].
      destruct (Z.eqb_spec (224 + c / 4096) 0xE0), (Z.eqb_spec (224 + c / 4096) 0xED);
        divmod_lia.
    + divmod_lia.
  - rewrite utf8EncodeCp_4 by lia. cbn [app utf8Run].
    rewrite utf8Step_init, utf8Start_lead4 by divmod_lia. cbn [app].
    rewrite utf8Step_continue.
    + cbn [seen needed cp]. change (0 + 1 =? 3) with false. cbv iota. cbn [app].
      rewrite utf8Step_continue by (cbn [needed lower upper]; divmod_lia).
      cbn [seen needed cp]. change (0 + 1 + 1 =? 3) with false. cbv iota. cbn [app].
      rewrite utf8Step_continue by (cbn [needed lower upper]; divmod_lia).
      cbn [seen needed cp]. change (0 + 1 + 1 + 1 =? 3) with true. cbv iota. cbn [app].
      f_equal. divmod_lia.
    + cbn [needed]. lia.
    + cbn [lower upper].
      destruct (Z.eqb_spec (240 + c / 262144) 0xF0), (Z.eqb_spec (240 + c / 262144) 0xF4);
        divmod_lia.
    + divmod_lia.
Qed.

Lemma utf8Run_flat_map (cps : list Z) :
  Forall isScalar cps -> utf8Run utf8Init (flat_map utf8EncodeCp cps) = cps.
Proof.
  induction 1 as [| c cps Hc _ IH]; [reflexivity |].
  cbn [flat_map]. rewrite utf8Run_encoded, IH by assumption. reflexivity.
Qed.

(** UTF-8 never produces a byte above 0xF4. *)
Lemma utf8EncodeCp_bytes (c : Z) :
  isScalar c -> Forall (fun b => 0 <= b <= 0xF4) (utf8EncodeCp c).
Proof.
  unfold isScalar. intros Hc.
  destruct (Z.le_gt_cases c 0x7F) as [H1 | H1];
    [| destruct (Z.le_gt_cases c 0x7FF) as [H2 | H2];
       [| destruct (Z.le_gt_cases c 0xFFFF) as [H3 | H3]]].
  - rewrite utf8EncodeCp_1 by lia. repeat constructor; lia.
  - rewrite utf8EncodeCp_2 by lia. repeat constructor; divmod_lia.
  - rewrite utf8EncodeCp_3 by lia. repeat constructor; divmod_lia.
  - rewrite utf8EncodeCp_4 by lia. repeat constructor; divmod_lia.
Qed.

(** The byte 0 stands for U+0000 and for nothing else. *)
Lemma utf8EncodeCp_nonzero (c : Z) :
  isScalar c -> c <> 0 -> Forall (fun b => b <> 0) (utf8EncodeCp c).
Proof.
  unfold isScalar. intros Hc Hnz.
  destruct (Z.le_gt_cases c 0x7F) as [H1 | H1];
    [| destruct (Z.le_gt_cases c 0x7FF) as [H2 | H2];
       [| destruct (Z.le_gt_cases c 0xFFFF) as [H3 | H3]]].
  - rewrite utf8EncodeCp_1 by lia. repeat constructor; lia.
  - rewrite utf8EncodeCp_2 by lia. repeat constructor; divmod_lia.
  - rewrite utf8EncodeCp_3 by lia. repeat constructor; divmod_lia.
  - rewrite utf8EncodeCp_4 by lia. repeat constructor; divmod_lia.
Qed.

End Utf8RoundTrip.

(** ** UTF-16: well-formed strings are their scalar values *)

Section Utf16.

Lemma isHigh_true (u : Z) : isHigh u = true <-> 0xD800 <= u <= 0xDBFF.
Proof. unfold isHigh. rewrite andb_true_iff, !Z.leb_le. tauto. Qed.

Lemma isLow_true (u : Z) : isLow u = true <-> 0xDC00 <= u <= 0xDFFF.
Proof. unfold isLow. rewrite andb_true_iff, !Z.leb_le. tauto. Qed.

Lemma isHigh_false (u : Z) : isHigh u = false <-> ~ (0xD800 <= u <= 0xDBFF).
Proof. rewrite <- isHigh_true. destruct (isHigh u); intuition congruence. Qed.

Lemma isLow_false (u : Z) : isLow u = false <-> ~ (0xDC00 <= u <= 0xDFFF).
Proof. rewrite <- isLow_true. destruct (isLow u); intuition congruence. Qed.

Lemma codeUnits_bmp (c : Z) : c < 0x10000 -> codeUnits c = [c].
Proof.
  intros Hc. unfold codeUnits.
  destruct (Z.ltb_spec c 0x10000); [reflexivity | lia].
Qed.

Lemma codeUnits_pair (u v : Z) :
  0xD800 <= u <= 0xDBFF -> 0xDC00 <= v <= 0xDFFF ->
  codeUnits (0x10000 + (u - 0xD800) * 0x400 + (v - 0xDC00)) = [u; v].
Proof.
  intros Hu Hv. unfold codeUnits.
  destruct (Z.ltb_spec (0x10000 + (u - 0xD800) * 0x400 + (v - 0xDC00)) 0x10000); [lia |].
  rewrite Z.shiftr_div_pow2 by lia. rewrite (land_mask _ 10) by lia.
  change (2 ^ 10) with 1024.
  f_equal; [| f_equal]; Z.div_mod_to_equations; lia.
Qed.

(** The three shapes a well-formed string can have. *)
Lemma wellFormed_cases (s : jsString) :
  wellFormed s = true ->
  s = []
  \/ (exists u rest, s = u :: rest /\ wellFormed rest = true
        /\ (0 <= u < 0xD800 \/ 0xE000 <= u < 0x10000)
        /\ toScalarValues s = u :: toScalarValues rest)
  \/ (exists u v rest, s = u :: v :: rest /\ wellFormed rest = true
        /\ 0xD800 <= u <= 0xDBFF /\ 0xDC00 <= v <= 0xDFFF
        /\ toScalarValues s
           = (0x10000 + (u - 0xD800) * 0x400 + (v - 0xDC00)) :: toScalarValues rest).
Proof.
  destruct s as [| u rest]; [left; reflexivity |]. intros Hwf. right.
  cbn [wellFormed toScalarValues] in *.
  destruct (isHigh u) eqn:Hhigh.
  - destruct rest as [| v rest]; [discriminate Hwf |].
    apply andb_true_iff in Hwf as [Hlow Hrest]. right.
    exists u, v, rest. rewrite Hlow.
    apply isHigh_true in Hhigh. apply isLow_true in Hlow. auto.
  - rewrite !andb_true_iff, negb_true_iff, Z.leb_le, Z.ltb_lt in Hwf.
    destruct Hwf as [[[Hlow H0] H1] Hrest]. left.
    exists u, rest. rewrite Hlow.
    apply isHigh_false in Hhigh. apply isLow_false in Hlow.
    repeat split; try assumption. lia.
Qed.

Lemma wellFormed_ind (P : jsString -> Prop) :
  P [] ->
  (forall u rest,
      wellFormed rest = true -> (0 <= u < 0xD800 \/ 0xE000 <= u < 0x10000) ->
      toScalarValues (u :: rest) = u :: toScalarValues rest ->
      P rest -> P (u :: rest)) ->
  (forall u v rest,
      wellFormed rest = true -> 0xD800 <= u <= 0xDBFF -> 0xDC00 <= v <= 0xDFFF ->
      toScalarValues (u :: v :: rest)
      = (0x10000 + (u - 0xD800) * 0x400 + (v - 0xDC00)) :: toScalarValues rest ->
      P rest -> P (u :: v :: rest)) ->
  forall s, wellFormed s = true -> P s.
Proof.
  intros Hnil Hbmp Hpair s.
  induction s as [s IH] using (induction_ltof1 _ (@length Z)). unfold ltof in IH.
  intros Hwf. destruct (wellFormed_cases s Hwf)
    as [-> | [(u & rest & -> & Hrest & Hu & Hsv) | (u & v & rest & -> & Hrest & Hu & Hv & Hsv)]].
  - exact Hnil.
  - apply Hbmp; try assumption. apply IH; [cbn [length]; lia | assumption].
  - apply Hpair; try assumption. apply IH; [cbn [length]; lia | assumption].
Qed.

Lemma toScalarValues_isScalar (s : jsString) :
  wellFormed s = true -> Forall isScalar (toScalarValues s).
Proof.
  revert s. apply wellFormed_ind.
  - constructor.
  - intros u rest _ Hu -> IH. constructor; [unfold isScalar; lia | exact IH].
  - intros u v rest _ Hu Hv -> IH. constructor; [unfold isScalar; lia | exact IH].
Qed.

Lemma fromCodePoints_toScalarValues (s : jsString) :
  wellFormed s = true -> fromCodePoints (toScalarValues s) = s.
Proof.
  revert s. apply wellFormed_ind.
  - reflexivity.
  - intros u rest _ Hu -> IH. unfold fromCodePoints in *. cbn [flat_map].
    rewrite codeUnits_bmp, IH by lia. reflexivity.
  - intros u v rest _ Hu Hv -> IH. unfold fromCodePoints in *. cbn [flat_map].
    rewrite codeUnits_pair, IH by lia. reflexivity.
Qed.

(** Only a string that starts with U+FEFF has that as its first scalar
    value. *)
Lemma toScalarValues_head (s : jsString) :
  wellFormed s = true -> hd 0 s <> 0xFEFF -> hd 0 (toScalarValues s) <> 0xFEFF.
Proof.
  intros Hwf. destruct (wellFormed_cases s Hwf)
    as [-> | [(u & rest & -> & _ & Hu & ->) | (u & v & rest & -> & _ & Hu & Hv & ->)]];
    cbn [hd toScalarValues]; lia.
Qed.

(** What [TextEncoder] writes, [TextDecoder] reads back. *)
Lemma TextDecoder_TextEncoder (text : jsString) :
  wellFormed text = true -> hd 0 text <> 0xFEFF ->
  TextDecoder_decode (TextEncoder_encode text) = text.
Proof.
  intros Hwf Hbom. unfold TextDecoder_decode, TextEncoder_encode. cbv zeta.
  rewrite utf8Run_flat_map by (apply toScalarValues_isScalar, Hwf).
  pose proof (toScalarValues_head text Hwf Hbom) as Hhead.
  pose proof (fromCodePoints_toScalarValues text Hwf) as Hback.
  destruct (toScalarValues text) as [| c cps]; [exact Hback |].
  cbn [hd] in Hhead.
  destruct (Z.eqb_spec c 0xFEFF); [contradiction | exact Hback].
Qed.

Lemma TextEncoder_bytes (text : jsString) :
  wellFormed text = true ->
  Forall (fun b => 0 <= b <= 0xF4) (TextEncoder_encode text).
Proof.
  intros Hwf. unfold TextEncoder_encode.
  pose proof (toScalarValues_isScalar text Hwf) as Hsv.
  induction Hsv as [| c cps Hc _ IH]; [constructor |].
  cbn [flat_map]. apply Forall_app. split; [apply utf8EncodeCp_bytes, Hc | exact IH].
Qed.

End Utf16.

(** ** From the frame back to the text *)

Section DecodeFrame.

(** A 16-bit length, split into two bytes and joined again. *)
Lemma be16_join (n : Z) :
  0 <= n < 65536 ->
  Z.lor (Z.shiftl (toUint8 (Z.land (Z.shiftr n 8) 0xFF)) 8) (toUint8 (Z.land n 0xFF)) = n.
Proof.
  intros Hn. rewrite !toUint8_land_0xFF.
  rewrite Z.shiftr_div_pow2 by lia. change (2 ^ 8) with 256.
  rewrite (lor_shiftl_add _ _ 8)
    by (change (2 ^ 8) with 256; (lia || apply Z.mod_pos_bound; lia)).
  change (2 ^ 8) with 256. Z.div_mod_to_equations. lia.
Qed.

(** The path of [tryDecodeLinear] on which every check passes. *)
Lemma tryDecodeLinear_accepts (linear hdr : list Z) (payloadLen eccLen : Z) :
  (88 <= length linear)%nat ->
  Decoder.headerOf linear = hdr ->
  length hdr = 7%nat ->
  Decoder.checksum8 (slice hdr 0 6) = nth 6 hdr 0 ->
  Z.lor (Z.shiftl (nth 2 hdr 0) 8) (nth 3 hdr 0) = payloadLen ->
  Z.lor (Z.shiftl (nth 4 hdr 0) 8) (nth 5 hdr 0) = eccLen ->
  0 < payloadLen -> payloadLen + eccLen <= 157 ->
  88 + (payloadLen + eccLen) * 8 <= Z.of_nat (length linear) ->
  Decoder.tryDecodeLinear linear
  = match Decoder.rsDecodeSimple
            (Decoder.bitsToBytes (slice linear 88 (88 + (payloadLen + eccLen) * 8)))
            eccLen with
    | None => None
    | Some decoded => Some (TextDecoder_decode (slice decoded 0 payloadLen))
    end.
Proof.
  intros Hlong Hhdr Hlen Hsum Hpayload Hecc Hpos Hcap Hbits.
  unfold Decoder.tryDecodeLinear. cbv zeta.
  change (Z.of_nat (length Decoder.START_PATTERN_BITS) + Decoder.HEADER_BITS) with 88.
  change (Decoder.capacityDataBits / 8) with 157.
  rewrite Hhdr, Hlen, Hsum, Hpayload, Hecc.
  destruct (Z.ltb_spec (Z.of_nat (length linear)) 88); [lia |].
  change (negb (Z.of_nat 7 =? 7)) with false. cbv iota.
  rewrite Z.eqb_refl. cbn [negb].
  destruct (Z.leb_spec payloadLen 0); [lia |].
  destruct (Z.gtb_spec (payloadLen + eccLen) 157); [lia |].
  destruct (Z.gtb_spec (88 + (payloadLen + eccLen) * 8) (Z.of_nat (length linear)));
    [lia | reflexivity].
Qed.

Lemma simpleRS_isByte (data : list Z) (ecc : Z) :
  Forall isByte data -> 0 <= ecc -> Forall isByte (simpleRS data ecc).
Proof.
  intros Hdata Hecc. rewrite simpleRS_eq by assumption.
  apply Forall_app. split; [exact Hdata |].
  unfold appendRedundancy. apply Forall_map, Forall_forall. intros i _.
  unfold redundancyByte. apply toUint8_isByte.
Qed.

Variables (text : jsString) (eccLevel : Z).

Local Abbreviation textBytes := (TextEncoder_encode text).
Local Abbreviation eccBytes := (eccBytesOf eccLevel).
Local Abbreviation textLength := (Z.of_nat (length textBytes)).
Local Abbreviation payload := (u8set (u8new (maxPayloadBytes eccLevel)) textBytes).

Hypothesis Hbytes : Forall isByte textBytes.
Hypothesis Hfits : textLength <= maxPayloadBytes eccLevel.

(** The payload: the text bytes, then zeros up to the level's capacity. *)
Lemma payload_eq :
  payload = textBytes ++ replicate (Z.to_nat (maxPayloadBytes eccLevel) - length textBytes) 0.
Proof.
  unfold u8new.
  replace (Z.to_nat (maxPayloadBytes eccLevel))
    with (length textBytes + (Z.to_nat (maxPayloadBytes eccLevel) - length textBytes))%nat
    at 1 by lia.
  apply u8set_fresh. exact Hbytes.
Qed.

(** The codeword the decoder cuts out: the declared number of bytes, taken
    from the front of what the encoder wrote. *)
Lemma codeword_frameBits :
  Decoder.bitsToBytes
    (slice (frameBits text eccLevel) 88 (88 + (textLength + eccBytes) * 8))
  = take (length textBytes + Z.to_nat eccBytes) (simpleRS payload eccBytes).
Proof.
  pose proof (eccBytes_pos eccLevel) as Hecc.
  pose proof (maxPayloadBytes_eq eccLevel) as Hmax.
  pose proof (length_encoded text eccLevel) as Hlen.
  unfold frameBits.
  rewrite app_assoc.
  rewrite <- (app_nil_r (bytesToBits (simpleRS _ _))).
  set (pre := START_PATTERN_BITS ++ bytesToBits (header _ _ _)).
  assert (Hpre : length pre = 88%nat).
  { unfold pre. rewrite length_app, length_bytesToBits, length_header. reflexivity. }
  replace 88 with (Z.of_nat (length pre)) by lia.
  replace ((textLength + eccBytes) * 8)
    with (Z.of_nat (8 * (length textBytes + Z.to_nat eccBytes))) by lia.
  apply bitsToBytes_read_back.
  - apply simpleRS_isByte; [apply payload_isByte | lia].
  - lia.
Qed.

Lemma length_codeword :
  length (take (length textBytes + Z.to_nat eccBytes) (simpleRS payload eccBytes))
  = (length textBytes + Z.to_nat eccBytes)%nat.
Proof.
  pose proof (eccBytes_pos eccLevel) as Hecc.
  pose proof (maxPayloadBytes_eq eccLevel) as Hmax.
  rewrite length_take, length_encoded. lia.
Qed.

(** Its data bytes are the bytes of the text. *)
Lemma dataBytes_codeword :
  dataBytes (take (length textBytes + Z.to_nat eccBytes) (simpleRS payload eccBytes))
            eccBytes
  = textBytes.
Proof.
  pose proof (eccBytes_pos eccLevel) as Hecc.
  unfold dataBytes. rewrite length_codeword.
  replace (Z.to_nat (Z.of_nat (length textBytes + Z.to_nat eccBytes) - eccBytes))
    with (length textBytes) by lia.
  rewrite take_take, Nat.min_l by lia.
  rewrite simpleRS_eq by (apply payload_isByte || lia).
  rewrite payload_eq, <- !app_assoc.
  apply take_app_length.
Qed.

(** Decoding the frame of a non-empty text gives the decoded text bytes,
    unless the blank-data filter refuses them. *)
Lemma tryDecodeLinear_frameBits :
  0 < textLength ->
  5 * Decoder.countEq 0 textBytes <= 4 * textLength ->
  5 * Decoder.countEq 255 textBytes <= 4 * textLength ->
  Decoder.tryDecodeLinear (frameBits text eccLevel)
  = Some (TextDecoder_decode textBytes).
Proof.
  intros Hpos Hzeros Hones.
  pose proof (eccBytes_pos eccLevel) as Hecc.
  pose proof (maxPayloadBytes_eq eccLevel) as Hmax.
  pose proof (length_frameBits text eccLevel) as Hlen.
  rewrite (tryDecodeLinear_accepts (frameBits text eccLevel)
             (header textLength eccLevel eccBytes) textLength eccBytes).
  - rewrite codeword_frameBits.
    rewrite rsDecodeSimple_data by (rewrite length_codeword; lia).
    rewrite dataBytes_codeword, length_codeword.
    replace (Z.of_nat (length textBytes + Z.to_nat eccBytes) - eccBytes)
      with textLength by lia.
    unfold Decoder.moreThan80Percent.
    destruct (Z.ltb_spec (4 * textLength) (5 * Decoder.countEq 0 textBytes)); [lia |].
    destruct (Z.ltb_spec (4 * textLength) (5 * Decoder.countEq 255 textBytes)); [lia |].
    cbn [orb]. rewrite slice_all by lia. reflexivity.
  - lia.
  - apply headerOf_frameBits.
  - apply length_header.
  - rewrite <- headerOf_frameBits. apply frameBits_checksum.
  - rewrite header_eq. cbn [nth]. apply be16_join. lia.
  - rewrite header_eq. cbn [nth]. apply be16_join. lia.
  - exact Hpos.
  - lia.
  - lia.
Qed.

End DecodeFrame.
(** ** The round trip *)

Section RoundTrip.

Lemma length_utf8EncodeCp (c : Z) : (1 <= length (utf8EncodeCp c))%nat.
Proof.
  unfold utf8EncodeCp.
  destruct (c <=? 0x7F), (c <=? 0x7FF), (c <=? 0xFFFF); cbn [length]; lia.
Qed.

Lemma TextEncoder_nonempty (text : jsString) :
  wellFormed text = true -> text <> [] -> (0 < length (TextEncoder_encode text))%nat.
Proof.
  intros Hwf Hne. unfold TextEncoder_encode.
  destruct (wellFormed_cases text Hwf)
    as [-> | [(u & rest & -> & _ & _ & ->) | (u & v & rest & -> & _ & _ & _ & ->)]];
    [contradiction | |];
    cbn [flat_map]; rewrite length_app;
    match goal with |- context [utf8EncodeCp ?c] => pose proof (length_utf8EncodeCp c) end;
    lia.
Qed.

Lemma countEq_absent (v : Z) (data : list Z) :
  Forall (fun b => b <> v) data -> Decoder.countEq v data = 0.
Proof.
  intros Hdata. unfold Decoder.countEq.
  induction Hdata as [| b data Hb _ IH]; [reflexivity |].
  rewrite filter_cons_False by assumption. exact IH.
Qed.

Lemma TextEncoder_isByte (text : jsString) :
  wellFormed text = true -> Forall isByte (TextEncoder_encode text).
Proof.
  intros Hwf. eapply Forall_impl; [apply TextEncoder_bytes, Hwf |].
  intros b Hb. unfold isByte. cbn beta in Hb. lia.
Qed.

Lemma TextEncoder_no_0xFF (text : jsString) :
  wellFormed text = true -> Decoder.countEq 255 (TextEncoder_encode text) = 0.
Proof.
  intros Hwf. apply countEq_absent.
  eapply Forall_impl; [apply TextEncoder_bytes, Hwf |].
  intros b Hb. cbn beta in Hb. lia.
Qed.

(** A text without U+0000 has no zero byte, so the blank-data filter
    lets it through. *)
Lemma TextEncoder_no_zero (text : jsString) :
  wellFormed text = true -> Forall (fun u => u <> 0) text ->
  Decoder.countEq 0 (TextEncoder_encode text) = 0.
Proof.
  intros Hwf Hnz. apply countEq_absent. unfold TextEncoder_encode.
  revert text Hwf Hnz. apply (wellFormed_ind (fun text =>
    Forall (fun u => u <> 0) text ->
    Forall (fun b => b <> 0) (flat_map utf8EncodeCp (toScalarValues text)))).
  - constructor.
  - intros u rest _ Hu -> IH Hnz. apply Forall_cons in Hnz as [Hu0 Hrest].
    cbn [flat_map]. apply Forall_app. split; [| exact (IH Hrest)].
    apply utf8EncodeCp_nonzero; [unfold isScalar; lia | exact Hu0].
  - intros u v rest _ Hu Hv -> IH Hnz.
    apply Forall_cons in Hnz as [_ Hnz]. apply Forall_cons in Hnz as [_ Hrest].
    cbn [flat_map]. apply Forall_app. split; [| exact (IH Hrest)].
    apply utf8EncodeCp_nonzero; [unfold isScalar |]; lia.
Qed.

End RoundTrip.

(** C1, as the code has it: for the four levels, a text that is not empty,
    has no unpaired surrogate, does not begin with U+FEFF, fits the level
    and has at most 80% zero bytes in its UTF-8 form is accepted by
    [encodeText], and [tryDecodeLinear] run on the bits returns it. *)
Theorem encode_decode_round_trip (text : jsString) (eccLevel : Z) :
  0 <= eccLevel <= 3 ->
  text <> [] ->
  wellFormed text = true ->
  hd 0 text <> 0xFEFF ->
  Z.of_nat (length (TextEncoder_encode text)) <= levelCapacity eccLevel ->
  5 * Decoder.countEq 0 (TextEncoder_encode text)
    <= 4 * Z.of_nat (length (TextEncoder_encode text)) ->
  exists bits,
    encodeText text eccLevel = inr bits /\ Decoder.tryDecodeLinear bits = Some text.
Proof.
  intros Hlevel Hne Hwf Hbom Hfits Hzeros.
  rewrite <- maxPayloadBytes_levels in Hfits by assumption.
  exists (frameBits text eccLevel). split.
  - rewrite encodeText_fits by assumption. f_equal.
    rewrite paddedBits_frameBits. apply slice_all.
    rewrite length_frameBits. vm_compute. discriminate.
  - pose proof (TextEncoder_nonempty text Hwf Hne) as Hpos.
    rewrite tryDecodeLinear_frameBits.
    + rewrite TextDecoder_TextEncoder by assumption. reflexivity.
    + apply TextEncoder_isByte, Hwf.
    + exact Hfits.
    + lia.
    + exact Hzeros.
    + rewrite TextEncoder_no_0xFF by assumption. lia.
Qed.

(** In particular every text without U+0000 that meets the other
    conditions makes the round trip. *)
Corollary round_trip_without_nul (text : jsString) (eccLevel : Z) :
  0 <= eccLevel <= 3 ->
  text <> [] ->
  wellFormed text = true ->
  hd 0 text <> 0xFEFF ->
  Forall (fun u => u <> 0) text ->
  Z.of_nat (length (TextEncoder_encode text)) <= levelCapacity eccLevel ->
  Decoder.tryDecodeLinear (frameBits text eccLevel) = Some text.
Proof.
  intros Hlevel Hne Hwf Hbom Hnz Hfits.
  rewrite <- maxPayloadBytes_levels in Hfits by assumption.
  pose proof (TextEncoder_nonempty text Hwf Hne) as Hpos.
  rewrite tryDecodeLinear_frameBits.
  - rewrite TextDecoder_TextEncoder by assumption. reflexivity.
  - apply TextEncoder_isByte, Hwf.
  - exact Hfits.
  - lia.
  - rewrite TextEncoder_no_zero by assumption. lia.
  - rewrite TextEncoder_no_0xFF by assumption. lia.
Qed.

(** C10, as the code has it: a level outside 0..3 is not refused; 32
    redundancy bytes are used, so 125 bytes of text fit, and the header's
    level byte holds the level modulo 256 (the level itself when it is
    between 4 and 255). *)
Theorem encodeText_unknown_level (text : jsString) (eccLevel : Z) :
  ~ (0 <= eccLevel <= 3) ->
  eccBytesOf eccLevel = 32
  /\ maxPayloadBytes eccLevel = 125
  /\ (encodeFails (encodeText text eccLevel)
      <-> 125 < Z.of_nat (length (TextEncoder_encode text)))
  /\ forall bits,
       encodeText text eccLevel = inr bits ->
       nth 1 (Decoder.headerOf bits) 0 = eccLevel mod 256
       /\ (0 <= eccLevel < 256 -> nth 1 (Decoder.headerOf bits) 0 = eccLevel)
       /\ nth 4 (Decoder.headerOf bits) 0 = 0
       /\ nth 5 (Decoder.headerOf bits) 0 = 32.
Proof.
  intros Hout.
  pose proof (eccBytesOf_fallback eccLevel Hout) as Hecc.
  assert (Hmax : maxPayloadBytes eccLevel = 125)
    by (rewrite maxPayloadBytes_eq, Hecc; reflexivity).
  split; [exact Hecc |]. split; [exact Hmax |]. split.
  - rewrite encodeFails_iff, Hmax. tauto.
  - intros bits Henc. apply encodeText_frameBits in Henc as [_ ->].
    rewrite headerOf_frameBits, header_eq, Hecc. cbn [nth].
    repeat split; try reflexivity.
    intros Hbyte. apply toUint8_byte. exact Hbyte.
Qed.

(** ** The theorems at concrete inputs *)

Lemma encode_decode_round_trip_witness :
  exists bits, encodeText hello 2 = inr bits /\ Decoder.tryDecodeLinear bits = Some hello.
Proof.
  apply (encode_decode_round_trip hello 2).
  - lia.
  - discriminate.
  - reflexivity.
  - vm_compute. discriminate.
  - vm_compute. discriminate.
  - vm_compute. discriminate.
Defined.

(** C1 as worded fails on the empty text: it is accepted by [encodeText]
    at every level, and the frame, whose payload length is 0, is refused by
    [tryDecodeLinear]. *)
Lemma round_trip_fails_on_empty_text :
  Z.of_nat (length (TextEncoder_encode [])) <= levelCapacity 2
  /\ exists bits,
       encodeText [] 2 = inr bits /\ Decoder.tryDecodeLinear bits <> Some [].
Proof.
  split; [vm_compute; discriminate |].
  exists (frameBits [] 2). split; vm_compute; [reflexivity | discriminate].
Qed.

(** It fails as well on a text that is mostly U+0000, which the blank-data
    filter takes for noise. *)
Example round_trip_fails_on_nul_text :
  exists bits, encodeText [0] 2 = inr bits /\ Decoder.tryDecodeLinear bits = None.
Proof. exists (frameBits [0] 2). split; vm_compute; reflexivity. Qed.

(** A leading U+FEFF is dropped by [TextDecoder]. *)
Example round_trip_drops_byte_order_mark :
  exists bits,
    encodeText [0xFEFF; 104; 105] 2 = inr bits
    /\ Decoder.tryDecodeLinear bits = Some [104; 105].
Proof. exists (frameBits [0xFEFF; 104; 105] 2). split; vm_compute; reflexivity. Qed.

(** An unpaired surrogate comes back as U+FFFD. *)
Example round_trip_replaces_lone_surrogate :
  exists bits,
    encodeText [104; 0xD800; 105] 2 = inr bits
    /\ Decoder.tryDecodeLinear bits = Some [104; 0xFFFD; 105].
Proof. exists (frameBits [104; 0xD800; 105] 2). split; vm_compute; reflexivity. Qed.

(** Characters outside the basic plane and of every UTF-8 length come
    back unchanged. *)
Example round_trip_mixed_text :
  exists bits,
    encodeText [0x41; 0xE9; 0x20AC; 0xD83D; 0xDE00] 0 = inr bits
    /\ Decoder.tryDecodeLinear bits = Some [0x41; 0xE9; 0x20AC; 0xD83D; 0xDE00].
Proof.
  exists (frameBits [0x41; 0xE9; 0x20AC; 0xD83D; 0xDE00] 0).
  split; vm_compute; reflexivity.
Qed.

Lemma encodeText_PayloadTooLarge_iff_witness :
  0 <= 2 <= 3
  /\ (encodeFails (encodeText hello 2)
      <-> levelCapacity 2 < Z.of_nat (length (TextEncoder_encode hello))).
Proof.
  assert (Hlevel : 0 <= 2 <= 3) by lia.
  split; [exact Hlevel |].
  exact (proj1 (proj2 (proj2 (proj2 (proj2
           (encodeText_PayloadTooLarge_iff hello 2 Hlevel)))))).
Defined.

(** At level 2, 125 bytes are accepted and 126 are refused. *)
Example encodeText_boundary :
  (exists bits, encodeText (replicate 125 97) 2 = inr bits)
  /\ encodeText (replicate 126 97) 2 = inl (PayloadTooLarge 126 125).
Proof.
  split; [exists (frameBits (replicate 125 97) 2) |]; vm_compute; reflexivity.
Qed.

Lemma encodeText_length_witness :
  encodeText hello 2 = inr (frameBits hello 2)
  /\ length (frameBits hello 2) = 1344%nat.
Proof.
  assert (Henc : encodeText hello 2 = inr (frameBits hello 2))
    by (vm_compute; reflexivity).
  split; [exact Henc |].
  exact (proj2 (proj2 (proj2 (proj2
           (encodeText_length hello 2 (frameBits hello 2) Henc))))).
Defined.

Lemma header_bit_flip_rejected_witness :
  encodeText hello 2 = inr (frameBits hello 2)
  /\ (32 <= 45 < 32 + 6 * 8)%nat
  /\ Decoder.tryDecodeLinear (flipBit 45 (frameBits hello 2)) = None.
Proof.
  assert (Henc : encodeText hello 2 = inr (frameBits hello 2))
    by (vm_compute; reflexivity).
  assert (Hp : (32 <= 45 < 32 + 6 * 8)%nat) by (cbn; lia).
  split; [exact Henc | split; [exact Hp |]].
  exact (proj2 (header_bit_flip_rejected hello 2 (frameBits hello 2) 45 Henc Hp)).
Defined.

Lemma encodeText_unknown_level_witness :
  ~ (0 <= 7 <= 3)
  /\ eccBytesOf 7 = 32
  /\ (encodeFails (encodeText hello 7)
      <-> 125 < Z.of_nat (length (TextEncoder_encode hello))).
Proof.
  assert (Hout : ~ (0 <= 7 <= 3)) by lia.
  split; [exact Hout |].
  pose proof (encodeText_unknown_level hello 7 Hout) as (Hecc & _ & Hfail & _).
  split; [exact Hecc | exact Hfail].
Defined.

(** C10 as worded fails for a level that is not a byte: level 300 is
    written to the header as 44. *)
Lemma encodeText_level_300_header :
  ~ (0 <= 300 <= 3)
  /\ exists bits,
       encodeText hello 300 = inr bits
       /\ nth 1 (Decoder.headerOf bits) 0 = 44
       /\ nth 1 (Decoder.headerOf bits) 0 <> 300.
Proof.
  split; [lia |].
  exists (frameBits hello 300).
  split; [vm_compute; reflexivity |]. split; vm_compute; [reflexivity | discriminate].
Qed.

(** ** What decides the answer of [tryDecodeLinear] *)

Section DecodeFormula.

Lemma tryDecodeLinear_short (linear : list Z) :
  (length linear < 88)%nat -> Decoder.tryDecodeLinear linear = None.
Proof.
  intros Hshort. unfold Decoder.tryDecodeLinear. cbv zeta.
  change (Z.of_nat (length Decoder.START_PATTERN_BITS) + Decoder.HEADER_BITS) with 88.
  destruct (Z.ltb_spec (Z.of_nat (length linear)) 88); [reflexivity | lia].
Qed.

Lemma headerOf_isByte (linear : list Z) (k : nat) :
  (88 <= length linear)%nat -> isByte (nth k (Decoder.headerOf linear) 0).
Proof.
  intros Hlong. rewrite headerOf_bytes by assumption.
  destruct (Nat.lt_ge_cases k 7) as [Hk | Hk].
  - set (f := fun k : nat => toUint8 (Decoder.byteAt linear (32 + 8 * k))).
    rewrite (nth_indep _ 0 (f 0%nat)) by (rewrite length_map, length_seq; exact Hk).
    rewrite (map_nth f). apply toUint8_isByte.
  - rewrite nth_overflow by (rewrite length_map, length_seq; exact Hk).
    unfold isByte. lia.
Qed.

Lemma be16_range (hi lo : Z) :
  isByte hi -> isByte lo -> 0 <= Z.lor (Z.shiftl hi 8) lo < 65536.
Proof.
  unfold isByte. intros Hhi Hlo.
  rewrite (lor_shiftl_add hi lo 8) by (change (2 ^ 8) with 256; lia).
  change (2 ^ 8) with 256. lia.
Qed.

Lemma payloadLenOf_range (linear : list Z) :
  (88 <= length linear)%nat -> 0 <= payloadLenOf linear < 65536.
Proof. intros Hlong. apply be16_range; apply headerOf_isByte; exact Hlong. Qed.

Lemma eccLenOf_range (linear : list Z) :
  (88 <= length linear)%nat -> 0 <= eccLenOf linear < 65536.
Proof. intros Hlong. apply be16_range; apply headerOf_isByte; exact Hlong. Qed.

Lemma take_map_seq {B : Type} (f : nat -> B) (n m : nat) :
  (n <= m)%nat -> take n (map f (seq 0 m)) = map f (seq 0 n).
Proof.
  intros Hn. replace m with (n + (m - n))%nat by lia.
  rewrite seq_app, map_app.
  rewrite take_app_length' by (rewrite length_map, length_seq; reflexivity).
  reflexivity.
Qed.

(** The codeword cut out of the sequence, and the payload bytes in it. *)
Lemma codeword_payloadBytes (linear : list Z) (p e : nat) :
  (88 + 8 * (p + e) <= length linear)%nat ->
  payloadLenOf linear = Z.of_nat p ->
  let codeword :=
    Decoder.bitsToBytes (slice linear 88 (88 + (Z.of_nat p + Z.of_nat e) * 8)) in
  length codeword = (p + e)%nat /\ take p codeword = payloadBytesOf linear.
Proof.
  intros Hlen Hp. cbv zeta. unfold payloadBytesOf. rewrite Hp.
  replace (88 + (Z.of_nat p + Z.of_nat e) * 8)
    with (Z.of_nat 88 + Z.of_nat (8 * (p + e))) by lia.
  replace (88 + Z.of_nat p * 8) with (Z.of_nat 88 + Z.of_nat (8 * p)) by lia.
  change 88 with (Z.of_nat 88).
  rewrite !bitsToBytes_slice by lia.
  split.
  - rewrite length_map, length_seq. reflexivity.
  - apply take_map_seq. lia.
Qed.

(** With a header present, the answer is the decoded payload bytes when
    every check passes, and nothing otherwise. *)
Lemma tryDecodeLinear_formula (linear : list Z) :
  (88 <= length linear)%nat ->
  Decoder.tryDecodeLinear linear
  = if frameAccepted linear
    then Some (TextDecoder_decode (payloadBytesOf linear))
    else None.
Proof.
  intros Hlong.
  pose proof (payloadLenOf_range linear Hlong) as HP.
  pose proof (eccLenOf_range linear Hlong) as HE.
  unfold frameAccepted.
  destruct (Z.eqb_spec (Decoder.checksum8 (slice (Decoder.headerOf linear) 0 6))
              (nth 6 (Decoder.headerOf linear) 0)) as [Hsum | Hsum];
    [| cbn [andb]; apply tryDecodeLinear_checksum_mismatch; assumption].
  unfold Decoder.tryDecodeLinear. cbv zeta.
  change (Z.of_nat (length Decoder.START_PATTERN_BITS) + Decoder.HEADER_BITS) with 88.
  change (Decoder.capacityDataBits / 8) with 157.
  fold (payloadLenOf linear). fold (eccLenOf linear).
  rewrite length_headerOf by assumption. rewrite Hsum.
  destruct (Z.ltb_spec (Z.of_nat (length linear)) 88); [lia |].
  change (negb (Z.of_nat 7 =? 7)) with false. cbv iota.
  rewrite Z.eqb_refl. cbn [negb andb].
  destruct (Z.leb_spec (payloadLenOf linear) 0),
           (Z.ltb_spec 0 (payloadLenOf linear)); try lia; [reflexivity |].
  destruct (Z.gtb_spec (payloadLenOf linear + eccLenOf linear) 157),
           (Z.leb_spec (payloadLenOf linear + eccLenOf linear) 157);
    try lia; [reflexivity |].
  destruct (Z.gtb_spec (88 + (payloadLenOf linear + eccLenOf linear) * 8)
              (Z.of_nat (length linear))),
           (Z.leb_spec (88 + (payloadLenOf linear + eccLenOf linear) * 8)
              (Z.of_nat (length linear)));
    try lia; [reflexivity |].
  cbn [andb].
  destruct (codeword_payloadBytes linear (Z.to_nat (payloadLenOf linear))
              (Z.to_nat (eccLenOf linear))) as [Hcwlen Hdata]; [lia | lia |].
  rewrite !Z2Nat.id in Hcwlen, Hdata by lia.
  rewrite rsDecodeSimple_data by (rewrite Hcwlen; lia).
  unfold dataBytes. rewrite Hcwlen.
  replace (Z.to_nat (Z.of_nat (Z.to_nat (payloadLenOf linear) + Z.to_nat (eccLenOf linear))
                     - eccLenOf linear))
    with (Z.to_nat (payloadLenOf linear)) by lia.
  rewrite Hdata.
  replace (Z.of_nat (Z.to_nat (payloadLenOf linear) + Z.to_nat (eccLenOf linear))
           - eccLenOf linear) with (payloadLenOf linear) by lia.
  destruct (_ || _); cbn [negb]; [reflexivity |].
  rewrite slice_all; [reflexivity |].
  rewrite <- Hdata, length_take, Hcwlen. lia.
Qed.

End DecodeFormula.
Section DecodePrefix.

Lemma slice_of_take {A : Type} (l : list A) (k : nat) (s e : Z) :
  0 <= s <= e -> e <= Z.of_nat k -> (k <= length l)%nat ->
  slice (take k l) s e = slice l s e.
Proof.
  intros Hs He Hk.
  rewrite !slice_take_drop by (rewrite ?length_take; lia).
  rewrite !take_drop_commute, take_take.
  replace (Nat.min (Z.to_nat s + Z.to_nat (e - s)) k)
    with (Z.to_nat s + Z.to_nat (e - s))%nat by lia.
  reflexivity.
Qed.

(** Two sequences with the same first [k] bits give the same slices
    below [k]. *)
Lemma slice_agree {A : Type} (l1 l2 : list A) (k : nat) (s e : Z) :
  0 <= s <= e -> e <= Z.of_nat k ->
  (k <= length l1)%nat -> (k <= length l2)%nat ->
  take k l1 = take k l2 ->
  slice l1 s e = slice l2 s e.
Proof.
  intros Hs He Hk1 Hk2 Htake.
  rewrite <- (slice_of_take l1 k), <- (slice_of_take l2 k) by assumption.
  rewrite Htake. reflexivity.
Qed.

Lemma take_take_agree {A : Type} (l1 l2 : list A) (j k : nat) :
  (j <= k)%nat -> take k l1 = take k l2 -> take j l1 = take j l2.
Proof.
  intros Hj Htake.
  rewrite <- (Nat.min_l j k), <- !take_take, Htake by lia. reflexivity.
Qed.

Lemma frameAccepted_bounds (linear : list Z) :
  (88 <= length linear)%nat -> frameAccepted linear = true ->
  Decoder.checksum8 (slice (Decoder.headerOf linear) 0 6) = nth 6 (Decoder.headerOf linear) 0
  /\ 0 < payloadLenOf linear
  /\ payloadLenOf linear + eccLenOf linear <= 157
  /\ 88 + (payloadLenOf linear + eccLenOf linear) * 8 <= Z.of_nat (length linear)
  /\ 5 * Decoder.countEq 0 (payloadBytesOf linear) <= 4 * payloadLenOf linear
  /\ 5 * Decoder.countEq 255 (payloadBytesOf linear) <= 4 * payloadLenOf linear.
Proof.
  intros Hlong. unfold frameAccepted, Decoder.moreThan80Percent.
  rewrite !andb_true_iff, negb_true_iff, orb_false_iff.
  rewrite Z.eqb_eq, !Z.ltb_lt, !Z.leb_le, !Z.ltb_ge.
  intros [[[[Hsum Hpos] Hcap] Hbits] [Hz Ho]]. repeat split; assumption.
Qed.

(** An accepted sequence stays accepted, with the same payload bytes, when
    only what follows the payload bytes is changed and enough bits remain. *)
Lemma frameAccepted_prefix (l1 l2 : list Z) :
  (88 <= length l1)%nat -> frameAccepted l1 = true ->
  take (88 + 8 * Z.to_nat (payloadLenOf l1)) l2
    = take (88 + 8 * Z.to_nat (payloadLenOf l1)) l1 ->
  88 + (payloadLenOf l1 + eccLenOf l1) * 8 <= Z.of_nat (length l2) ->
  Decoder.headerOf l2 = Decoder.headerOf l1
  /\ payloadBytesOf l2 = payloadBytesOf l1
  /\ frameAccepted l2 = true.
Proof.
  intros Hlong Hacc Htake Hlen2.
  pose proof (eccLenOf_range l1 Hlong) as HE.
  destruct (frameAccepted_bounds l1 Hlong Hacc) as (Hsum & Hpos & Hcap & Hlen1 & Hz & Ho).
  assert (Hhdr : Decoder.headerOf l2 = Decoder.headerOf l1).
  { unfold Decoder.headerOf. cbv zeta. f_equal.
    change (Z.of_nat (length Decoder.START_PATTERN_BITS)) with 32.
    change Decoder.HEADER_BITS with 56.
    apply (slice_agree l2 l1 (88 + 8 * Z.to_nat (payloadLenOf l1))); (assumption || lia). }
  assert (HP : payloadLenOf l2 = payloadLenOf l1)
    by (unfold payloadLenOf; rewrite Hhdr; reflexivity).
  assert (HE2 : eccLenOf l2 = eccLenOf l1)
    by (unfold eccLenOf; rewrite Hhdr; reflexivity).
  assert (Hpay : payloadBytesOf l2 = payloadBytesOf l1).
  { unfold payloadBytesOf. rewrite HP. f_equal.
    apply (slice_agree l2 l1 (88 + 8 * Z.to_nat (payloadLenOf l1))); (assumption || lia). }
  split; [exact Hhdr | split; [exact Hpay |]].
  unfold frameAccepted, Decoder.moreThan80Percent. rewrite Hhdr, HP, HE2, Hpay.
  rewrite !andb_true_iff, negb_true_iff, orb_false_iff.
  rewrite Z.eqb_eq, !Z.ltb_lt, !Z.leb_le, !Z.ltb_ge.
  repeat split; (assumption || lia).
Qed.

End DecodePrefix.

(** X1: when [tryDecodeLinear] returns a text, the input holds at least 96
    bits, the header checksum matches, the declared payload length is
    between 1 and 157, and the text is the decoding of exactly that many
    bytes read right after the header: nothing is corrected. *)
Theorem tryDecodeLinear_Some (linear : list Z) (text : jsString) :
  Decoder.tryDecodeLinear linear = Some text ->
  (96 <= length linear)%nat
  /\ Decoder.checksum8 (slice (Decoder.headerOf linear) 0 6)
     = nth 6 (Decoder.headerOf linear) 0
  /\ 1 <= payloadLenOf linear <= 157
  /\ Z.of_nat (length (payloadBytesOf linear)) = payloadLenOf linear
  /\ text = TextDecoder_decode (payloadBytesOf linear).
Proof.
  intros Hdec.
  destruct (Nat.lt_ge_cases (length linear) 88) as [Hshort | Hlong].
  { rewrite tryDecodeLinear_short in Hdec by assumption. discriminate. }
  rewrite tryDecodeLinear_formula in Hdec by assumption.
  destruct (frameAccepted linear) eqn:Hacc; [| discriminate].
  pose proof (eccLenOf_range linear Hlong) as HE.
  destruct (frameAccepted_bounds linear Hlong Hacc) as (Hsum & Hpos & Hcap & Hlen & _).
  destruct (codeword_payloadBytes linear (Z.to_nat (payloadLenOf linear))
              (Z.to_nat (eccLenOf linear))) as [Hcwlen Hdata]; [lia | lia |].
  repeat split; try (assumption || lia || congruence).
  rewrite <- Hdata, length_take, Hcwlen. lia.
Qed.

Lemma tryDecodeLinear_Some_witness :
  Decoder.tryDecodeLinear (frameBits hello 2) = Some hello
  /\ payloadLenOf (frameBits hello 2) = 5
  /\ hello = TextDecoder_decode (payloadBytesOf (frameBits hello 2)).
Proof.
  assert (Hdec : Decoder.tryDecodeLinear (frameBits hello 2) = Some hello)
    by (vm_compute; reflexivity).
  pose proof (tryDecodeLinear_Some (frameBits hello 2) hello Hdec)
    as (_ & _ & _ & _ & Htext).
  split; [exact Hdec | split; [vm_compute; reflexivity | exact Htext]].
Defined.

(** X2: what follows the payload bytes plays no part in an accepted
    frame.  If [tryDecodeLinear] returns a text for one sequence, it returns
    the same text for every sequence that has the same bits up to the end of
    the payload bytes and is long enough to hold the declared codeword;
    adding bits at the end, cutting padding off, or altering the redundancy
    bytes changes nothing. *)
Theorem tryDecodeLinear_tail_irrelevant (linear1 linear2 : list Z) (text : jsString) :
  Decoder.tryDecodeLinear linear1 = Some text ->
  take (88 + 8 * Z.to_nat (payloadLenOf linear1)) linear2
    = take (88 + 8 * Z.to_nat (payloadLenOf linear1)) linear1 ->
  88 + (payloadLenOf linear1 + eccLenOf linear1) * 8 <= Z.of_nat (length linear2) ->
  Decoder.tryDecodeLinear linear2 = Some text.
Proof.
  intros Hdec Htake Hlen2.
  destruct (Nat.lt_ge_cases (length linear1) 88) as [Hshort | Hlong].
  { rewrite tryDecodeLinear_short in Hdec by assumption. discriminate. }
  rewrite tryDecodeLinear_formula in Hdec by assumption.
  destruct (frameAccepted linear1) eqn:Hacc; [| discriminate].
  pose proof (eccLenOf_range linear1 Hlong) as HE.
  pose proof (payloadLenOf_range linear1 Hlong) as HP.
  destruct (frameAccepted_prefix linear1 linear2 Hlong Hacc Htake Hlen2)
    as (_ & Hpay & Hacc2).
  rewrite tryDecodeLinear_formula by lia.
  rewrite Hacc2, Hpay. exact Hdec.
Qed.

Lemma tryDecodeLinear_tail_irrelevant_witness :
  Decoder.tryDecodeLinear (take 384 (frameBits hello 2) ++ replicate 7 1) = Some hello.
Proof.
  apply (tryDecodeLinear_tail_irrelevant (frameBits hello 2)).
  - vm_compute. reflexivity.
  - vm_compute. reflexivity.
  - vm_compute. discriminate.
Defined.
Section FrameFields.
Variables (text : jsString) (eccLevel : Z).
Hypothesis Hfits : Z.of_nat (length (TextEncoder_encode text)) <= maxPayloadBytes eccLevel.

Local Abbreviation textBytes := (TextEncoder_encode text).
Local Abbreviation eccBytes := (eccBytesOf eccLevel).

Lemma payloadLenOf_frameBits :
  payloadLenOf (frameBits text eccLevel) = Z.of_nat (length textBytes).
Proof.
  pose proof (eccBytes_pos eccLevel) as Hecc.
  pose proof (maxPayloadBytes_eq eccLevel) as Hmax.
  unfold payloadLenOf. rewrite headerOf_frameBits, header_eq. cbn [nth].
  apply be16_join. lia.
Qed.

Lemma eccLenOf_frameBits : eccLenOf (frameBits text eccLevel) = eccBytes.
Proof.
  pose proof (eccBytes_pos eccLevel) as Hecc.
  unfold eccLenOf. rewrite headerOf_frameBits, header_eq. cbn [nth].
  apply be16_join. lia.
Qed.

End FrameFields.

(** X3: a flipped bit behind the text bytes is never noticed.  If the
    bits of an accepted text decode to some text, they decode to the same
    text after any one bit at or after position [88 + 8 * (byte length)] is
    inverted, be it in the zero padding or in the redundancy bytes. *)
Theorem tail_bit_flip_unnoticed
    (text decoded : jsString) (eccLevel : Z) (bits : list Z) (p : nat) :
  encodeText text eccLevel = inr bits ->
  Decoder.tryDecodeLinear bits = Some decoded ->
  (88 + 8 * length (TextEncoder_encode text) <= p)%nat ->
  Decoder.tryDecodeLinear (flipBit p bits) = Some decoded.
Proof.
  intros Henc Hdec Hp. apply encodeText_frameBits in Henc as [Hfits ->].
  pose proof (length_frameBits text eccLevel) as Hlen.
  pose proof (payloadLenOf_frameBits text eccLevel Hfits) as HP.
  rewrite tryDecodeLinear_formula in Hdec by lia.
  destruct (frameAccepted (frameBits text eccLevel)) eqn:Hacc; [| discriminate].
  assert (Hlong : (88 <= length (frameBits text eccLevel))%nat) by lia.
  destruct (frameAccepted_bounds _ Hlong Hacc) as (_ & _ & _ & Hbits & _).
  destruct (frameAccepted_prefix (frameBits text eccLevel)
              (flipBit p (frameBits text eccLevel))) as (_ & Hpay & Hacc2).
  - lia.
  - exact Hacc.
  - unfold flipBit. apply take_insert_ge. rewrite HP. lia.
  - rewrite length_flipBit. exact Hbits.
  - rewrite tryDecodeLinear_formula by (rewrite length_flipBit; lia).
    rewrite Hacc2, Hpay. exact Hdec.
Qed.

Lemma tail_bit_flip_unnoticed_witness :
  encodeText hello 2 = inr (frameBits hello 2)
  /\ (88 + 8 * length (TextEncoder_encode hello) <= 1200)%nat
  /\ Decoder.tryDecodeLinear (flipBit 1200 (frameBits hello 2)) = Some hello.
Proof.
  assert (Henc : encodeText hello 2 = inr (frameBits hello 2))
    by (vm_compute; reflexivity).
  assert (Hdec : Decoder.tryDecodeLinear (frameBits hello 2) = Some hello)
    by (vm_compute; reflexivity).
  assert (Hp : (88 + 8 * length (TextEncoder_encode hello) <= 1200)%nat)
    by (vm_compute; lia).
  split; [exact Henc | split; [exact Hp |]].
  exact (tail_bit_flip_unnoticed hello hello 2 (frameBits hello 2) 1200 Henc Hdec Hp).
Defined.

(** X4: a single inverted bit anywhere in the 56 header bits, the checksum
    byte included, is always caught.  For every sequence of bits that holds
    a header with a matching checksum, inverting one bit at a position from
    32 to 87 makes [tryDecodeLinear] return nothing. *)
Theorem header_single_bit_error_rejected (linear : list Z) (p : nat) :
  Forall isBit linear ->
  (88 <= length linear)%nat ->
  Decoder.checksum8 (slice (Decoder.headerOf linear) 0 6)
    = nth 6 (Decoder.headerOf linear) 0 ->
  (32 <= p < 88)%nat ->
  Decoder.tryDecodeLinear (flipBit p linear) = None.
Proof.
  intros Hbits Hlong Hsum Hp.
  apply tryDecodeLinear_checksum_mismatch; [rewrite length_flipBit; exact Hlong |].
  destruct (Nat.lt_ge_cases p 80) as [Hfirst | Hlast].
  - apply flipped_header_checksum; (assumption || lia).
  - pose proof (flipBit_isBit p linear Hbits) as Hbits'.
    assert (H32 : (32 <= 32 < 80)%nat) by lia.
    assert (Hlong' : (88 <= length (flipBit p linear))%nat)
      by (rewrite length_flipBit; exact Hlong).
    destruct (header_checksum linear 32 Hlong H32 linear Hbits Hlong) as [Hc Hs].
    destruct (header_checksum linear 32 Hlong H32 (flipBit p linear) Hbits' Hlong')
      as [-> ->].
    rewrite Hc, Hs in Hsum.
    rewrite !(byteAt_flipBit_outside p) by lia.
    rewrite Hsum. intros Heq.
    apply (byteAt_flipBit_inside p (32 + 8 * 6) linear Hbits); [lia | lia |].
    symmetry. exact Heq.
Qed.

Lemma header_single_bit_error_rejected_witness :
  Decoder.tryDecodeLinear (flipBit 85 (frameBits hello 2)) = None.
Proof.
  apply header_single_bit_error_rejected.
  - apply frameBits_isBit.
  - vm_compute. lia.
  - vm_compute. reflexivity.
  - lia.
Defined.
(** X5: the decoder does not look for the redundancy bytes where the
    encoder puts them.  The encoder writes them behind the payload padded to
    the level's capacity; the decoder takes the [eccLen] bytes that follow
    the text bytes.  For a text short enough ([length + eccBytes] within the
    capacity) the codeword handed to [rsDecodeSimple] is the text bytes
    followed by zero bytes only, while the computed redundancy bytes sit at
    byte offset [maxPayloadBytes] and are never read. *)
Theorem decoder_takes_padding_for_redundancy
    (text : jsString) (eccLevel : Z) (bits : list Z) :
  encodeText text eccLevel = inr bits ->
  wellFormed text = true ->
  Z.of_nat (length (TextEncoder_encode text)) + eccBytesOf eccLevel
    <= maxPayloadBytes eccLevel ->
  Decoder.bitsToBytes (slice bits 88 (88 + (payloadLenOf bits + eccLenOf bits) * 8))
    = TextEncoder_encode text ++ replicate (Z.to_nat (eccBytesOf eccLevel)) 0
  /\ Decoder.bitsToBytes (slice bits (88 + maxPayloadBytes eccLevel * 8) 1344)
     = appendRedundancy
         (TextEncoder_encode text
            ++ replicate (Z.to_nat (maxPayloadBytes eccLevel)
                          - length (TextEncoder_encode text)) 0)
         (Z.to_nat (eccBytesOf eccLevel)).
Proof.
  intros Henc Hwf Hshort. apply encodeText_frameBits in Henc as [Hfits ->].
  pose proof (eccBytes_pos eccLevel) as Hecc.
  pose proof (maxPayloadBytes_eq eccLevel) as Hmax.
  pose proof (TextEncoder_isByte text Hwf) as Hbytes.
  pose proof (payload_eq text eccLevel Hbytes Hfits) as Hpayload.
  pose proof (payload_isByte (maxPayloadBytes eccLevel) (TextEncoder_encode text))
    as Hpaybytes.
  split.
  - rewrite payloadLenOf_frameBits, eccLenOf_frameBits by assumption.
    rewrite codeword_frameBits by assumption.
    rewrite simpleRS_eq by (assumption || lia).
    rewrite Hpayload, <- !app_assoc.
    rewrite take_app_add, take_app_le by (rewrite length_replicate; lia).
    rewrite take_replicate. f_equal. f_equal. lia.
  - unfold frameBits.
    rewrite simpleRS_eq by (assumption || lia).
    rewrite bytesToBits_app, !app_assoc.
    rewrite <- (app_nil_r (bytesToBits (appendRedundancy _ _))).
    rewrite <- !app_assoc. rewrite !app_assoc.
    set (pre := (START_PATTERN_BITS ++ bytesToBits (header _ _ _)) ++ bytesToBits _).
    assert (Hpre : length pre = (88 + 8 * Z.to_nat (maxPayloadBytes eccLevel))%nat).
    { unfold pre. rewrite !length_app, !length_bytesToBits, length_header, length_payload.
      reflexivity. }
    rewrite <- app_assoc.
    replace (88 + maxPayloadBytes eccLevel * 8) with (Z.of_nat (length pre)) by lia.
    replace 1344
      with (Z.of_nat (length pre)
            + Z.of_nat (8 * length (appendRedundancy
                                      (u8set (u8new (maxPayloadBytes eccLevel))
                                             (TextEncoder_encode text))
                                      (Z.to_nat (eccBytesOf eccLevel)))))
      by (unfold appendRedundancy; rewrite length_map, length_seq; lia).
    rewrite bitsToBytes_read_back.
    + rewrite take_ge by lia. rewrite Hpayload. reflexivity.
    + unfold appendRedundancy. apply Forall_map, Forall_forall. intros i _.
      apply toUint8_isByte.
    + lia.
Qed.

Lemma decoder_takes_padding_for_redundancy_witness :
  Decoder.bitsToBytes
    (slice (frameBits hello 2) 88
           (88 + (payloadLenOf (frameBits hello 2) + eccLenOf (frameBits hello 2)) * 8))
  = TextEncoder_encode hello ++ replicate (Z.to_nat (eccBytesOf 2)) 0.
Proof.
  refine (proj1 (decoder_takes_padding_for_redundancy hello 2 (frameBits hello 2) _ _ _)).
  - vm_compute. reflexivity.
  - reflexivity.
  - vm_compute. discriminate.
Defined.

(** X6: no two texts share a code.  If two well-formed texts, at whatever
    levels, are accepted with the same bits, they are the same text. *)
Theorem encodeText_injective
    (text1 text2 : jsString) (eccLevel1 eccLevel2 : Z) (bits : list Z) :
  encodeText text1 eccLevel1 = inr bits ->
  encodeText text2 eccLevel2 = inr bits ->
  wellFormed text1 = true -> wellFormed text2 = true ->
  text1 = text2.
Proof.
  intros Henc1 Henc2 Hwf1 Hwf2.
  apply encodeText_frameBits in Henc1 as [Hfits1 ->].
  apply encodeText_frameBits in Henc2 as [Hfits2 Hsame].
  pose proof (TextEncoder_isByte text1 Hwf1) as Hbytes1.
  pose proof (TextEncoder_isByte text2 Hwf2) as Hbytes2.
  pose proof (eccBytes_pos eccLevel1) as Hecc1.
  assert (Hn : Z.of_nat (length (TextEncoder_encode text1))
               = Z.of_nat (length (TextEncoder_encode text2))).
  { rewrite <- (payloadLenOf_frameBits text1 eccLevel1),
            <- (payloadLenOf_frameBits text2 eccLevel2) by assumption.
    rewrite Hsame. reflexivity. }
  assert (He : eccBytesOf eccLevel1 = eccBytesOf eccLevel2).
  { rewrite <- (eccLenOf_frameBits text1 eccLevel1),
            <- (eccLenOf_frameBits text2 eccLevel2).
    rewrite Hsame. reflexivity. }
  assert (Hread :
    Decoder.bitsToBytes
      (slice (frameBits text1 eccLevel1) 88
             (88 + (Z.of_nat (length (TextEncoder_encode text1)) + eccBytesOf eccLevel1) * 8))
    = Decoder.bitsToBytes
        (slice (frameBits text2 eccLevel2) 88
               (88 + (Z.of_nat (length (TextEncoder_encode text2)) + eccBytesOf eccLevel2) * 8)))
    by (rewrite Hsame, Hn, He; reflexivity).
  rewrite (codeword_frameBits text1 eccLevel1 Hfits1),
          (codeword_frameBits text2 eccLevel2 Hfits2) in Hread.
  assert (Hbytes : TextEncoder_encode text1 = TextEncoder_encode text2).
  { rewrite <- (dataBytes_codeword text1 eccLevel1 Hbytes1 Hfits1).
    rewrite <- (dataBytes_codeword text2 eccLevel2 Hbytes2 Hfits2).
    rewrite Hread, He. reflexivity. }
  rewrite <- (fromCodePoints_toScalarValues text1 Hwf1).
  rewrite <- (fromCodePoints_toScalarValues text2 Hwf2).
  f_equal.
  rewrite <- (utf8Run_flat_map (toScalarValues text1))
    by (apply toScalarValues_isScalar, Hwf1).
  rewrite <- (utf8Run_flat_map (toScalarValues text2))
    by (apply toScalarValues_isScalar, Hwf2).
  unfold TextEncoder_encode in Hbytes. rewrite Hbytes. reflexivity.
Qed.

Lemma encodeText_injective_witness :
  encodeText hello 2 = inr (frameBits hello 2)
  /\ wellFormed hello = true
  /\ hello = hello.
Proof.
  assert (Henc : encodeText hello 2 = inr (frameBits hello 2))
    by (vm_compute; reflexivity).
  assert (Hwf : wellFormed hello = true) by reflexivity.
  split; [exact Henc | split; [exact Hwf |]].
  exact (encodeText_injective hello hello 2 2 (frameBits hello 2) Henc Henc Hwf Hwf).
Defined.

(** X7: the wire format of an accepted text.  Every entry of the result
    is 0 or 1; the first 32 bits alternate 1, 0; the seven header bytes read
    from bits 32 to 87 are 3, the level modulo 256, 0, the byte length of the
    text, 0, the redundancy byte count, and the sum of these modulo 256. *)
Theorem encodeText_wire_format (text : jsString) (eccLevel : Z) (bits : list Z) :
  encodeText text eccLevel = inr bits ->
  Forall isBit bits
  /\ take 32 bits = concat (replicate 16 [1; 0])
  /\ Decoder.headerOf bits
     = [3; eccLevel mod 256; 0; Z.of_nat (length (TextEncoder_encode text)); 0;
        eccBytesOf eccLevel;
        (3 + eccLevel mod 256 + Z.of_nat (length (TextEncoder_encode text))
         + eccBytesOf eccLevel) mod 256].
Proof.
  intros Henc. apply encodeText_frameBits in Henc as [Hfits ->].
  pose proof (eccBytes_pos eccLevel) as Hecc.
  pose proof (maxPayloadBytes_eq eccLevel) as Hmax.
  split; [apply frameBits_isBit |]. split.
  - unfold frameBits. apply take_app_length'. reflexivity.
  - rewrite headerOf_frameBits, header_eq.
    set (n := Z.of_nat (length (TextEncoder_encode text))) in *.
    assert (Hhi : toUint8 (Z.land (Z.shiftr n 8) 0xFF) = 0).
    { rewrite toUint8_land_0xFF, Z.shiftr_div_pow2 by lia. change (2 ^ 8) with 256.
      Z.div_mod_to_equations. lia. }
    assert (Hlo : toUint8 (Z.land n 0xFF) = n).
    { rewrite toUint8_land_0xFF. apply Z.mod_small. lia. }
    assert (Hehi : toUint8 (Z.land (Z.shiftr (eccBytesOf eccLevel) 8) 0xFF) = 0).
    { rewrite toUint8_land_0xFF, Z.shiftr_div_pow2 by lia. change (2 ^ 8) with 256.
      Z.div_mod_to_equations. lia. }
    assert (Helo : toUint8 (Z.land (eccBytesOf eccLevel) 0xFF) = eccBytesOf eccLevel).
    { rewrite toUint8_land_0xFF. apply Z.mod_small. lia. }
    rewrite Hhi, Hlo, Hehi, Helo.
    unfold checksum8. cbn [fold_left]. rewrite toUint8_land_0xFF.
    replace (0 + 3 + toUint8 eccLevel + 0 + n + 0 + eccBytesOf eccLevel)
      with (3 + toUint8 eccLevel + n + eccBytesOf eccLevel) by lia.
    reflexivity.
Qed.

Lemma encodeText_wire_format_witness :
  encodeText hello 2 = inr (frameBits hello 2)
  /\ Decoder.headerOf (frameBits hello 2) = [3; 2; 0; 5; 0; 32; 42].
Proof.
  assert (Henc : encodeText hello 2 = inr (frameBits hello 2))
    by (vm_compute; reflexivity).
  split; [exact Henc |].
  exact (proj2 (proj2 (encodeText_wire_format hello 2 (frameBits hello 2) Henc))).
Defined.

(** ** Bits to bytes and back *)

Section BitsBytesRoundTrip.

Lemma bit_of_toUint8 (b i : Z) :
  0 <= i < 8 -> Z.land (Z.shiftr (toUint8 b) i) 1 = Z.land (Z.shiftr b i) 1.
Proof.
  intros Hi. unfold toUint8. change 256 with (2 ^ 8).
  apply Z.bits_inj'. intros n Hn.
  rewrite !Z.land_spec, !Z.shiftr_spec by lia.
  destruct (Z.eq_dec n 0) as [-> | Hne].
  - rewrite Z.mod_pow2_bits_low by lia. reflexivity.
  - replace (Z.testbit 1 n) with false; [rewrite !andb_false_r; reflexivity |].
    symmetry. apply (Z.bits_above_log2 1 n); cbn; lia.
Qed.

Lemma bytesToBits_toUint8 (bytes : list Z) :
  bytesToBits (map toUint8 bytes) = bytesToBits bytes.
Proof.
  induction bytes as [| b bytes IH]; [reflexivity |].
  cbn [map]. rewrite !bytesToBits_cons, IH.
  rewrite !bit_of_toUint8 by lia. reflexivity.
Qed.

Lemma bitsToBytes_whole (bytes : list Z) :
  Forall isByte bytes -> Decoder.bitsToBytes (bytesToBits bytes) = bytes.
Proof.
  intros Hbytes.
  pose proof (bitsToBytes_read_back [] [] bytes (length bytes) Hbytes (le_n _)) as Hread.
  cbn [app length] in Hread. rewrite app_nil_r in Hread.
  rewrite slice_all in Hread by (rewrite length_bytesToBits; lia).
  rewrite Hread. apply take_ge. lia.
Qed.

(** The first byte, and the bytes of what is left. *)
Lemma bitsToBytes_step (bits : list Z) :
  bits <> [] ->
  Decoder.bitsToBytes bits
  = toUint8 (Decoder.byteAt bits 0) :: Decoder.bitsToBytes (drop 8 bits).
Proof.
  intros Hne. unfold Decoder.bitsToBytes.
  assert (Hlen : (0 < length bits)%nat) by (destruct bits; [contradiction | cbn; lia]).
  rewrite length_drop.
  replace ((length bits + 7) / 8)%nat with (S ((length bits - 8 + 7) / 8))
    by (pose proof (Nat.div_mod_eq (length bits + 7) 8);
        pose proof (Nat.div_mod_eq (length bits - 8 + 7) 8);
        pose proof (Nat.mod_upper_bound (length bits + 7) 8);
        pose proof (Nat.mod_upper_bound (length bits - 8 + 7) 8); lia).
  cbn [seq map]. f_equal.
  rewrite <- seq_shift, map_map. apply map_ext. intros k. f_equal.
  apply byteAt_ext. intros j Hj. unfold bitAt.
  rewrite length_drop, nth_skipn.
  replace (8 * S k + j)%nat with (8 + (8 * k + j))%nat by lia.
  destruct (Nat.ltb_spec (8 + (8 * k + j)) (length bits)),
           (Nat.ltb_spec (8 * k + j) (length bits - 8)); (reflexivity || lia).
Qed.

(** The eight bits of a byte made of eight bits. *)
Lemma bits_of_byteAt (bits : list Z) :
  Forall isBit bits ->
  bytesToBits [toUint8 (Decoder.byteAt bits 0)]
  = [bitAt bits 0; bitAt bits 1; bitAt bits 2; bitAt bits 3;
     bitAt bits 4; bitAt bits 5; bitAt bits 6; bitAt bits 7].
Proof.
  intros Hbits.
  rewrite toUint8_byte by (apply byteAt_isByte; intros j _; apply bitAt_isBit, Hbits).
  rewrite byteAt_value by (intros j _; apply bitAt_isBit, Hbits).
  cbn [Nat.add].
  pose proof (bitAt_isBit bits 0 Hbits) as H0. pose proof (bitAt_isBit bits 1 Hbits) as H1.
  pose proof (bitAt_isBit bits 2 Hbits) as H2. pose proof (bitAt_isBit bits 3 Hbits) as H3.
  pose proof (bitAt_isBit bits 4 Hbits) as H4. pose proof (bitAt_isBit bits 5 Hbits) as H5.
  pose proof (bitAt_isBit bits 6 Hbits) as H6. pose proof (bitAt_isBit bits 7 Hbits) as H7.
  destruct H0 as [-> | ->], H1 as [-> | ->], H2 as [-> | ->], H3 as [-> | ->],
           H4 as [-> | ->], H5 as [-> | ->], H6 as [-> | ->], H7 as [-> | ->];
    reflexivity.
Qed.

Lemma first_eight_bits (bits : list Z) :
  [bitAt bits 0; bitAt bits 1; bitAt bits 2; bitAt bits 3;
   bitAt bits 4; bitAt bits 5; bitAt bits 6; bitAt bits 7]
  = take 8 bits ++ replicate (8 - length bits) 0.
Proof.
  destruct bits as [| x0 [| x1 [| x2 [| x3 [| x4 [| x5 [| x6 [| x7 rest]]]]]]]];
    reflexivity.
Qed.

Lemma bytesToBits_bitsToBytes_pad (n : nat) :
  forall bits : list Z,
    (length bits <= n)%nat -> Forall isBit bits ->
    bytesToBits (Decoder.bitsToBytes bits)
    = bits ++ replicate (8 * ((length bits + 7) / 8) - length bits) 0.
Proof.
  induction n as [| n IH]; intros bits Hn Hbits.
  - destruct bits; [reflexivity | cbn [length] in Hn; lia].
  - destruct (decide (bits = [])) as [-> | Hne]; [reflexivity |].
    assert (Hlen : (0 < length bits)%nat) by (destruct bits; [contradiction | cbn; lia]).
    rewrite bitsToBytes_step by assumption.
    change (bytesToBits (?b :: ?rest)) with (bytesToBits [b] ++ bytesToBits rest).
    rewrite bits_of_byteAt, first_eight_bits by assumption.
    rewrite IH by (rewrite ?length_drop; try lia; apply Forall_drop, Hbits).
    rewrite length_drop.
    pose proof (Nat.div_mod_eq (length bits + 7) 8).
    pose proof (Nat.div_mod_eq (length bits - 8 + 7) 8).
    pose proof (Nat.mod_upper_bound (length bits + 7) 8).
    pose proof (Nat.mod_upper_bound (length bits - 8 + 7) 8).
    destruct (Nat.le_gt_cases 8 (length bits)) as [Hfull | Hpart].
    + replace (8 - length bits)%nat with 0%nat by lia. cbn [replicate].
      rewrite app_nil_r, app_assoc, take_drop.
      f_equal. f_equal. lia.
    + rewrite (take_ge bits) by lia. rewrite (drop_ge bits) by lia.
      cbn [app]. rewrite <- app_assoc. f_equal.
      rewrite <- replicate_add. f_equal. lia.
Qed.

End BitsBytesRoundTrip.

(** X8: bytes written as bits are read back as bytes.  For every list of
    integers [bitsToBytes (bytesToBits l)] is the list of their values modulo
    256, so a list of bytes comes back unchanged. *)
Theorem bitsToBytes_bytesToBits (bytes : list Z) :
  Decoder.bitsToBytes (bytesToBits bytes) = map toUint8 bytes
  /\ (Forall isByte bytes -> Decoder.bitsToBytes (bytesToBits bytes) = bytes).
Proof.
  split.
  - rewrite <- bytesToBits_toUint8. apply bitsToBytes_whole.
    apply Forall_map, Forall_forall. intros b _. apply toUint8_isByte.
  - apply bitsToBytes_whole.
Qed.

(** X9: bits packed into bytes come back padded.  A sequence of bits gives
    [ceil (length / 8)] bytes, and writing these bytes as bits gives the
    sequence again, followed by the zeros that fill its last byte; a sequence
    whose length is a multiple of 8 comes back unchanged. *)
Theorem bytesToBits_bitsToBytes (bits : list Z) :
  Forall isBit bits ->
  length (Decoder.bitsToBytes bits) = ((length bits + 7) / 8)%nat
  /\ bytesToBits (Decoder.bitsToBytes bits)
     = bits ++ replicate (8 * ((length bits + 7) / 8) - length bits) 0
  /\ ((length bits mod 8 = 0)%nat -> bytesToBits (Decoder.bitsToBytes bits) = bits).
Proof.
  intros Hbits. split; [| split].
  - unfold Decoder.bitsToBytes. rewrite length_map, length_seq. reflexivity.
  - apply (bytesToBits_bitsToBytes_pad (length bits)); [lia | exact Hbits].
  - intros Hmult.
    rewrite (bytesToBits_bitsToBytes_pad (length bits)) by (lia || exact Hbits).
    pose proof (Nat.div_mod_eq (length bits + 7) 8).
    pose proof (Nat.div_mod_eq (length bits) 8).
    pose proof (Nat.mod_upper_bound (length bits + 7) 8).
    replace (8 * ((length bits + 7) / 8) - length bits)%nat with 0%nat by lia.
    apply app_nil_r.
Qed.

Lemma bytesToBits_bitsToBytes_witness :
  Forall isBit [1; 0; 1; 1; 0; 0; 0; 1; 1; 1]
  /\ bytesToBits (Decoder.bitsToBytes [1; 0; 1; 1; 0; 0; 0; 1; 1; 1])
     = [1; 0; 1; 1; 0; 0; 0; 1; 1; 1] ++ replicate 6 0.
Proof.
  assert (Hbits : Forall isBit [1; 0; 1; 1; 0; 0; 0; 1; 1; 1])
    by (repeat constructor; unfold isBit; lia).
  split; [exact Hbits |].
  exact (proj1 (proj2 (bytesToBits_bitsToBytes [1; 0; 1; 1; 0; 0; 0; 1; 1; 1] Hbits))).
Defined.
(** ** What the checksum and the redundancy bytes cannot see *)

Section OrderBlind.

Lemma fold_left_add_permutation (l l' : list Z) :
  Permutation l l' ->
  forall a : Z, fold_left (fun sum byte => sum + byte) l a
                = fold_left (fun sum byte => sum + byte) l' a.
Proof.
  induction 1 as [| x l l' _ IH | x y l | l l' l'' _ IH1 _ IH2]; intros a; cbn [fold_left].
  - reflexivity.
  - apply IH.
  - f_equal. lia.
  - rewrite IH1. apply IH2.
Qed.

Lemma xorOfProducts_permutation (p p' : list Z) (factor : Z) :
  Permutation p p' -> xorOfProducts p factor = xorOfProducts p' factor.
Proof.
  induction 1 as [| x l l' _ IH | x y l | l l' l'' _ IH1 _ IH2]; cbn [xorOfProducts].
  - reflexivity.
  - rewrite IH. reflexivity.
  - rewrite <- !Z.lxor_assoc. f_equal. apply Z.lxor_comm.
  - rewrite IH1. exact IH2.
Qed.

Lemma xorOfProducts_zeros (p : list Z) (k : nat) (factor : Z) :
  xorOfProducts (p ++ replicate k 0) factor = xorOfProducts p factor.
Proof.
  induction p as [| b p IH]; cbn [app xorOfProducts].
  - induction k as [| k IHk]; [reflexivity |]. cbn [replicate xorOfProducts].
    rewrite IHk. reflexivity.
  - rewrite IH. reflexivity.
Qed.

Lemma drop_simpleRS (p : list Z) (n : Z) :
  Forall isByte p -> 0 <= n ->
  drop (length p) (simpleRS p n) = appendRedundancy p (Z.to_nat n).
Proof.
  intros Hp Hn. rewrite simpleRS_eq by assumption. apply drop_app_length.
Qed.

End OrderBlind.

(** X10: the header checksum is blind to the order of the bytes.  The
    checksum of a list of bytes is a byte, the encoder's and the decoder's
    [checksum8] agree on it, and it is the same for every rearrangement of
    the list, so exchanged header bytes are never caught by it. *)
Theorem checksum8_permutation (bytes bytes' : list Z) :
  Permutation bytes bytes' ->
  Decoder.checksum8 bytes = Decoder.checksum8 bytes'
  /\ checksum8 bytes = Decoder.checksum8 bytes
  /\ isByte (Decoder.checksum8 bytes).
Proof.
  intros Hperm. split; [| split].
  - unfold Decoder.checksum8. f_equal. apply fold_left_add_permutation, Hperm.
  - reflexivity.
  - unfold Decoder.checksum8. rewrite land_0xFF. apply toUint8_isByte.
Qed.

Lemma checksum8_permutation_witness :
  Permutation [3; 2; 0; 5; 0; 32] [3; 2; 5; 0; 32; 0]
  /\ Decoder.checksum8 [3; 2; 0; 5; 0; 32] = Decoder.checksum8 [3; 2; 5; 0; 32; 0].
Proof.
  assert (Hperm : Permutation [3; 2; 0; 5; 0; 32] [3; 2; 5; 0; 32; 0]).
  { do 2 apply perm_skip.
    apply perm_trans with (l' := [5; 0; 0; 32]); [apply perm_swap |].
    apply perm_skip, perm_skip, perm_swap. }
  split; [exact Hperm |].
  exact (proj1 (checksum8_permutation _ _ Hperm)).
Defined.

(** X11: the redundancy bytes of [simpleRS] are blind to the order of the
    payload bytes and to zero bytes added at its end: rearranging the
    payload, or padding it with zeros, leaves every redundancy byte as it
    was. *)
Theorem simpleRS_redundancy_order_blind (payload payload' : list Z) (n : Z) (k : nat) :
  Forall isByte payload -> Permutation payload payload' -> 0 <= n ->
  drop (length payload') (simpleRS payload' n) = drop (length payload) (simpleRS payload n)
  /\ drop (length payload + k) (simpleRS (payload ++ replicate k 0) n)
     = drop (length payload) (simpleRS payload n).
Proof.
  intros Hbytes Hperm Hn.
  assert (Hbytes' : Forall isByte payload').
  { rewrite Forall_forall in *. intros b Hb. apply Hbytes.
    rewrite list_elem_of_In in *. eapply Permutation_in; [symmetry |]; eassumption. }
  assert (Hpadded : Forall isByte (payload ++ replicate k 0)).
  { apply Forall_app. split; [exact Hbytes |].
    apply Forall_replicate. unfold isByte. lia. }
  split.
  - rewrite !drop_simpleRS by assumption.
    unfold appendRedundancy. apply map_ext. intros i. unfold redundancyByte.
    f_equal. symmetry. apply xorOfProducts_permutation, Hperm.
  - replace (length payload + k)%nat with (length (payload ++ replicate k 0))
      by (rewrite length_app, length_replicate; reflexivity).
    rewrite !drop_simpleRS by assumption.
    unfold appendRedundancy. apply map_ext. intros i. unfold redundancyByte.
    f_equal. apply xorOfProducts_zeros.
Qed.

Lemma simpleRS_redundancy_order_blind_witness :
  drop 3 (simpleRS [7; 200; 13] 4) = drop 3 (simpleRS [200; 13; 7] 4).
Proof.
  assert (Hbytes : Forall isByte [200; 13; 7])
    by (repeat constructor; unfold isByte; lia).
  assert (Hperm : Permutation [200; 13; 7] [7; 200; 13]).
  { apply perm_trans with (l' := [200; 7; 13]); [apply perm_skip, perm_swap | apply perm_swap]. }
  assert (Hn : 0 <= 4) by lia.
  exact (proj1 (simpleRS_redundancy_order_blind [200; 13; 7] [7; 200; 13] 4 0
                  Hbytes Hperm Hn)).
Defined.

(** ** Which wedges are drawn *)

Section RenderLayout.

Lemma map_filter_seq_ext {B : Type} (f g : nat -> B) (P : nat -> Prop)
    `{forall k, Decision (P k)} (a n : nat) :
  (forall k : nat, (a <= k < a + n)%nat -> f k = g k) ->
  map f (filter P (seq a n)) = map g (filter P (seq a n)).
Proof.
  intros Hfg. apply map_ext_in. intros k Hk.
  apply list_elem_of_In, list_elem_of_filter in Hk as [_ Hk].
  apply elem_of_seq in Hk. apply Hfg. lia.
Qed.

(** One ring: the bits [bitIndex, bitIndex + 1, ...] that are 1, as far as
    the ring and the bits reach. *)
Lemma sectorLoop_eq (bits : list Z) (ringIdx todo : nat) :
  forall s bitIndex : nat,
    Render.sectorLoop bits ringIdx todo s bitIndex
    = (map (fun k => (ringIdx, s + (k - bitIndex))%nat)
           (filter (fun k => nth k bits 0 = 1)
                   (seq bitIndex (Nat.min todo (length bits - bitIndex)))),
       (bitIndex + Nat.min todo (length bits - bitIndex))%nat).
Proof.
  induction todo as [| todo IH]; intros s bitIndex.
  - cbn [Render.sectorLoop Nat.min seq]. rewrite Nat.add_0_r. reflexivity.
  - cbn [Render.sectorLoop].
    destruct (Nat.ltb_spec bitIndex (length bits)) as [Hin | Hout].
    + rewrite IH.
      replace (Nat.min (S todo) (length bits - bitIndex))
        with (S (Nat.min todo (length bits - S bitIndex))) by lia.
      cbn [seq]. f_equal; [| lia].
      rewrite (map_filter_seq_ext
                 (fun k => (ringIdx, S s + (k - S bitIndex))%nat)
                 (fun k => (ringIdx, s + (k - bitIndex))%nat))
        by (intros k Hk; f_equal; lia).
      destruct (Z.eqb_spec (nth bitIndex bits 0) 1) as [Hone | Hzero].
      * rewrite filter_cons_True by exact Hone. cbn [map app].
        f_equal. f_equal. lia.
      * rewrite filter_cons_False by exact Hzero. reflexivity.
    + replace (length bits - bitIndex)%nat with 0%nat by lia.
      rewrite Nat.min_0_r, Nat.add_0_r. reflexivity.
Qed.

Lemma wedgeAt_ring (k : nat) :
  (k < 1344)%nat ->
  ((0 <= k < 128)%nat /\ wedgeAt k = (0, k - 0)%nat)
  \/ ((128 <= k < 320)%nat /\ wedgeAt k = (1, k - 128)%nat)
  \/ ((320 <= k < 576)%nat /\ wedgeAt k = (2, k - 320)%nat)
  \/ ((576 <= k < 832)%nat /\ wedgeAt k = (3, k - 576)%nat)
  \/ ((832 <= k < 1088)%nat /\ wedgeAt k = (4, k - 832)%nat)
  \/ ((1088 <= k < 1344)%nat /\ wedgeAt k = (5, k - 1088)%nat).
Proof.
  intros Hk. unfold wedgeAt.
  destruct (Nat.ltb_spec k 128); [left; split; [lia | f_equal; lia] |].
  destruct (Nat.ltb_spec k 320); [right; left; split; [lia | reflexivity] |].
  destruct (Nat.ltb_spec k 576); [do 2 right; left; split; [lia | reflexivity] |].
  destruct (Nat.ltb_spec k 832); [do 3 right; left; split; [lia | reflexivity] |].
  destruct (Nat.ltb_spec k 1088); [do 4 right; left; split; [lia | reflexivity] |].
  do 5 right. split; [lia | reflexivity].
Qed.

(** A ring's share of the wedges, in terms of [wedgeAt]. *)
Lemma ring_piece (bits : list Z) (ringIdx start count offset : nat) :
  (count = 0 \/ start = offset)%nat ->
  (forall k : nat, (offset <= k < offset + count)%nat ->
                   wedgeAt k = (ringIdx, k - offset)%nat) ->
  map (fun k => (ringIdx, 0 + (k - start))%nat)
      (filter (fun k => nth k bits 0 = 1) (seq start count))
  = map wedgeAt (filter (fun k => nth k bits 0 = 1) (seq start count)).
Proof.
  intros [-> | ->] Hring; [reflexivity |].
  apply map_filter_seq_ext. intros k Hk. rewrite Hring by lia. reflexivity.
Qed.

Lemma wedges_eq (bits : list Z) :
  Render.wedges bits
  = map wedgeAt
        (filter (fun k => nth k bits 0 = 1) (seq 0 (Nat.min (length bits) 1344))).
Proof.
  unfold Render.wedges, SECTORS. cbn [Render.ringLoop].
  rewrite !sectorLoop_eq. cbn [app].
  change (Z.to_nat 128) with 128%nat. change (Z.to_nat 192) with 192%nat.
  change (Z.to_nat 256) with 256%nat.
  remember (length bits) as len eqn:Hlen.
  remember (Nat.min 128 (len - 0)) as m0 eqn:Hm0.
  remember (0 + m0)%nat as b1 eqn:Hb1.
  remember (Nat.min 192 (len - b1)) as m1 eqn:Hm1.
  remember (b1 + m1)%nat as b2 eqn:Hb2.
  remember (Nat.min 256 (len - b2)) as m2 eqn:Hm2.
  remember (b2 + m2)%nat as b3 eqn:Hb3.
  remember (Nat.min 256 (len - b3)) as m3 eqn:Hm3.
  remember (b3 + m3)%nat as b4 eqn:Hb4.
  remember (Nat.min 256 (len - b4)) as m4 eqn:Hm4.
  remember (b4 + m4)%nat as b5 eqn:Hb5.
  remember (Nat.min 256 (len - b5)) as m5 eqn:Hm5.
  replace (Nat.min len 1344) with (m0 + (m1 + (m2 + (m3 + (m4 + m5)))))%nat by lia.
  rewrite !seq_app, !filter_app, !map_app, app_nil_r.
  rewrite <- Hb1, <- Hb2, <- Hb3, <- Hb4, <- Hb5.
  assert (Hring : forall k, (k < 1344)%nat -> _) by exact wedgeAt_ring.
  f_equal; [| f_equal; [| f_equal; [| f_equal; [| f_equal]]]].
  - apply (ring_piece bits 0 0 m0 0); [lia |].
    intros k Hk. destruct (Hring k) as [[? ->] | [[? ?] | [[? ?] | [[? ?] | [[? ?] | [? ?]]]]]];
      (reflexivity || lia).
  - apply (ring_piece bits 1 b1 m1 128); [lia |].
    intros k Hk. destruct (Hring k) as [[? ?] | [[? ->] | [[? ?] | [[? ?] | [[? ?] | [? ?]]]]]];
      (reflexivity || lia).
  - apply (ring_piece bits 2 b2 m2 320); [lia |].
    intros k Hk. destruct (Hring k) as [[? ?] | [[? ?] | [[? ->] | [[? ?] | [[? ?] | [? ?]]]]]];
      (reflexivity || lia).
  - apply (ring_piece bits 3 b3 m3 576); [lia |].
    intros k Hk. destruct (Hring k) as [[? ?] | [[? ?] | [[? ?] | [[? ->] | [[? ?] | [? ?]]]]]];
      (reflexivity || lia).
  - apply (ring_piece bits 4 b4 m4 832); [lia |].
    intros k Hk. destruct (Hring k) as [[? ?] | [[? ?] | [[? ?] | [[? ?] | [[? ->] | [? ?]]]]]];
      (reflexivity || lia).
  - apply (ring_piece bits 5 b5 m5 1088); [lia |].
    intros k Hk. destruct (Hring k) as [[? ?] | [[? ?] | [[? ?] | [[? ?] | [[? ?] | [? ->]]]]]];
      (reflexivity || lia).
Qed.

End RenderLayout.
Section RenderSample.

Ltac ring_consts r :=
  let v := eval vm_compute in (ringStart r) in
  let w := eval vm_compute in (ringSize r) in
  change (ringStart r) with v in *; change (ringSize r) with w in *.

Lemma six_rings (ri : nat) :
  (ri < 6)%nat -> ri = 0%nat \/ ri = 1%nat \/ ri = 2%nat \/ ri = 3%nat \/ ri = 4%nat \/ ri = 5%nat.
Proof. lia. Qed.

(** [wedgeAt] and the table of sector counts say the same. *)
Lemma wedgeAt_ringStart (ri s : nat) :
  (ri < 6)%nat -> (s < ringSize ri)%nat -> wedgeAt (ringStart ri + s) = (ri, s).
Proof.
  intros Hri Hs.
  destruct (six_rings ri Hri) as [-> | [-> | [-> | [-> | [-> | ->]]]]];
    match goal with |- wedgeAt (ringStart ?r + s) = _ => ring_consts r end;
    match goal with
    | |- wedgeAt ?k = _ =>
        destruct (wedgeAt_ring k ltac:(lia))
          as [[? E] | [[? E] | [[? E] | [[? E] | [[? E] | [? E]]]]]]
    end;
    try lia; rewrite E; f_equal; lia.
Qed.

Lemma wedgeAt_inv (k : nat) :
  (k < 1344)%nat ->
  (fst (wedgeAt k) < 6)%nat
  /\ (snd (wedgeAt k) < ringSize (fst (wedgeAt k)))%nat
  /\ k = (ringStart (fst (wedgeAt k)) + snd (wedgeAt k))%nat.
Proof.
  intros Hk.
  destruct (wedgeAt_ring k Hk) as [[? E] | [[? E] | [[? E] | [[? E] | [[? E] | [? E]]]]]];
    rewrite E; cbn [fst snd];
    match goal with |- (?r < 6)%nat /\ _ => ring_consts r end; lia.
Qed.

(** With all 1344 bits present, a wedge is drawn exactly when its bit
    is 1. *)
Lemma wedge_drawn_iff (bits : list Z) (ri s : nat) :
  length bits = 1344%nat -> (ri < 6)%nat -> (s < ringSize ri)%nat ->
  (ri, s) ∈ Render.wedges bits <-> nth (ringStart ri + s) bits 0 = 1.
Proof.
  intros Hlen Hri Hs. rewrite wedges_eq, Hlen. change (Nat.min 1344 1344) with 1344%nat.
  rewrite list_elem_of_fmap. split.
  - intros (k & Hw & Hk). apply list_elem_of_filter in Hk as [Hone Hk].
    apply elem_of_seq in Hk.
    destruct (wedgeAt_inv k) as (_ & _ & Hpos); [lia |].
    rewrite <- Hw in Hpos. cbn [fst snd] in Hpos. rewrite <- Hpos. exact Hone.
  - intros Hone. exists (ringStart ri + s)%nat. split.
    + symmetry. apply wedgeAt_ringStart; assumption.
    + apply list_elem_of_filter. split; [exact Hone |].
      apply elem_of_seq.
      destruct (six_rings ri Hri) as [-> | [-> | [-> | [-> | [-> | ->]]]]];
        match goal with |- context [ringStart ?r] => ring_consts r end; lia.
Qed.

Lemma map_nth_from (l : list Z) (start count : nat) :
  (start + count <= length l)%nat ->
  map (fun s => nth (start + s) l 0) (seq 0 count) = take count (drop start l).
Proof.
  intros Hlen. rewrite <- map_nth_seq by (rewrite length_drop; lia).
  apply map_ext. intros s. symmetry. apply nth_skipn.
Qed.

(** The bits sampled without noise from ring [ri] are the ring's share of
    the bits. *)
Lemma ideal_ring (bits : list Z) (ri : nat) :
  length bits = 1344%nat -> Forall isBit bits -> (ri < 6)%nat ->
  map (fun s => if decide ((ri, s) ∈ Render.wedges bits) then 1 else 0)
      (seq 0 (ringSize ri))
  = take (ringSize ri) (drop (ringStart ri) bits).
Proof.
  intros Hlen Hbits Hri.
  rewrite <- map_nth_from.
  - apply map_ext_in. intros s Hs. apply in_seq in Hs.
    pose proof (wedge_drawn_iff bits ri s Hlen Hri ltac:(lia)) as Hiff.
    destruct (decide ((ri, s) ∈ Render.wedges bits)) as [Hin | Hout].
    + symmetry. apply Hiff, Hin.
    + pose proof (bitAt_isBit bits (ringStart ri + s) Hbits) as Hbit.
      unfold bitAt in Hbit.
      destruct (Nat.ltb_spec (ringStart ri + s) (length bits)) as [_ | Hover].
      * destruct Hbit as [-> | Hone]; [reflexivity |].
        exfalso. apply Hout, Hiff, Hone.
      * rewrite nth_overflow by lia. reflexivity.
  - rewrite Hlen.
    destruct (six_rings ri Hri) as [-> | [-> | [-> | [-> | [-> | ->]]]]];
      match goal with |- context [ringStart ?r] => ring_consts r end; lia.
Qed.

Lemma flatten_concat (ringBits : list (list Z)) : flatten ringBits = concat ringBits.
Proof.
  unfold flatten.
  assert (Hgen : forall acc, fold_left (fun linear ring => linear ++ ring) ringBits acc
                             = acc ++ concat ringBits).
  { induction ringBits as [| ring more IH]; intros acc; cbn [fold_left concat].
    - symmetry. apply app_nil_r.
    - rewrite IH, app_assoc. reflexivity. }
  apply Hgen.
Qed.

(** Drawing the bits and sampling every sector without noise gives the
    bits back. *)
Lemma flatten_idealRingBits (bits : list Z) :
  length bits = 1344%nat -> Forall isBit bits ->
  flatten (idealRingBits (Render.wedges bits)) = bits.
Proof.
  intros Hlen Hbits. rewrite flatten_concat. unfold idealRingBits.
  change (seq 0 (length SECTORS)) with [0; 1; 2; 3; 4; 5]%nat.
  cbn [map concat].
  fold (ringSize 0) (ringSize 1) (ringSize 2) (ringSize 3) (ringSize 4) (ringSize 5).
  rewrite !ideal_ring by (assumption || lia).
  change (ringStart 0) with 0%nat. change (ringSize 0) with 128%nat.
  change (ringStart 1) with (0 + 128)%nat. change (ringSize 1) with 192%nat.
  change (ringStart 2) with (0 + 128 + 192)%nat. change (ringSize 2) with 256%nat.
  change (ringStart 3) with (0 + 128 + 192 + 256)%nat. change (ringSize 3) with 256%nat.
  change (ringStart 4) with (0 + 128 + 192 + 256 + 256)%nat.
  change (ringSize 4) with 256%nat.
  change (ringStart 5) with (0 + 128 + 192 + 256 + 256 + 256)%nat.
  change (ringSize 5) with 256%nat.
  rewrite app_nil_r.
  rewrite (take_ge (drop (0 + 128 + 192 + 256 + 256 + 256) bits))
    by (rewrite length_drop, Hlen; apply Nat.leb_le; vm_compute; reflexivity).
  rewrite <- !drop_drop.
  rewrite !take_drop. reflexivity.
Qed.

End RenderSample.
(** X12: which wedges are drawn.  Both renderers draw one wedge for every
    bit equal to 1 among the first 1344 bits, in the order of the bits: bit
    [k] goes to ring 0 (sectors 0..127) for [k < 128], then to rings 1 to 5
    starting at bits 128, 320, 576, 832 and 1088.  Entries other than 1 and
    bits past 1344 draw nothing, a shorter sequence is drawn as far as it
    reaches, and every wedge drawn is a sector of the layout. *)
Theorem wedges_layout (bits : list Z) :
  Render.wedges bits
  = map wedgeAt
        (filter (fun k => nth k bits 0 = 1) (seq 0 (Nat.min (length bits) 1344)))
  /\ forall ri s : nat,
       (ri, s) ∈ Render.wedges bits ->
       (ri < length SECTORS)%nat /\ Z.of_nat s < nth ri SECTORS 0.
Proof.
  split; [apply wedges_eq |].
  intros ri s Hin. rewrite wedges_eq in Hin.
  apply list_elem_of_fmap in Hin as (k & Hw & Hk).
  apply list_elem_of_filter in Hk as [_ Hk]. apply elem_of_seq in Hk.
  destruct (wedgeAt_inv k) as (Hring & Hsector & _); [lia |].
  rewrite <- Hw in Hring, Hsector. cbn [fst snd] in Hring, Hsector.
  split; [exact Hring |]. unfold ringSize in Hsector.
  destruct (six_rings ri Hring) as [-> | [-> | [-> | [-> | [-> | ->]]]]];
    cbn in Hsector |- *; lia.
Qed.

(** X13: drawing and noiseless sampling are inverse.  For a full sequence
    of 1344 bits, sampling every ring so that a sector reads 1 exactly when
    its wedge was drawn, and flattening the rings as the decoder does, gives
    the sequence back: renderer and decoder agree on the order of the bits. *)
Theorem render_then_sample (bits : list Z) :
  length bits = 1344%nat -> Forall isBit bits ->
  flatten (idealRingBits (Render.wedges bits)) = bits.
Proof. intros Hlen Hbits. apply flatten_idealRingBits; assumption. Qed.

Lemma render_then_sample_witness :
  length (frameBits hello 2) = 1344%nat
  /\ flatten (idealRingBits (Render.wedges (frameBits hello 2))) = frameBits hello 2.
Proof.
  assert (Hlen : length (frameBits hello 2) = 1344%nat) by (vm_compute; reflexivity).
  split; [exact Hlen |].
  exact (render_then_sample (frameBits hello 2) Hlen (frameBits_isBit hello 2)).
Defined.

(** ** The sweep *)

Section SweepOrder.
Variable thresholded : nat -> Sweep.ThreshMode -> float -> nat -> Z -> Z -> list Z.

Lemma firstResult_ext {A : Type} (items : list A) (body body' : A -> option jsString) :
  (forall x, body x = body' x) ->
  Sweep.firstResult items body = Sweep.firstResult items body'.
Proof.
  intros Hext. induction items as [| x items IH]; cbn [Sweep.firstResult]; [reflexivity |].
  rewrite Hext, IH. reflexivity.
Qed.

Lemma firstResult_app {A : Type} (items items' : list A) (body : A -> option jsString) :
  Sweep.firstResult (items ++ items') body
  = match Sweep.firstResult items body with
    | Some text => Some text
    | None => Sweep.firstResult items' body
    end.
Proof.
  induction items as [| x items IH]; cbn [app Sweep.firstResult]; [reflexivity |].
  destruct (body x); [reflexivity | exact IH].
Qed.

(** Nested loops visit the items of the flattened list. *)
Lemma firstResult_flat_map {A B : Type} (f : A -> list B) (items : list A)
    (body : B -> option jsString) :
  Sweep.firstResult (flat_map f items) body
  = Sweep.firstResult items (fun x => Sweep.firstResult (f x) body).
Proof.
  induction items as [| x items IH]; cbn [flat_map Sweep.firstResult]; [reflexivity |].
  rewrite firstResult_app, IH. reflexivity.
Qed.

Lemma firstResult_map {A B : Type} (g : A -> B) (items : list A)
    (body : B -> option jsString) :
  Sweep.firstResult (map g items) body = Sweep.firstResult items (fun x => body (g x)).
Proof.
  induction items as [| x items IH]; cbn [map Sweep.firstResult]; [reflexivity |].
  rewrite IH. reflexivity.
Qed.

Lemma decodeRingCodeFromImage_sweepOrder :
  Sweep.decodeRingCodeFromImage thresholded
  = Sweep.firstResult sweepOrder
      (fun h => Decoder.tryDecodeLinear (candidateOf thresholded h)).
Proof.
  unfold sweepOrder, Sweep.decodeRingCodeFromImage.
  rewrite firstResult_flat_map. apply firstResult_ext. intros vi.
  rewrite firstResult_flat_map. apply firstResult_ext. intros inv.
  rewrite firstResult_flat_map. apply firstResult_ext. intros bias.
  rewrite firstResult_flat_map. apply firstResult_ext. intros threshMode.
  rewrite firstResult_map. reflexivity.
Qed.

(** The first item that gives a text decides. *)
Lemma firstResult_Some {A : Type} (items : list A) (body : A -> option jsString)
    (text : jsString) :
  Sweep.firstResult items body = Some text
  <-> exists before x after,
        items = before ++ x :: after
        /\ Forall (fun y => body y = None) before
        /\ body x = Some text.
Proof.
  induction items as [| y items IH]; cbn [Sweep.firstResult].
  - split; [discriminate |]. intros (before & x & after & Heq & _).
    destruct before; discriminate.
  - destruct (body y) as [t |] eqn:Hy.
    + split.
      * intros Heq. exists [], y, items. repeat split; [constructor | congruence].
      * intros (before & x & after & Heq & Hnone & Hx).
        destruct before as [| z before]; cbn [app] in Heq;
          injection Heq as -> ->; [congruence |].
        apply Forall_cons in Hnone as [Hz _]. congruence.
    + rewrite IH. split.
      * intros (before & x & after & -> & Hnone & Hx).
        exists (y :: before), x, after. repeat split; [| exact Hx].
        constructor; assumption.
      * intros (before & x & after & Heq & Hnone & Hx).
        destruct before as [| z before]; cbn [app] in Heq;
          injection Heq as -> ->; [congruence |].
        apply Forall_cons in Hnone as [_ Hnone].
        exists before, x, after. repeat split; assumption.
Qed.

Lemma firstResult_None {A : Type} (items : list A) (body : A -> option jsString) :
  Sweep.firstResult items body = None <-> Forall (fun y => body y = None) items.
Proof.
  induction items as [| y items IH]; cbn [Sweep.firstResult].
  - split; [constructor | reflexivity].
  - rewrite Forall_cons. destruct (body y) as [t |].
    + split; [discriminate | intros [Hy _]; discriminate].
    + rewrite IH. tauto.
Qed.

Lemma sweepOrder_elem (vi : nat) (inv : bool) (bias : float)
    (threshMode : Sweep.ThreshMode) (s0 : Z) :
  (vi < 5)%nat -> In bias Sweep.biases -> In s0 Sweep.anchors ->
  In (vi, inv, bias, threshMode, s0) sweepOrder.
Proof.
  intros Hvi Hbias Hs0. unfold sweepOrder.
  apply in_flat_map. exists vi. split; [apply in_seq; lia |].
  apply in_flat_map. exists inv. split; [destruct inv; cbn; tauto |].
  apply in_flat_map. exists bias. split; [exact Hbias |].
  apply in_flat_map. exists threshMode. split; [destruct threshMode; cbn; tauto |].
  apply in_map. exact Hs0.
Qed.

(** With the polarity flag set, every sampled entry [b] becomes [1 - b]. *)
Lemma linearOf_inverted (vi : nat) (bias : float) (threshMode : Sweep.ThreshMode) (s0 : Z) :
  Sweep.linearOf thresholded vi true bias threshMode s0
  = map (fun b => 1 - b) (Sweep.linearOf thresholded vi false bias threshMode s0).
Proof.
  unfold Sweep.linearOf. rewrite !flatten_concat.
  induction (seq 0 (length SECTORS)) as [| ri rings IH]; [reflexivity |].
  cbn [map concat]. rewrite map_app, IH. reflexivity.
Qed.

End SweepOrder.

(** X14: the sweep tries 3200 hypotheses in a fixed order, variant
    outermost and anchor innermost, and the first one whose bits
    [tryDecodeLinear] accepts decides: the result is a text exactly when some
    hypothesis gives it and every hypothesis before that one gives nothing,
    and there is no result exactly when every hypothesis gives nothing. *)
Theorem sweep_first_wins
    (thresholded : nat -> Sweep.ThreshMode -> float -> nat -> Z -> Z -> list Z)
    (text : jsString) :
  length sweepOrder = 3200%nat
  /\ (Sweep.decodeRingCodeFromImage thresholded = Some text
      <-> exists before h after,
            sweepOrder = before ++ h :: after
            /\ Forall (fun h' => Decoder.tryDecodeLinear (candidateOf thresholded h') = None)
                      before
            /\ Decoder.tryDecodeLinear (candidateOf thresholded h) = Some text)
  /\ (Sweep.decodeRingCodeFromImage thresholded = None
      <-> Forall (fun h => Decoder.tryDecodeLinear (candidateOf thresholded h) = None)
                 sweepOrder).
Proof.
  split; [vm_compute; reflexivity |].
  rewrite decodeRingCodeFromImage_sweepOrder. split.
  - apply firstResult_Some.
  - apply firstResult_None.
Qed.

(** X15: a capture with the two colours exchanged is read.  With the
    polarity flag set the sweep hands [tryDecodeLinear] every sampled entry
    [b] as [1 - b]; so when the bits sampled at some hypothesis are the
    complement of a sequence that [tryDecodeLinear] accepts, the sweep
    returns a text. *)
Theorem sweep_reads_inverted_polarity
    (thresholded : nat -> Sweep.ThreshMode -> float -> nat -> Z -> Z -> list Z)
    (vi : nat) (bias : float) (threshMode : Sweep.ThreshMode) (s0 : Z)
    (bits : list Z) (text : jsString) :
  (vi < 5)%nat -> In bias Sweep.biases -> In s0 Sweep.anchors ->
  Sweep.linearOf thresholded vi false bias threshMode s0 = map (fun b => 1 - b) bits ->
  Decoder.tryDecodeLinear bits = Some text ->
  Sweep.linearOf thresholded vi true bias threshMode s0 = bits
  /\ Sweep.decodeRingCodeFromImage thresholded <> None.
Proof.
  intros Hvi Hbias Hs0 Hsampled Hdec.
  assert (Hinv : Sweep.linearOf thresholded vi true bias threshMode s0 = bits).
  { rewrite linearOf_inverted, Hsampled, map_map.
    rewrite <- (map_id bits) at 2. apply map_ext. intros b. lia. }
  split; [exact Hinv |].
  rewrite decodeRingCodeFromImage_sweepOrder, firstResult_None.
  intros Hnone. rewrite Forall_forall in Hnone.
  specialize (Hnone (vi, true, bias, threshMode, s0)).
  cbn [candidateOf] in Hnone. rewrite Hinv, Hdec in Hnone.
  enough (Some text = None) by discriminate.
  apply Hnone, list_elem_of_In, sweepOrder_elem; assumption.
Qed.

Lemma sweep_reads_inverted_polarity_witness :
  Sweep.decodeRingCodeFromImage
    (fun _ _ _ ri n _ =>
       map (fun b => 1 - b) (take (Z.to_nat n) (drop (ringStart ri) (frameBits hello 2))))
  <> None.
Proof.
  refine (proj2 (sweep_reads_inverted_polarity _ 0 0x1p+0%float Sweep.pct 0
                   (frameBits hello 2) hello _ _ _ _ _)).
  - lia.
  - left. reflexivity.
  - left. reflexivity.
  - vm_compute. reflexivity.
  - vm_compute. reflexivity.
Defined.

(** The frame of a text that meets the conditions of the round trip is
    decoded to the text. *)
Lemma frameBits_round_trip (text : jsString) (eccLevel : Z) :
  text <> [] -> wellFormed text = true -> hd 0 text <> 0xFEFF ->
  Z.of_nat (length (TextEncoder_encode text)) <= maxPayloadBytes eccLevel ->
  5 * Decoder.countEq 0 (TextEncoder_encode text)
    <= 4 * Z.of_nat (length (TextEncoder_encode text)) ->
  Decoder.tryDecodeLinear (frameBits text eccLevel) = Some text.
Proof.
  intros Hne Hwf Hbom Hfits Hzeros.
  pose proof (TextEncoder_nonempty text Hwf Hne) as Hpos.
  rewrite tryDecodeLinear_frameBits.
  - rewrite TextDecoder_TextEncoder by assumption. reflexivity.
  - apply TextEncoder_isByte, Hwf.
  - exact Hfits.
  - lia.
  - exact Hzeros.
  - rewrite TextEncoder_no_0xFF by assumption. lia.
Qed.

(** X16: the round trip through drawing and the sweep.  Take a text that
    is not empty, is well formed, does not begin with U+FEFF, fits the level
    and has at most 80% zero bytes, and draw its bits.  If the first
    hypothesis of the sweep (first variant, polarity as drawn, bias 1, the
    percentile mode, anchor 0) samples every sector as drawn, then
    [decodeRingCodeFromImage] returns the text. *)
Theorem sweep_reads_noiseless_capture
    (thresholded : nat -> Sweep.ThreshMode -> float -> nat -> Z -> Z -> list Z)
    (text : jsString) (eccLevel : Z) (bits : list Z) :
  encodeText text eccLevel = inr bits ->
  text <> [] -> wellFormed text = true -> hd 0 text <> 0xFEFF ->
  5 * Decoder.countEq 0 (TextEncoder_encode text)
    <= 4 * Z.of_nat (length (TextEncoder_encode text)) ->
  (forall ri : nat,
      (ri < length SECTORS)%nat ->
      thresholded 0%nat Sweep.pct 0x1p+0%float ri (nth ri SECTORS 0) 0
      = nth ri (idealRingBits (Render.wedges bits)) []) ->
  Sweep.decodeRingCodeFromImage thresholded = Some text.
Proof.
  intros Henc Hne Hwf Hbom Hzeros Hsampled.
  apply encodeText_frameBits in Henc as [Hfits ->].
  assert (Hlinear :
    Sweep.linearOf thresholded 0 false 0x1p+0%float Sweep.pct 0 = frameBits text eccLevel).
  { rewrite <- (flatten_idealRingBits (frameBits text eccLevel))
      by (apply length_frameBits || apply frameBits_isBit).
    unfold Sweep.linearOf. f_equal.
    change (seq 0 (length SECTORS)) with [0; 1; 2; 3; 4; 5]%nat.
    cbn [map].
    change (0 * nth 0 SECTORS 0 / nth 0 SECTORS 0) with 0.
    change (0 * nth 1 SECTORS 0 / nth 0 SECTORS 0) with 0.
    change (0 * nth 2 SECTORS 0 / nth 0 SECTORS 0) with 0.
    change (0 * nth 3 SECTORS 0 / nth 0 SECTORS 0) with 0.
    change (0 * nth 4 SECTORS 0 / nth 0 SECTORS 0) with 0.
    change (0 * nth 5 SECTORS 0 / nth 0 SECTORS 0) with 0.
    rewrite !Hsampled by (cbn; lia).
    unfold idealRingBits.
    change (seq 0 (length SECTORS)) with [0; 1; 2; 3; 4; 5]%nat.
    reflexivity. }
  unfold Sweep.decodeRingCodeFromImage.
  change (seq 0 5) with (0 :: seq 1 4)%nat.
  change Sweep.biases with (0x1p+0%float :: tl Sweep.biases).
  let v := eval vm_compute in Sweep.anchors in
  change Sweep.anchors with (0 :: tl v).
  cbn [Sweep.firstResult].
  rewrite Hlinear, frameBits_round_trip by assumption.
  reflexivity.
Qed.

Lemma sweep_reads_noiseless_capture_witness :
  Sweep.decodeRingCodeFromImage
    (fun _ _ _ ri _ _ => nth ri (idealRingBits (Render.wedges (frameBits hello 2))) [])
  = Some hello.
Proof.
  apply (sweep_reads_noiseless_capture _ hello 2 (frameBits hello 2)).
  - vm_compute. reflexivity.
  - discriminate.
  - reflexivity.
  - vm_compute. discriminate.
  - vm_compute. discriminate.
  - intros ri _. reflexivity.
Defined.

Section OtsuThreshold.

Import JsNum Threshold.

Lemma ltb_irrefl (x : float) : (x <? x)%float = false.
Proof.
  rewrite FloatAxioms.ltb_spec. unfold SFltb, SFcompare.
  destruct (Prim2SF x) as [s | s | | s m e]; try reflexivity.
  - destruct s; reflexivity.
  - rewrite Z.compare_refl, Pos.compare_cont_refl. destruct s; reflexivity.
Qed.

Lemma rangeSum_nonzero (histogram : list Z) (n : nat) (t : Z) :
  rangeSum histogram n t <> 0 ->
  exists t', t <= t' < t + Z.of_nat n /\ nth (Z.to_nat t') histogram 0 <> 0.
Proof.
  revert t. induction n as [| n IH]; intros t Hsum; cbn [rangeSum] in Hsum.
  - congruence.
  - destruct (Z.eq_dec (nth (Z.to_nat t) histogram 0) 0) as [Hz | Hnz].
    + destruct (IH (t + 1)) as (t' & Ht' & Hh); [lia |].
      exists t'. split; [lia | exact Hh].
    + exists t. split; [lia | exact Hnz].
Qed.

(** The threshold that the loop leaves is the one it started with, or a
    level that holds a value and lies below another level that holds one. *)
Lemma otsuLoop_level (histogram : list Z) (sum total : Z) (n : nat) (t : Z)
    (sumB wB : Z) (maxVariance : float) (threshold : Z) :
  total = wB + rangeSum histogram n t ->
  wB = 0 \/
    (maxVariance <?
       num wB * num (total - wB)
       * (num sumB / num wB - num (sum - sumB) / num (total - wB))
       * (num sumB / num wB - num (sum - sumB) / num (total - wB)))%float = false ->
  let r := otsuLoop histogram sum total n t sumB wB maxVariance threshold in
  r = threshold
  \/ (t <= r /\ nth (Z.to_nat r) histogram 0 <> 0
      /\ exists t', r < t' < t + Z.of_nat n /\ nth (Z.to_nat t') histogram 0 <> 0).
Proof.
  revert t sumB wB maxVariance threshold.
  induction n as [| n IH]; intros t sumB wB maxVariance threshold Htotal Hmax;
    cbn [otsuLoop rangeSum] in *.
  - left. reflexivity.
  - set (h := nth (Z.to_nat t) histogram 0) in *.
    destruct (Z.eqb_spec (wB + h) 0) as [Hzero | Hpos].
    + destruct (IH (t + 1) sumB (wB + h) maxVariance threshold) as [Hr | (Hr1 & Hr2 & t' & Ht' & Hh)];
        [lia | left; exact Hzero | left; exact Hr |].
      right. split; [lia |]. split; [exact Hr2 |]. exists t'. split; [lia | exact Hh].
    + destruct (Z.eqb_spec (total - (wB + h)) 0) as [HwF | HwF]; [left; reflexivity |].
      assert (Hlater : exists t', t < t' < t + Z.of_nat (S n)
                                  /\ nth (Z.to_nat t') histogram 0 <> 0).
      { destruct (rangeSum_nonzero histogram n (t + 1)) as (t' & Ht' & Hh); [lia |].
        exists t'. split; [lia | exact Hh]. }
      set (variance :=
             (num (wB + h) * num (total - (wB + h))
              * (num (sumB + t * h) / num (wB + h)
                 - num (sum - (sumB + t * h)) / num (total - (wB + h)))
              * (num (sumB + t * h) / num (wB + h)
                 - num (sum - (sumB + t * h)) / num (total - (wB + h))))%float).
      destruct (maxVariance <? variance)%float eqn:Hgt.
      * destruct (IH (t + 1) (sumB + t * h) (wB + h) variance t)
          as [Hr | (Hr1 & Hr2 & t' & Ht' & Hh)];
          [lia | right; apply ltb_irrefl | |].
        -- right. rewrite Hr. split; [lia |]. split; [| exact Hlater].
           intros Hh. fold h in Hh.
           destruct Hmax as [HwB | Hmax]; [lia |].
           subst variance. rewrite Hh, Z.mul_0_r, !Z.add_0_r in Hgt.
           congruence.
        -- right. split; [lia |]. split; [exact Hr2 |].
           exists t'. split; [lia | exact Hh].
      * destruct (IH (t + 1) (sumB + t * h) (wB + h) maxVariance threshold)
          as [Hr | (Hr1 & Hr2 & t' & Ht' & Hh)];
          [lia | right; exact Hgt | left; exact Hr |].
        right. split; [lia |]. split; [exact Hr2 |].
        exists t'. split; [lia | exact Hh].
Qed.


Lemma clip_range (v : float) (c : Z) : clip v = Some c -> 0 <= c <= 255.
Proof.
  unfold clip, Math_round.
  destruct (Prim2SF v) as [s | s | | s m e]; cbn [option_map]; intros [= <-];
    try destruct s; lia.
Qed.

Lemma nth_replicate_0 (n i : nat) : nth i (replicate n 0) 0 = 0.
Proof.
  revert i. induction n as [| n IH]; intros [| i]; cbn; auto.
Qed.

Lemma nth_insert_eq (h : list Z) (c : nat) (x : Z) :
  (c < length h)%nat -> nth c (<[c := x]> h) 0 = x.
Proof.
  revert c. induction h as [| y h IH]; intros [| c] Hc; cbn in *;
    try lia; try reflexivity.
  apply IH. lia.
Qed.

Lemma nth_insert_ne (h : list Z) (c i : nat) (x : Z) :
  i <> c -> nth i (<[c := x]> h) 0 = nth i h 0.
Proof.
  revert c i. induction h as [| y h IH]; intros [| c] [| i] Hne; cbn; try congruence.
  apply IH. congruence.
Qed.

Lemma rangeSum_insert (h : list Z) (c : nat) (n : nat) (t : Z) :
  (c < length h)%nat -> 0 <= t ->
  rangeSum (<[c := nth c h 0 + 1]> h) n t
  = rangeSum h n t
    + (if decide (t <= Z.of_nat c < t + Z.of_nat n) then 1 else 0).
Proof.
  intros Hc. revert t. induction n as [| n IH]; intros t Ht; cbn [rangeSum].
  - destruct (decide _); lia.
  - rewrite IH by lia.
    destruct (decide (Z.to_nat t = c)) as [Heq | Hne].
    + rewrite Heq, nth_insert_eq by exact Hc.
      repeat destruct (decide _); lia.
    + rewrite nth_insert_ne by exact Hne.
      repeat destruct (decide _); lia.
Qed.

Lemma rangeSum_histogramOf (clipped : list (option Z)) :
  Forall levelIn clipped ->
  rangeSum (histogramOf clipped) 256 0 = Z.of_nat (length clipped).
Proof.
  intros Hall. unfold histogramOf.
  enough (Hgen : forall h0, length h0 = 256%nat ->
            let h := fold_left
              (fun histogram val =>
                 match val with
                 | Some v => <[Z.to_nat v := nth (Z.to_nat v) histogram 0 + 1]> histogram
                 | None => histogram
                 end) clipped h0 in
            length h = 256%nat
            /\ rangeSum h 256 0 = rangeSum h0 256 0 + Z.of_nat (length clipped)).
  { destruct (Hgen (replicate 256 0)) as [_ ->]; [reflexivity |].
    replace (rangeSum (replicate 256 0) 256 0) with 0 by (vm_compute; reflexivity). lia. }
  induction Hall as [| x l (c & -> & Hc) _ IH]; intros h0 Hlen.
  - cbn. split; [exact Hlen | lia].
  - cbn [fold_left length].
    destruct (IH (<[Z.to_nat c := nth (Z.to_nat c) h0 0 + 1]> h0)) as [Hl Hs];
      [rewrite length_insert; exact Hlen |].
    split; [exact Hl |].
    rewrite Hs, rangeSum_insert by lia.
    destruct (decide _); lia.
Qed.

Lemma histogramOf_present (clipped : list (option Z)) (t : Z) :
  Forall levelIn clipped -> 0 <= t ->
  nth (Z.to_nat t) (histogramOf clipped) 0 <> 0 -> In (Some t) clipped.
Proof.
  intros Hall Ht. unfold histogramOf.
  enough (Hgen : forall h0,
            nth (Z.to_nat t)
              (fold_left
                 (fun histogram val =>
                    match val with
                    | Some v => <[Z.to_nat v := nth (Z.to_nat v) histogram 0 + 1]> histogram
                    | None => histogram
                    end) clipped h0) 0 <> nth (Z.to_nat t) h0 0 ->
            In (Some t) clipped).
  { intros Hne. apply (Hgen (replicate 256 0)). rewrite nth_replicate_0. exact Hne. }
  induction Hall as [| x l (c & -> & Hc) _ IH]; intros h0 Hne; cbn [fold_left] in Hne.
  - congruence.
  - destruct (Z.eq_dec c t) as [-> | Hct]; [left; reflexivity |].
    right. apply (IH (<[Z.to_nat c := nth (Z.to_nat c) h0 0 + 1]> h0)).
    rewrite nth_insert_ne by lia. exact Hne.
Qed.

(** The threshold that [valsToBitsOtsu] computes is 0, or one of the clipped
    values that is not the largest of them. *)
Lemma otsuThreshold_level (clipped : list (option Z)) :
  Forall levelIn clipped ->
  otsuThreshold clipped = 0
  \/ (0 <= otsuThreshold clipped
      /\ In (Some (otsuThreshold clipped)) clipped
      /\ exists c, otsuThreshold clipped < c /\ In (Some c) clipped).
Proof.
  intros Hall. unfold otsuThreshold.
  destruct (otsuLoop_level (histogramOf clipped) (weightedSum (histogramOf clipped))
              (Z.of_nat (length clipped)) 256 0 0 0 0%float 0)
    as [Hr | (Hr1 & Hr2 & t' & Ht' & Hh)].
  - rewrite rangeSum_histogramOf by exact Hall. lia.
  - left. reflexivity.
  - left. exact Hr.
  - right. split; [exact Hr1 |]. split.
    + apply histogramOf_present; assumption.
    + exists t'. split; [lia |]. apply histogramOf_present; [exact Hall | lia | exact Hh].
Qed.

Lemma levelIn_clip (vals : list float) :
  Forall (fun v => clip v <> None) vals -> Forall levelIn (map clip vals).
Proof.
  intros Hall. apply Forall_map. eapply Forall_impl; [exact Hall |].
  intros v Hv. cbn. destruct (clip v) as [c |] eqn:Hc; [| congruence].
  exists c. split; [reflexivity | apply (clip_range v), Hc].
Qed.

Lemma lowBias_cases (bias : float) :
  lowBias bias ->
  bias = 0x1p+0%float \/ bias = 0x1.e666666666666p-1%float
  \/ bias = 0x1.ccccccccccccdp-1%float.
Proof.
  intros [Hin Hle]. unfold Sweep.biases in Hin. cbn [In] in Hin.
  destruct Hin as [<- | [<- | [<- | [<- | [<- | []]]]]]; auto;
    vm_compute in Hle; discriminate Hle.
Qed.

(** A level at or above the threshold is not below the threshold times a
    bias that does not exceed 1: all the levels and the three biases are
    tried. *)
Lemma level_not_below (T c : Z) (bias : float) :
  0 <= T <= c -> c <= 255 -> lowBias bias ->
  (num c <? num T * bias)%float = false.
Proof.
  intros HT Hc Hbias.
  assert (Hall :
    forallb (fun T => forallb (fun c =>
      forallb (fun bias => negb (num c <? num T * bias)%float)
        [0x1p+0; 0x1.e666666666666p-1; 0x1.ccccccccccccdp-1]%float)
      (seqZ T (256 - T))) (seqZ 0 256) = true) by (vm_compute; reflexivity).
  rewrite forallb_forall in Hall.
  specialize (Hall T ltac:(apply list_elem_of_In, elem_of_seqZ; lia)).
  rewrite forallb_forall in Hall.
  specialize (Hall c ltac:(apply list_elem_of_In, elem_of_seqZ; lia)).
  rewrite forallb_forall in Hall.
  apply negb_true_iff, Hall.
  destruct (lowBias_cases bias Hbias) as [-> | [-> | ->]]; cbn; auto.
Qed.

(** No level is below zero times a bias of the sweep. *)
Lemma level_not_below_0 (c : Z) (bias : float) :
  0 <= c <= 255 -> In bias Sweep.biases ->
  (num c <? num 0 * bias)%float = false.
Proof.
  intros Hc Hbias.
  assert (Hall :
    forallb (fun c => forallb (fun bias => negb (num c <? num 0 * bias)%float)
                        Sweep.biases) (seqZ 0 256) = true) by (vm_compute; reflexivity).
  rewrite forallb_forall in Hall.
  specialize (Hall c ltac:(apply list_elem_of_In, elem_of_seqZ; lia)).
  rewrite forallb_forall in Hall.
  apply negb_true_iff, Hall, Hbias.
Qed.


Lemma otsuThreshold_two_levels (vals : list float) (lo hi : Z) :
  lo <= hi ->
  Forall (fun v => clip v = Some lo \/ clip v = Some hi) vals ->
  otsuThreshold (map clip vals) = 0
  \/ (otsuThreshold (map clip vals) = lo /\ 0 <= lo).
Proof.
  intros Hlohi Hvals.
  assert (Hlevels : Forall levelIn (map clip vals)).
  { apply levelIn_clip. eapply Forall_impl; [exact Hvals |].
    intros v [Hv | Hv]; cbn; rewrite Hv; discriminate. }
  assert (Hmem : forall c, In (Some c) (map clip vals) -> c = lo \/ c = hi).
  { intros c Hc. apply in_map_iff in Hc as (v & Hv & Hin).
    rewrite Forall_forall in Hvals.
    destruct (Hvals v ltac:(apply list_elem_of_In; exact Hin)) as [Hl | Hh];
      [left | right]; congruence. }
  destruct (otsuThreshold_level _ Hlevels) as [H0 | (Hpos & Hin & c & Hlt & Hc)];
    [left; exact H0 | right].
  destruct (Hmem _ Hin) as [HTlo | HThi]; [split; lia |].
  destruct (Hmem _ Hc); lia.
Qed.

(** Samples none of which is below the threshold give no 1. *)
Lemma otsu_bits_blank (T : Z) (bias : float) (vals : list float) :
  Forall (fun v => exists c, clip v = Some c /\ (num c <? num T * bias)%float = false)
         vals ->
  map (fun v => match v with
                | Some c => if (num c <? num T * bias)%float then 1 else 0
                | None => 0
                end) (map clip vals)
  = replicate (length vals) 0.
Proof.
  induction 1 as [| v vals (c & Hc & Hlt) _ IH]; [reflexivity |].
  cbn [map length replicate]. rewrite Hc, Hlt, IH. reflexivity.
Qed.

End OtsuThreshold.

(** X17: Otsu mode reads a ring of two gray levels as blank.  When the
    clipped samples take only the values [lo <= hi], the threshold is 0 or
    [lo], and [valsToBitsOtsu] gives 0 for every sector under each bias of
    the sweep that is at most 1, and under all five biases when [lo] is 0. *)
Theorem valsToBitsOtsu_two_levels (vals : list float) (bias : float) (lo hi : Z) :
  lo <= hi ->
  Forall (fun v => Threshold.clip v = Some lo \/ Threshold.clip v = Some hi) vals ->
  In bias Sweep.biases ->
  lo = 0 \/ (bias <=? 1)%float = true ->
  (Threshold.otsuThreshold (map Threshold.clip vals) = 0
   \/ Threshold.otsuThreshold (map Threshold.clip vals) = lo)
  /\ Threshold.valsToBitsOtsu vals bias = replicate (length vals) 0.
Proof.
  intros Hlohi Hvals Hbias Hcase.
  pose proof (otsuThreshold_two_levels vals lo hi Hlohi Hvals) as HT.
  split; [tauto |].
  unfold Threshold.valsToBitsOtsu. cbv zeta.
  apply otsu_bits_blank.
  eapply Forall_impl; [exact Hvals |].
  intros v Hv. cbn beta.
  assert (Hc : exists c, Threshold.clip v = Some c /\ lo <= c).
  { destruct Hv as [Hv | Hv]; [exists lo | exists hi]; split; auto; lia. }
  destruct Hc as (c & Hcv & Hloc). exists c. split; [exact Hcv |].
  pose proof (clip_range v c Hcv) as Hrange.
  destruct HT as [-> | [-> H0lo]].
  - apply level_not_below_0; assumption.
  - destruct Hcase as [-> | Hle].
    + apply level_not_below_0; assumption.
    + apply level_not_below; [lia | lia | split; assumption].
Qed.

Lemma valsToBitsOtsu_two_levels_witness :
  Threshold.valsToBitsOtsu [20; 255; 255; 20; 20; 255]%float 0x1p+0%float
  = replicate 6 0.
Proof.
  refine (proj2 (valsToBitsOtsu_two_levels
                   [20; 255; 255; 20; 20; 255]%float 0x1p+0%float 20 255 _ _ _ _)).
  - lia.
  - repeat (constructor; [first [left; vm_compute; reflexivity
                                | right; vm_compute; reflexivity] |]).
    constructor.
  - left. reflexivity.
  - right. reflexivity.
Defined.
Section PercentileBlackWhite.

Import JsNum Threshold.

Lemma insertSorted_white (k m : nat) :
  insertSorted 255 (replicate k 0%float ++ replicate m 255%float)
  = replicate k 0%float ++ replicate (S m) 255%float.
Proof.
  induction k as [| k IH].
  - destruct m; reflexivity.
  - cbn [replicate app insertSorted].
    change (255 <=? 0)%float with false. cbv iota. rewrite IH. reflexivity.
Qed.

Lemma insertSorted_black (k m : nat) :
  insertSorted 0 (replicate k 0%float ++ replicate m 255%float)
  = replicate (S k) 0%float ++ replicate m 255%float.
Proof.
  destruct k as [| k]; [destruct m |]; reflexivity.
Qed.

Lemma sortAscending_blackOrWhite (vals : list float) :
  Forall blackOrWhite vals ->
  sortAscending vals
  = replicate (Z.to_nat (countBlack vals)) 0%float
    ++ replicate (length vals - Z.to_nat (countBlack vals)) 255%float.
Proof.
  unfold countBlack. rewrite Nat2Z.id.
  induction 1 as [| v vals [-> | ->] _ IH]; [reflexivity | |].
  - change (sortAscending (0%float :: vals)) with (insertSorted 0 (sortAscending vals)).
    rewrite IH, insertSorted_black. reflexivity.
  - change (sortAscending (255%float :: vals)) with (insertSorted 255 (sortAscending vals)).
    rewrite IH, insertSorted_white. cbn [List.filter length].
    change (255 =? 0)%float with false. cbv iota. f_equal. f_equal.
    pose proof (List.filter_length_le (fun v => (v =? 0)%float) vals). lia.
Qed.

Lemma nth_replicate_lt (k i : nat) (x d : float) :
  (i < k)%nat -> nth i (replicate k x) d = x.
Proof.
  revert i. induction k as [| k IH]; intros [| i] Hi; cbn; try lia; try reflexivity.
  apply IH. lia.
Qed.

Lemma countBlack_range (vals : list float) :
  0 <= countBlack vals <= Z.of_nat (length vals).
Proof.
  unfold countBlack.
  pose proof (List.filter_length_le (fun v => (v =? 0)%float) vals). lia.
Qed.

Lemma percentileAt_blackOrWhite (vals : list float) (frac : float) (idx : Z) :
  Forall blackOrWhite vals ->
  percentileIndex (length vals) frac = Some idx ->
  0 <= idx < Z.of_nat (length vals) ->
  percentileAt (sortAscending vals) frac
  = if idx <? countBlack vals then 0%float else 255%float.
Proof.
  intros Hvals Hidx Hrange. pose proof (countBlack_range vals) as Hk.
  unfold percentileAt. rewrite sortAscending_blackOrWhite by exact Hvals.
  rewrite length_app, !length_replicate.
  replace (Z.to_nat (countBlack vals) + (length vals - Z.to_nat (countBlack vals)))%nat
    with (length vals) by lia.
  rewrite Hidx.
  destruct (Z.ltb_spec idx (countBlack vals)) as [Hlt | Hge].
  - rewrite app_nth1 by (rewrite length_replicate; lia).
    apply nth_replicate_lt. lia.
  - rewrite app_nth2 by (rewrite length_replicate; lia).
    rewrite length_replicate. apply nth_replicate_lt. lia.
Qed.


(** The two indices are inside a ring of up to 4096 sectors, the 30% one
    not after the 70% one: every length is tried. *)
Lemma percentileIndex_range (n : nat) (i30 i70 : Z) :
  (0 < n <= 4096)%nat ->
  percentileIndex n 0x1.3333333333333p-2 = Some i30 ->
  percentileIndex n 0x1.6666666666666p-1 = Some i70 ->
  0 <= i30 <= i70 /\ i70 < Z.of_nat n.
Proof.
  intros Hn H30 H70.
  assert (Hall :
    forallb (fun n =>
      match percentileIndex n 0x1.3333333333333p-2,
            percentileIndex n 0x1.6666666666666p-1 with
      | Some a, Some b => (0 <=? a) && (a <=? b) && (b <? Z.of_nat n)
      | _, _ => false
      end) (seq 1 4096) = true) by (vm_compute; reflexivity).
  rewrite forallb_forall in Hall.
  specialize (Hall n ltac:(apply in_seq; lia)).
  rewrite H30, H70 in Hall. lia.
Qed.

Lemma map_blackOrWhite (f g : float -> Z) (vals : list float) :
  Forall blackOrWhite vals ->
  f 0%float = g 0%float -> f 255%float = g 255%float ->
  map f vals = map g vals.
Proof.
  intros Hvals H0 H255.
  induction Hvals as [| v vals [-> | ->] _ IH]; cbn [map]; congruence.
Qed.

Lemma replicate_map_const (c : Z) (vals : list float) :
  replicate (length vals) c = map (fun _ => c) vals.
Proof. induction vals as [| v vals IH]; cbn; congruence. Qed.

End PercentileBlackWhite.

(** X18: the percentile mode on a ring in pure black and white, of up to
    4096 sectors, under each bias of the sweep.  With more black sectors
    than the 70% index the ring is read as blank; otherwise it is read
    exactly, except that a ring with no more black sectors than the 30%
    index is read as all ones under a bias above 1. *)
Theorem valsToBitsPercentile_black_white (vals : list float) (bias : float)
    (i30 i70 : Z) :
  Forall blackOrWhite vals ->
  (0 < length vals <= 4096)%nat ->
  In bias Sweep.biases ->
  Threshold.percentileIndex (length vals) 0x1.3333333333333p-2 = Some i30 ->
  Threshold.percentileIndex (length vals) 0x1.6666666666666p-1 = Some i70 ->
  Threshold.valsToBitsPercentile vals bias
  = if i70 <? countBlack vals then replicate (length vals) 0
    else if (i30 <? countBlack vals) || (bias <=? 1)%float then map blackBit vals
    else replicate (length vals) 1.
Proof.
  intros Hvals Hn Hbias H30 H70.
  destruct (percentileIndex_range _ _ _ Hn H30 H70) as [Hi30 Hi70].
  unfold Threshold.valsToBitsPercentile. cbv zeta.
  rewrite (percentileAt_blackOrWhite vals _ i30 Hvals H30) by lia.
  rewrite (percentileAt_blackOrWhite vals _ i70 Hvals H70) by lia.
  rewrite !replicate_map_const.
  unfold Sweep.biases in Hbias. cbn [In] in Hbias.
  destruct (Z.ltb_spec i70 (countBlack vals)) as [H70k | H70k];
    destruct (Z.ltb_spec i30 (countBlack vals)) as [H30k | H30k]; try lia;
    destruct Hbias as [<- | [<- | [<- | [<- | [<- | []]]]]];
    apply map_blackOrWhite; try exact Hvals; vm_compute; reflexivity.
Qed.

Lemma valsToBitsPercentile_black_white_witness :
  Threshold.valsToBitsPercentile
    [0; 255; 0; 0; 255; 0; 0; 0; 0; 0]%float 0x1p+0%float
  = replicate 10 0.
Proof.
  apply (valsToBitsPercentile_black_white
           [0; 255; 0; 0; 255; 0; 0; 0; 0; 0]%float 0x1p+0%float 3 7).
  - repeat (constructor; [first [left; reflexivity | right; reflexivity] |]).
    constructor.
  - cbn. lia.
  - left. reflexivity.
  - vm_compute. reflexivity.
  - vm_compute. reflexivity.
Defined.
(** ** Thresholding inside the sweep *)

Section ThresholdedSweep.

Import JsNum Threshold.

Variable sampled : nat -> nat -> Z -> Z -> list float.

(** The shift handed to [sampleRing] is a whole number at every anchor and
    on every ring. *)
Lemma shift_exact (s0 : Z) (ri : nat) :
  In s0 Sweep.anchors -> (ri < length SECTORS)%nat ->
  (s0 * nth ri SECTORS 0) mod nth 0 SECTORS 0 = 0.
Proof.
  intros Hs0 Hri. unfold Sweep.anchors in Hs0.
  apply in_map_iff in Hs0 as (i & <- & _).
  destruct (six_rings ri Hri) as [-> | [-> | [-> | [-> | [-> | ->]]]]];
    cbn [nth SECTORS]; Z.div_mod_to_equations; lia.
Qed.

Lemma constant_list (c : Z) (l : list Z) :
  Forall (fun b => b = c) l -> l = replicate (length l) c.
Proof. induction 1 as [| b l -> _ IH]; cbn; congruence. Qed.

(** A sequence of equal bits is not decoded, whatever its length. *)
Lemma tryDecodeLinear_constant (c : Z) (linear : list Z) :
  c = 0 \/ c = 1 -> Forall (fun b => b = c) linear ->
  Decoder.tryDecodeLinear linear = None.
Proof.
  intros Hc Hall. rewrite (constant_list c linear Hall).
  set (N := length linear). clearbody N. clear Hall linear.
  destruct (Nat.lt_ge_cases N 88) as [Hshort | Hlong].
  - apply tryDecodeLinear_short. rewrite length_replicate. exact Hshort.
  - rewrite tryDecodeLinear_formula by (rewrite length_replicate; exact Hlong).
    assert (Hhdr : Decoder.headerOf (replicate N c)
                   = Decoder.bitsToBytes (replicate 56 c)).
    { unfold Decoder.headerOf. cbv zeta.
      change (Z.of_nat (length Decoder.START_PATTERN_BITS)) with 32.
      change (32 + Decoder.HEADER_BITS) with 88.
      rewrite slice_take_drop by (rewrite ?length_replicate; lia).
      rewrite drop_replicate, take_replicate. f_equal. f_equal. lia. }
    unfold frameAccepted, payloadLenOf, eccLenOf. rewrite Hhdr.
    destruct Hc as [-> | ->].
    + change (Decoder.checksum8 (slice (Decoder.bitsToBytes (replicate 56 0)) 0 6)
              =? nth 6 (Decoder.bitsToBytes (replicate 56 0)) 0) with true.
      change (0 <? Z.lor (Z.shiftl (nth 2 (Decoder.bitsToBytes (replicate 56 0)) 0) 8)
                         (nth 3 (Decoder.bitsToBytes (replicate 56 0)) 0)) with false.
      reflexivity.
    + change (Decoder.checksum8 (slice (Decoder.bitsToBytes (replicate 56 1)) 0 6)
              =? nth 6 (Decoder.bitsToBytes (replicate 56 1)) 0) with false.
      reflexivity.
Qed.

Lemma valsToBitsOtsu_blackOrWhite (vals : list float) (bias : float) :
  Forall blackOrWhite vals -> In bias Sweep.biases ->
  valsToBitsOtsu vals bias = replicate (length vals) 0.
Proof.
  intros Hvals Hbias.
  assert (Hclip : Forall (fun v => clip v = Some 0 \/ clip v = Some 255) vals).
  { eapply Forall_impl; [exact Hvals |]. intros v [-> | ->]; [left | right]; reflexivity. }
  unfold valsToBitsOtsu. cbv zeta. apply otsu_bits_blank.
  destruct (otsuThreshold_two_levels vals 0 255 ltac:(lia) Hclip) as [-> | [-> _]];
    (eapply Forall_impl; [exact Hclip |]); intros v [Hv | Hv];
    eexists; (split; [exact Hv |]); apply level_not_below_0; (lia || assumption).
Qed.

Lemma linearOf_otsu_blank (vi : nat) (bias : float) (s0 : Z) :
  (forall vi ri n shift, Forall blackOrWhite (sampled vi ri n shift)) ->
  In bias Sweep.biases ->
  Forall (fun b => b = 0)
         (Sweep.linearOf (thresholdedOf sampled) vi false bias Sweep.otsu s0).
Proof.
  intros Hsampled Hbias. unfold Sweep.linearOf. rewrite flatten_concat.
  apply Forall_concat, Forall_map, Forall_forall. intros ri _. cbv zeta.
  unfold thresholdedOf. cbv zeta.
  rewrite valsToBitsOtsu_blackOrWhite by auto.
  apply Forall_replicate. reflexivity.
Qed.

Lemma countBlack_paint (ring : list Z) :
  countBlack (map paint ring) = Decoder.countEq 1 ring.
Proof.
  unfold countBlack, Decoder.countEq. f_equal.
  induction ring as [| b ring IH]; [reflexivity |].
  cbn [map List.filter]. rewrite filter_cons. unfold paint at 1.
  destruct (Z.eqb_spec b 1) as [-> | Hne].
  - change (0 =? 0)%float with true. cbv iota.
    destruct (decide (1 = 1)); [| congruence]. cbn [length]. rewrite IH. reflexivity.
  - change (255 =? 0)%float with false. cbv iota.
    destruct (decide (b = 1)); [congruence |]. exact IH.
Qed.

Lemma blackOrWhite_paint (ring : list Z) : Forall blackOrWhite (map paint ring).
Proof.
  apply Forall_map, Forall_forall. intros b _. unfold paint, blackOrWhite.
  destruct (b =? 1); auto.
Qed.

Lemma map_bits_id (f : Z -> Z) (ring : list Z) :
  Forall isBit ring -> f 0 = 0 -> f 1 = 1 -> map f ring = ring.
Proof.
  intros Hbits H0 H1.
  induction Hbits as [| b ring [-> | ->] _ IH]; cbn [map]; congruence.
Qed.

(** A painted ring in which the black sectors do not go beyond the 70%
    index is read exactly under bias 1. *)
Lemma percentile_reads_painted (ring : list Z) (i30 i70 : Z) :
  Forall isBit ring -> (0 < length ring <= 4096)%nat ->
  percentileIndex (length ring) 0x1.3333333333333p-2 = Some i30 ->
  percentileIndex (length ring) 0x1.6666666666666p-1 = Some i70 ->
  Decoder.countEq 1 ring <= i70 ->
  valsToBitsPercentile (map paint ring) 0x1p+0 = ring.
Proof.
  intros Hbits Hn H30 H70 Hk.
  pose proof (blackOrWhite_paint ring) as Hbw.
  rewrite <- (length_map paint) in Hn, H30, H70.
  destruct (percentileIndex_range _ _ _ Hn H30 H70) as [Hi30 Hi70].
  unfold valsToBitsPercentile. cbv zeta.
  rewrite (percentileAt_blackOrWhite _ _ i30 Hbw H30) by lia.
  rewrite (percentileAt_blackOrWhite _ _ i70 Hbw H70) by lia.
  rewrite countBlack_paint, map_map.
  destruct (Z.ltb_spec i70 (Decoder.countEq 1 ring)) as [? | _]; [lia |].
  destruct (i30 <? Decoder.countEq 1 ring); apply map_bits_id; auto.
Qed.

Lemma length_ringOf (bits : list Z) (ri : nat) :
  length bits = 1344%nat -> (ri < 6)%nat -> length (ringOf bits ri) = ringSize ri.
Proof.
  intros Hlen Hri. unfold ringOf. rewrite length_take, length_drop, Hlen.
  destruct (six_rings ri Hri) as [-> | [-> | [-> | [-> | [-> | ->]]]]];
    vm_compute; reflexivity.
Qed.

Lemma flatten_ringOf (bits : list Z) :
  length bits = 1344%nat -> Forall isBit bits ->
  flatten (map (ringOf bits) (seq 0 (length SECTORS))) = bits.
Proof.
  intros Hlen Hbits.
  transitivity (flatten (idealRingBits (Render.wedges bits)));
    [| apply flatten_idealRingBits; assumption].
  unfold idealRingBits. f_equal. symmetry.
  apply map_ext_in. intros ri Hri. apply in_seq in Hri. cbn [length SECTORS] in Hri.
  fold (ringSize ri). rewrite ideal_ring by (assumption || lia). reflexivity.
Qed.

Lemma isBit_ringOf (bits : list Z) (ri : nat) :
  Forall isBit bits -> Forall isBit (ringOf bits ri).
Proof. intros Hbits. unfold ringOf. apply Forall_take, Forall_drop, Hbits. Qed.

(** The first hypothesis of the sweep on a capture in pure black and white
    of a sequence in which no ring is drawn beyond 70%. *)
Lemma linearOf_painted (bits : list Z) :
  length bits = 1344%nat -> Forall isBit bits ->
  (forall ri : nat, (ri < length SECTORS)%nat ->
     sampled 0 ri (nth ri SECTORS 0) 0 = map paint (ringOf bits ri)) ->
  (forall ri : nat, (ri < length SECTORS)%nat ->
     10 * Decoder.countEq 1 (ringOf bits ri) <= 7 * Z.of_nat (ringSize ri)) ->
  Sweep.linearOf (thresholdedOf sampled) 0 false 0x1p+0 Sweep.pct 0 = bits.
Proof.
  intros Hlen Hbits Hsampled Hdensity.
  transitivity (flatten (map (ringOf bits) (seq 0 (length SECTORS))));
    [| apply flatten_ringOf; assumption].
  unfold Sweep.linearOf. f_equal.
  apply map_ext_in. intros ri Hri. apply in_seq in Hri. cbv zeta.
  assert (Hri6 : (ri < 6)%nat) by (cbn [length SECTORS] in Hri; lia).
  replace (0 * nth ri SECTORS 0 / nth 0 SECTORS 0) with 0
    by (rewrite Z.mul_0_l; reflexivity).
  unfold thresholdedOf. cbv zeta. rewrite Hsampled by lia.
  specialize (Hdensity ri ltac:(lia)).
  pose proof (length_ringOf bits ri Hlen Hri6) as Hsize.
  pose proof (isBit_ringOf bits ri Hbits) as Hring.
  revert Hdensity Hsize Hring. generalize (ringOf bits ri). intros ring Hdensity Hsize Hring.
  destruct (six_rings ri Hri6) as [-> | [-> | [-> | [-> | [-> | ->]]]]];
    match goal with
    | H : length ring = ringSize ?r |- _ =>
        let w := eval vm_compute in (ringSize r) in change (ringSize r) with w in *
    end.
  - apply (percentile_reads_painted ring 38 89); rewrite ?Hsize; try assumption;
      try (vm_compute; reflexivity); lia.
  - apply (percentile_reads_painted ring 57 134); rewrite ?Hsize; try assumption;
      try (vm_compute; reflexivity); lia.
  - apply (percentile_reads_painted ring 76 179); rewrite ?Hsize; try assumption;
      try (vm_compute; reflexivity); lia.
  - apply (percentile_reads_painted ring 76 179); rewrite ?Hsize; try assumption;
      try (vm_compute; reflexivity); lia.
  - apply (percentile_reads_painted ring 76 179); rewrite ?Hsize; try assumption;
      try (vm_compute; reflexivity); lia.
  - apply (percentile_reads_painted ring 76 179); rewrite ?Hsize; try assumption;
      try (vm_compute; reflexivity); lia.
Qed.

End ThresholdedSweep.

(** C9: 1344 zero bits are not decoded.  The header read from them is
    seven zero bytes; its checksum agrees with the stored one, the payload
    length it declares is 0 and is refused.  When every ring is sampled as
    zero bits at every hypothesis, the sweep of [decodeRingCodeFromImage]
    hands [tryDecodeLinear] these 1344 zeros at the polarity as sampled and
    1344 ones at the inverted polarity; both are refused, and the sweep ends
    without a result. *)
Theorem tryDecodeLinear_all_zero :
  let linear := replicate 1344 0 in
  let hdr := Decoder.headerOf linear in
  hdr = [0; 0; 0; 0; 0; 0; 0]
  /\ Decoder.checksum8 (slice hdr 0 6) = nth 6 hdr 0
  /\ Z.lor (Z.shiftl (nth 2 hdr 0) 8) (nth 3 hdr 0) = 0
  /\ Decoder.tryDecodeLinear linear = None
  /\ forall thresholded : nat -> Sweep.ThreshMode -> float -> nat -> Z -> Z -> list Z,
       (forall vi threshMode bias ri n shift,
           thresholded vi threshMode bias ri n shift = replicate (Z.to_nat n) 0) ->
       (forall vi bias threshMode s0,
           Sweep.linearOf thresholded vi false bias threshMode s0 = linear
           /\ Sweep.linearOf thresholded vi true bias threshMode s0 = replicate 1344 1)
       /\ Decoder.tryDecodeLinear (replicate 1344 1) = None
       /\ Sweep.decodeRingCodeFromImage thresholded = None.
Proof.
  cbv zeta.
  assert (Hzeros : Decoder.tryDecodeLinear (replicate 1344 0) = None)
    by (vm_compute; reflexivity).
  assert (Hones : Decoder.tryDecodeLinear (replicate 1344 1) = None).
  { apply (tryDecodeLinear_constant 1); [right; reflexivity |].
    apply Forall_replicate. reflexivity. }
  split; [vm_compute; reflexivity |].
  split; [vm_compute; reflexivity |].
  split; [vm_compute; reflexivity |].
  split; [exact Hzeros |].
  intros thresholded Hsampled.
  assert (Hsame : forall vi bias threshMode s0,
            Sweep.linearOf thresholded vi false bias threshMode s0 = replicate 1344 0).
  { intros vi bias threshMode s0. unfold Sweep.linearOf. rewrite flatten_concat.
    change (seq 0 (length SECTORS)) with [0; 1; 2; 3; 4; 5]%nat.
    cbn [map concat]. cbv zeta. rewrite !Hsampled.
    vm_compute. reflexivity. }
  assert (Hinverted : forall vi bias threshMode s0,
            Sweep.linearOf thresholded vi true bias threshMode s0 = replicate 1344 1).
  { intros vi bias threshMode s0. rewrite linearOf_inverted, Hsame.
    vm_compute. reflexivity. }
  split; [intros vi bias threshMode s0; split; [apply Hsame | apply Hinverted] |].
  split; [exact Hones |].
  rewrite decodeRingCodeFromImage_sweepOrder. apply firstResult_None.
  apply Forall_forall. intros [[[[vi inv] bias] threshMode] s0] _.
  cbn [candidateOf]. destruct inv.
  - rewrite Hinverted. exact Hones.
  - rewrite Hsame. exact Hzeros.
Qed.

Lemma tryDecodeLinear_all_zero_witness :
  Sweep.decodeRingCodeFromImage (fun _ _ _ _ n _ => replicate (Z.to_nat n) 0) = None.
Proof.
  pose proof tryDecodeLinear_all_zero as Hall. cbv zeta in Hall.
  destruct Hall as (_ & _ & _ & _ & Hsweep).
  apply (Hsweep (fun _ _ _ _ n _ => replicate (Z.to_nat n) 0)).
  intros vi threshMode bias ri n shift. reflexivity.
Defined.

(** X19: on a capture in pure black and white the Otsu mode finds nothing.
    If every value [sampleRing] reads is 0 or 255, then at every variant,
    polarity, bias and anchor of the sweep the bits of the Otsu hypothesis
    are all equal, and [tryDecodeLinear] gives no text for them. *)
Theorem otsu_hypotheses_fail_on_black_and_white
    (sampled : nat -> nat -> Z -> Z -> list float)
    (vi : nat) (inv : bool) (bias : float) (s0 : Z) :
  (forall vi ri n shift, Forall blackOrWhite (sampled vi ri n shift)) ->
  In bias Sweep.biases ->
  Forall (fun b => b = if inv then 1 else 0)
         (candidateOf (thresholdedOf sampled) (vi, inv, bias, Sweep.otsu, s0))
  /\ Decoder.tryDecodeLinear
       (candidateOf (thresholdedOf sampled) (vi, inv, bias, Sweep.otsu, s0)) = None.
Proof.
  intros Hsampled Hbias. cbn [candidateOf].
  pose proof (linearOf_otsu_blank sampled vi bias s0 Hsampled Hbias) as Hblank.
  assert (Hall : Forall (fun b => b = if inv then 1 else 0)
                   (Sweep.linearOf (thresholdedOf sampled) vi inv bias Sweep.otsu s0)).
  { destruct inv; [| exact Hblank].
    rewrite linearOf_inverted. apply Forall_map.
    eapply Forall_impl; [exact Hblank |]. intros b ->. reflexivity. }
  split; [exact Hall |].
  apply (tryDecodeLinear_constant (if inv then 1 else 0)); [destruct inv; auto | exact Hall].
Qed.

Lemma otsu_hypotheses_fail_on_black_and_white_witness :
  Decoder.tryDecodeLinear
    (candidateOf
       (thresholdedOf (fun _ ri _ _ => map paint (ringOf (frameBits hello 2) ri)))
       (0%nat, false, 0x1.199999999999ap+0%float, Sweep.otsu, 0)) = None.
Proof.
  refine (proj2 (otsu_hypotheses_fail_on_black_and_white
                   (fun _ ri _ _ => map paint (ringOf (frameBits hello 2) ri))
                   0 false 0x1.199999999999ap+0%float 0 _ _)).
  - intros _ ri _ _. apply blackOrWhite_paint.
  - vm_compute. tauto.
Defined.

(** X20: a capture in pure black and white is read by the percentile mode
    at the first hypothesis.  Take a text under the conditions of the round
    trip and draw its bits; let [sampleRing] read 0 on every drawn sector
    and 255 on every other one, on the first variant at anchor 0.  If in
    each ring at most 70% of the sectors are drawn, then
    [decodeRingCodeFromImage] returns the text. *)
Theorem sweep_reads_black_and_white_capture
    (sampled : nat -> nat -> Z -> Z -> list float)
    (text : jsString) (eccLevel : Z) (bits : list Z) :
  encodeText text eccLevel = inr bits ->
  text <> [] -> wellFormed text = true -> hd 0 text <> 0xFEFF ->
  5 * Decoder.countEq 0 (TextEncoder_encode text)
    <= 4 * Z.of_nat (length (TextEncoder_encode text)) ->
  (forall ri : nat, (ri < length SECTORS)%nat ->
     sampled 0%nat ri (nth ri SECTORS 0) 0 = map paint (ringOf bits ri)) ->
  (forall ri : nat, (ri < length SECTORS)%nat ->
     10 * Decoder.countEq 1 (ringOf bits ri) <= 7 * Z.of_nat (ringSize ri)) ->
  Sweep.decodeRingCodeFromImage (thresholdedOf sampled) = Some text.
Proof.
  intros Henc Hne Hwf Hbom Hzeros Hsampled Hdensity.
  apply encodeText_frameBits in Henc as [Hfits ->].
  pose proof (linearOf_painted sampled (frameBits text eccLevel)
                (length_frameBits text eccLevel) (frameBits_isBit text eccLevel)
                Hsampled Hdensity) as Hlinear.
  unfold Sweep.decodeRingCodeFromImage.
  change (seq 0 5) with (0 :: seq 1 4)%nat.
  change Sweep.biases with (0x1p+0%float :: tl Sweep.biases).
  let v := eval vm_compute in Sweep.anchors in
  change Sweep.anchors with (0 :: tl v).
  cbn [Sweep.firstResult].
  rewrite Hlinear, frameBits_round_trip by assumption.
  reflexivity.
Qed.

Lemma sweep_reads_black_and_white_capture_witness :
  Sweep.decodeRingCodeFromImage
    (thresholdedOf (fun _ ri _ _ => map paint (ringOf (frameBits hello 2) ri)))
  = Some hello.
Proof.
  apply (sweep_reads_black_and_white_capture _ hello 2 (frameBits hello 2)).
  - vm_compute. reflexivity.
  - discriminate.
  - reflexivity.
  - vm_compute. discriminate.
  - vm_compute. discriminate.
  - intros ri _. reflexivity.
  - intros ri Hri.
    destruct (six_rings ri Hri) as [-> | [-> | [-> | [-> | [-> | ->]]]]];
      vm_compute; discriminate.
Defined.

(** ** Preprocessing *)

Section Preprocessing.

Import JsNum Preprocess.

(** Induction over the bytes of an image, a pixel at a time. *)
Lemma pixel_ind (P : list Z -> Prop) :
  P [] -> (forall r, P [r]) -> (forall r g, P [r; g]) -> (forall r g b, P [r; g; b]) ->
  (forall r g b a rest, P rest -> P (r :: g :: b :: a :: rest)) ->
  forall data, P data.
Proof.
  intros H0 H1 H2 H3 H4.
  fix IH 1. intros [| r [| g [| b [| a rest]]]];
    [exact H0 | apply H1 | apply H2 | apply H3 | apply H4; apply IH].
Qed.

Lemma toUint8Clamp_range (x : float) : 0 <= toUint8Clamp x <= 255.
Proof.
  unfold toUint8Clamp.
  destruct (Prim2SF x) as [s | s | | s m e]; try destruct s; try lia.
  destruct (Z.leb_spec 0 e) as [He | He].
  - pose proof (Z.pow_pos_nonneg 2 e ltac:(lia) He). nia.
  - pose proof (Z.pow_pos_nonneg 2 (- e) ltac:(lia) ltac:(lia)) as Hd.
    pose proof (Z.div_pos (Z.pos m) (2 ^ (- e)) ltac:(lia) Hd) as Hf.
    cbv zeta. repeat destruct (_ <? _); try destruct (Z.even _); lia.
Qed.

(** A gray level is its own gray value: all 256 are tried. *)
Lemma gray_fixed (v : Z) : 0 <= v <= 255 -> toUint8Clamp (grayOf v v v) = v.
Proof.
  intros Hv.
  assert (Hall : forallb (fun v => toUint8Clamp (grayOf v v v) =? v) (seqZ 0 256) = true)
    by (vm_compute; reflexivity).
  rewrite forallb_forall in Hall.
  apply Z.eqb_eq, Hall, list_elem_of_In, elem_of_seqZ. lia.
Qed.

(** What the first loop of [normalizeImage] leaves in [min] and [max]. *)
Lemma minMax_fold (l : list Z) (mn mx : Z) :
  let '(mn', mx') :=
    fold_left (fun '(min, max) val =>
                 (if val <? min then val else min, if max <? val then val else max))
              l (mn, mx) in
  mn' <= mn /\ mx <= mx'
  /\ (forall v, In v l -> mn' <= v <= mx')
  /\ (mn' = mn \/ In mn' l) /\ (mx' = mx \/ In mx' l).
Proof.
  revert mn mx. induction l as [| x l IH]; intros mn mx; cbn [fold_left].
  - split; [lia |]. split; [lia |]. split; [intros v [] |]. split; left; reflexivity.
  - specialize (IH (if x <? mn then x else mn) (if mx <? x then x else mx)).
    destruct (fold_left _ l _) as [mn' mx'].
    destruct IH as (Hmn & Hmx & Hall & Hinmn & Hinmx).
    split; [destruct (Z.ltb_spec x mn); lia |].
    split; [destruct (Z.ltb_spec mx x); lia |].
    split.
    { intros v [Hx | Hv]; [subst v | apply Hall, Hv].
      destruct (Z.ltb_spec x mn), (Z.ltb_spec mx x); lia. }
    cbn [In]. split.
    + destruct Hinmn as [-> | Hin]; [| auto].
      destruct (Z.ltb_spec x mn); auto.
    + destruct Hinmx as [-> | Hin]; [| auto].
      destruct (Z.ltb_spec mx x); auto.
Qed.

Lemma minMax_spec (data : list Z) (lo hi : Z) :
  Forall isByte (firstChannel data) ->
  In lo (firstChannel data) -> In hi (firstChannel data) ->
  (forall v, In v (firstChannel data) -> lo <= v <= hi) ->
  minMax data = (lo, hi).
Proof.
  intros Hbytes Hlo Hhi Hall. unfold minMax.
  pose proof (minMax_fold (firstChannel data) 255 0) as Hfold.
  destruct (fold_left _ _ _) as [mn mx].
  destruct Hfold as (Hmn & Hmx & Hbetween & Hinmn & Hinmx).
  rewrite Forall_forall in Hbytes.
  pose proof (Hbytes lo ltac:(apply list_elem_of_In; exact Hlo)) as Hblo.
  pose proof (Hbytes hi ltac:(apply list_elem_of_In; exact Hhi)) as Hbhi.
  unfold isByte in Hblo, Hbhi.
  pose proof (Hbetween lo Hlo). pose proof (Hbetween hi Hhi).
  assert (mn = lo).
  { destruct Hinmn as [-> | Hin]; [lia |]. specialize (Hall mn Hin). lia. }
  assert (mx = hi).
  { destruct Hinmx as [-> | Hin]; [lia |]. specialize (Hall mx Hin). lia. }
  congruence.
Qed.

(** The ends of the range: every range from 1 to 255 is tried. *)
Lemma stretch_ends (lo hi : Z) :
  0 <= lo < hi -> hi <= 255 ->
  stretch lo (hi - lo) lo = 0 /\ stretch lo (hi - lo) hi = 255.
Proof.
  intros Hlo Hhi. unfold stretch. rewrite Z.sub_diag.
  assert (Hall :
    forallb (fun range =>
               (storeRounded (num 0 / num range * 255)%float =? 0)
               && (storeRounded (num range / num range * 255)%float =? 255))
            (seqZ 1 255) = true) by (vm_compute; reflexivity).
  rewrite forallb_forall in Hall.
  specialize (Hall (hi - lo) ltac:(apply list_elem_of_In, elem_of_seqZ; lia)).
  apply andb_true_iff in Hall as [H0 H1]. split; apply Z.eqb_eq; assumption.
Qed.

(** A brighter pixel is not made darker than a darker one. *)
Lemma stretch_monotone (lo hi v w : Z) :
  0 <= lo -> hi <= 255 -> lo <= v <= w -> w <= hi -> lo < hi ->
  stretch lo (hi - lo) v <= stretch lo (hi - lo) w.
Proof.
  intros Hlo Hhi Hv Hw Hlt. unfold stretch.
  assert (Hall :
    forallb (fun range =>
      forallb (fun k =>
                 storeRounded (num k / num range * 255)%float
                 <=? storeRounded (num (k + 1) / num range * 255)%float)
              (seqZ 0 range)) (seqZ 1 255) = true) by (vm_compute; reflexivity).
  rewrite forallb_forall in Hall.
  specialize (Hall (hi - lo) ltac:(apply list_elem_of_In, elem_of_seqZ; lia)).
  rewrite forallb_forall in Hall.
  assert (Hstep : forall k, 0 <= k < hi - lo ->
            storeRounded (num k / num (hi - lo) * 255)%float
            <= storeRounded (num (k + 1) / num (hi - lo) * 255)%float).
  { intros k Hk. apply Z.leb_le, Hall, list_elem_of_In, elem_of_seqZ. lia. }
  replace (w - lo) with (v - lo + Z.of_nat (Z.to_nat (w - v))) by lia.
  assert (Hbound : v - lo + Z.of_nat (Z.to_nat (w - v)) <= hi - lo) by lia.
  induction (Z.to_nat (w - v)) as [| n IH].
  - rewrite Z.add_0_r. lia.
  - etransitivity; [apply IH; lia |].
    replace (v - lo + Z.of_nat (S n)) with (v - lo + Z.of_nat n + 1) by lia.
    apply Hstep. lia.
Qed.

Lemma mapPixels_id (f : Z -> Z) (colours : list Z) :
  Forall (fun c => f c = c) colours ->
  mapPixels f (concat (map (fun c => [c; c; c; 255]) colours))
  = concat (map (fun c => [c; c; c; 255]) colours).
Proof.
  induction 1 as [| c colours Hc _ IH]; [reflexivity |].
  cbn [map concat app mapPixels]. rewrite Hc, IH. reflexivity.
Qed.

Lemma firstChannel_pixels (colours : list Z) :
  firstChannel (concat (map (fun c => [c; c; c; 255]) colours)) = colours.
Proof.
  induction colours as [| c colours IH]; [reflexivity |].
  cbn [map concat app firstChannel]. rewrite IH. reflexivity.
Qed.

Lemma normalizeImage_flat (data : list Z) (c : Z) :
  isByte c -> In c (firstChannel data) ->
  (forall v, In v (firstChannel data) -> v = c) ->
  normalizeImage data = data.
Proof.
  intros Hc Hin Hall. unfold normalizeImage.
  rewrite (minMax_spec data c c).
  - rewrite Z.sub_diag. reflexivity.
  - apply Forall_forall. intros v Hv. apply list_elem_of_In in Hv.
    rewrite (Hall v Hv). exact Hc.
  - exact Hin.
  - exact Hin.
  - intros v Hv. rewrite (Hall v Hv). lia.
Qed.

Lemma normalizeImage_range (data : list Z) (lo hi : Z) :
  Forall isByte (firstChannel data) ->
  In lo (firstChannel data) -> In hi (firstChannel data) ->
  (forall v, In v (firstChannel data) -> lo <= v <= hi) ->
  lo < hi ->
  normalizeImage data = mapPixels (stretch lo (hi - lo)) data.
Proof.
  intros Hbytes Hlo Hhi Hall Hlt. unfold normalizeImage.
  rewrite (minMax_spec data lo hi) by assumption.
  destruct (Z.eqb_spec (hi - lo) 0); [lia | reflexivity].
Qed.

End Preprocessing.

(** X21: [createGrayscale] leaves a gray image as it is, up to opacity. A
    pixel whose three colours are the same level keeps them and gets
    opacity 255; so applying [createGrayscale] a second time changes
    nothing, whatever the image. *)
Theorem createGrayscale_idempotent (data : list Z) :
  (forall v a : Z, 0 <= v <= 255 ->
     Preprocess.createGrayscale [v; v; v; a] = [v; v; v; 255])
  /\ length (Preprocess.createGrayscale data) = length data
  /\ Preprocess.createGrayscale (Preprocess.createGrayscale data)
     = Preprocess.createGrayscale data.
Proof.
  split; [| split].
  - intros v a Hv. cbn [Preprocess.createGrayscale]. cbv zeta.
    rewrite gray_fixed by exact Hv. reflexivity.
  - induction data as [| r | r g | r g b | r g b a rest IH] using pixel_ind;
      cbn [Preprocess.createGrayscale length]; cbv zeta; cbn [length]; congruence.
  - induction data as [| r | r g | r g b | r g b a rest IH] using pixel_ind;
      cbn [Preprocess.createGrayscale]; cbv zeta; cbn [Preprocess.createGrayscale];
      cbv zeta; rewrite ?gray_fixed by apply toUint8Clamp_range; congruence.
Qed.

(** X22: [normalizeImage] stretches the first colour to the full range.
    Let [lo] and [hi] be the least and the greatest first byte of the
    pixels.  If they are equal the image is returned as it is.  Otherwise
    every pixel gets the stretched value of its first byte in its three
    colours and opacity 255; the darkest pixels get 0, the brightest 255,
    and of two pixels the brighter one never gets the smaller value. *)
Theorem normalizeImage_stretches (data : list Z) (lo hi : Z) :
  Forall isByte (Preprocess.firstChannel data) ->
  In lo (Preprocess.firstChannel data) -> In hi (Preprocess.firstChannel data) ->
  (forall v, In v (Preprocess.firstChannel data) -> lo <= v <= hi) ->
  (lo = hi -> Preprocess.normalizeImage data = data)
  /\ (lo < hi ->
      Preprocess.normalizeImage data
      = Preprocess.mapPixels (Preprocess.stretch lo (hi - lo)) data
      /\ Preprocess.stretch lo (hi - lo) lo = 0
      /\ Preprocess.stretch lo (hi - lo) hi = 255
      /\ forall v w, lo <= v <= w -> w <= hi ->
           Preprocess.stretch lo (hi - lo) v <= Preprocess.stretch lo (hi - lo) w).
Proof.
  intros Hbytes Hlo Hhi Hall.
  assert (Hblo : isByte lo).
  { rewrite Forall_forall in Hbytes. apply Hbytes, list_elem_of_In, Hlo. }
  assert (Hbhi : isByte hi).
  { rewrite Forall_forall in Hbytes. apply Hbytes, list_elem_of_In, Hhi. }
  unfold isByte in Hblo, Hbhi.
  split.
  - intros <-. apply (normalizeImage_flat data lo); [exact Hblo | exact Hlo |].
    intros v Hv. specialize (Hall v Hv). lia.
  - intros Hlt. split; [apply normalizeImage_range; assumption |].
    destruct (stretch_ends lo hi ltac:(lia) ltac:(lia)) as [H0 H255].
    split; [exact H0 |]. split; [exact H255 |].
    intros v w Hv Hw. apply stretch_monotone; lia.
Qed.

Lemma normalizeImage_stretches_witness :
  Preprocess.normalizeImage [50; 0; 0; 7; 100; 0; 0; 9; 75; 200; 30; 255]
  = Preprocess.mapPixels (Preprocess.stretch 50 (100 - 50))
      [50; 0; 0; 7; 100; 0; 0; 9; 75; 200; 30; 255].
Proof.
  refine (proj1 (proj2 (normalizeImage_stretches
                          [50; 0; 0; 7; 100; 0; 0; 9; 75; 200; 30; 255] 50 100 _ _ _ _) _)).
  - repeat (constructor; [unfold isByte; lia |]). constructor.
  - cbn. auto.
  - cbn. auto.
  - cbn. intros v [<- | [<- | [<- | []]]]; lia.
  - lia.
Defined.

(** X23: an opaque image in pure black and white passes the first and the
    third preprocessing variant unchanged: [createGrayscale] returns it as it
    is, and so does [normalizeImage] applied to the result. *)
Theorem black_and_white_image_unchanged (colours : list Z) :
  Forall (fun c => c = 0 \/ c = 255) colours ->
  let data := concat (map (fun c => [c; c; c; 255]) colours) in
  Preprocess.createGrayscale data = data
  /\ Preprocess.normalizeImage (Preprocess.createGrayscale data) = data.
Proof.
  intros Hbw. cbv zeta.
  assert (Hgray : Preprocess.createGrayscale
                    (concat (map (fun c => [c; c; c; 255]) colours))
                  = concat (map (fun c => [c; c; c; 255]) colours)).
  { induction Hbw as [| c colours Hc _ IH]; [reflexivity |].
    cbn [map concat app Preprocess.createGrayscale]. cbv zeta.
    rewrite gray_fixed by (destruct Hc; lia). rewrite IH. reflexivity. }
  split; [exact Hgray |]. rewrite Hgray.
  assert (Hbytes : Forall isByte colours).
  { eapply Forall_impl; [exact Hbw |]. intros c [-> | ->]; unfold isByte; lia. }
  destruct (In_dec Z.eq_dec 0 colours) as [H0 | H0];
    destruct (In_dec Z.eq_dec 255 colours) as [H255 | H255].
  - rewrite (normalizeImage_range _ 0 255);
      rewrite ?firstChannel_pixels; try assumption; try lia.
    + apply mapPixels_id. eapply Forall_impl; [exact Hbw |].
      intros c [-> | ->]; vm_compute; reflexivity.
    + intros v Hv. rewrite Forall_forall in Hbw.
      destruct (Hbw v ltac:(apply list_elem_of_In; exact Hv)); lia.
  - apply (normalizeImage_flat _ 0); rewrite ?firstChannel_pixels;
      [unfold isByte; lia | exact H0 |].
    intros v Hv. rewrite Forall_forall in Hbw.
    destruct (Hbw v ltac:(apply list_elem_of_In; exact Hv)) as [-> | ->];
      [reflexivity | contradiction].
  - apply (normalizeImage_flat _ 255); rewrite ?firstChannel_pixels;
      [unfold isByte; lia | exact H255 |].
    intros v Hv. rewrite Forall_forall in Hbw.
    destruct (Hbw v ltac:(apply list_elem_of_In; exact Hv)) as [-> | ->];
      [contradiction | reflexivity].
  - destruct Hbw as [| c colours Hc _]; [reflexivity |].
    exfalso. destruct Hc as [-> | ->]; [apply H0 | apply H255]; left; reflexivity.
Qed.

Lemma black_and_white_image_unchanged_witness :
  Preprocess.normalizeImage
    (Preprocess.createGrayscale [0; 0; 0; 255; 255; 255; 255; 255; 0; 0; 0; 255])
  = [0; 0; 0; 255; 255; 255; 255; 255; 0; 0; 0; 255].
Proof.
  refine (proj2 (black_and_white_image_unchanged [0; 255; 0] _)).
  repeat (constructor; [lia |]). constructor.
Defined.
(** ** Histogram equalization *)

Section Equalization.

Import JsNum Preprocess Clahe.

(** Zero divided by any number, times 255, is stored as 0: the quotient is
    a zero or NaN. *)
Lemma zero_quotient_stored_0 (x : float) : storeRounded (0 / x * 255)%float = 0.
Proof.
  unfold storeRounded, Math_round.
  rewrite FloatAxioms.mul_spec, FloatAxioms.div_spec.
  change (Prim2SF 0) with (S754_zero false).
  destruct (Prim2SF x) as [s | s | | s m e]; try destruct s; reflexivity.
Qed.

Lemma histogram_fold (l : list (option Z)) (h0 : list Z) (t : nat) :
  length h0 = 256%nat -> Forall levelIn l ->
  let h := fold_left
             (fun histogram val =>
                match val with
                | Some v => <[Z.to_nat v := nth (Z.to_nat v) histogram 0 + 1]> histogram
                | None => histogram
                end) l h0 in
  nth t h0 0 <= nth t h 0
  /\ (In (Some (Z.of_nat t)) l -> nth t h0 0 < nth t h 0).
Proof.
  intros Hlen Hall. revert h0 Hlen.
  induction Hall as [| x l (c & -> & Hc) _ IH]; intros h0 Hlen; cbn [fold_left].
  - split; [lia | intros []].
  - specialize (IH (<[Z.to_nat c := nth (Z.to_nat c) h0 0 + 1]> h0)
                  ltac:(rewrite length_insert; exact Hlen)).
    cbv zeta in IH. destruct IH as [Hle Hlt].
    destruct (decide (t = Z.to_nat c)) as [-> | Hne].
    + rewrite nth_insert_eq in Hle, Hlt by lia.
      split; [lia |]. intros _. lia.
    + rewrite nth_insert_ne in Hle, Hlt by exact Hne.
      split; [exact Hle |]. intros [Heq | Hin]; [| apply Hlt, Hin].
      injection Heq as Heq. lia.
Qed.

Lemma length_histogramOf (clipped : list (option Z)) :
  length (Threshold.histogramOf clipped) = 256%nat.
Proof.
  unfold Threshold.histogramOf.
  assert (Hgen : forall h0, length (fold_left
             (fun histogram val =>
                match val with
                | Some v => <[Z.to_nat v := nth (Z.to_nat v) histogram 0 + 1]> histogram
                | None => histogram
                end) clipped h0) = length h0).
  { induction clipped as [| [c |] l IH]; intros h0; cbn [fold_left];
      rewrite ?IH, ?length_insert; reflexivity. }
  rewrite Hgen. apply length_replicate.
Qed.

(** At the least level present the cumulative count is the first positive
    one. *)
Lemma cdf_at_least_level (histogram : list Z) (lo : nat) :
  (forall t, (t < lo)%nat -> nth t histogram 0 = 0) ->
  0 < nth lo histogram 0 ->
  nth lo (cdfFrom 0 histogram) 0 = nth lo histogram 0
  /\ cdfMinOf (cdfFrom 0 histogram) = nth lo histogram 0.
Proof.
  revert histogram. induction lo as [| lo IH]; intros [| x rest] Hbelow Hpos;
    cbn [nth] in Hpos; try lia.
  - unfold cdfMinOf. cbn [cdfFrom nth List.find]. rewrite Z.add_0_l.
    destruct (Z.ltb_spec 0 x); [split; reflexivity | lia].
  - pose proof (Hbelow 0%nat ltac:(lia)) as Hx. cbn [nth] in Hx. subst x.
    unfold cdfMinOf. cbn [cdfFrom nth List.find]. rewrite Z.add_0_l.
    change (0 <? 0) with false. cbv iota.
    apply IH; [| exact Hpos].
    intros t Ht. apply (Hbelow (S t)). lia.
Qed.

Lemma mapColours_ext (f g : Z -> Z) (data : list Z) :
  (forall v, In v (firstChannel data) -> f v = g v) ->
  mapColours f data = mapColours g data.
Proof.
  induction data as [| r | r p | r p q | r p q a rest IH] using pixel_ind;
    intros Hfg; cbn [mapColours]; cbn [firstChannel In] in Hfg;
    rewrite ?(Hfg r) by auto; try reflexivity.
  rewrite IH by auto. reflexivity.
Qed.

Lemma equalized_least_level (data : list Z) (width height lo : Z) :
  Forall isByte (firstChannel data) ->
  In lo (firstChannel data) ->
  (forall v, In v (firstChannel data) -> lo <= v) ->
  equalized data width height lo = 0.
Proof.
  intros Hbytes Hlo Hleast.
  assert (Hlevels : Forall levelIn (map Some (firstChannel data))).
  { apply Forall_map. eapply Forall_impl; [exact Hbytes |].
    intros v Hv. exists v. unfold isByte in Hv. split; [reflexivity | lia]. }
  assert (Hblo : isByte lo).
  { rewrite Forall_forall in Hbytes. apply Hbytes, list_elem_of_In, Hlo. }
  unfold isByte in Hblo.
  destruct (cdf_at_least_level
              (Threshold.histogramOf (map Some (firstChannel data))) (Z.to_nat lo))
    as [Hcdf Hmin].
  - intros t Ht.
    destruct (Z.eq_dec (nth t (Threshold.histogramOf (map Some (firstChannel data))) 0) 0)
      as [Hz | Hnz]; [exact Hz | exfalso].
    pose proof (histogramOf_present _ (Z.of_nat t) Hlevels ltac:(lia)) as Hpresent.
    rewrite Nat2Z.id in Hpresent. specialize (Hpresent Hnz).
    apply in_map_iff in Hpresent as (v & [= ->] & Hin).
    specialize (Hleast _ Hin). lia.
  - pose proof (histogram_fold (map Some (firstChannel data)) (replicate 256 0)
                  (Z.to_nat lo) ltac:(apply length_replicate) Hlevels) as Hfold.
    cbv zeta in Hfold. destruct Hfold as [_ Hlt].
    rewrite nth_replicate_0 in Hlt. apply Hlt.
    rewrite Z2Nat.id by lia. apply in_map, Hlo.
  - unfold equalized. cbv zeta. unfold cdfOf. rewrite Hcdf, Hmin, Z.sub_diag.
    change (numZ 0) with 0%float. apply zero_quotient_stored_0.
Qed.

End Equalization.

(** X24: [applyCLAHE] makes the darkest pixels black, and a uniform image
    black altogether.  The level that is least among the first bytes of the
    pixels gets the new value 0, whatever the width and height given: its
    cumulative count is the least positive one, the quotient is zero or
    [0 / 0], and NaN is stored as 0.  If all pixels have that level, all
    three colours of every pixel become 0. *)
Theorem applyCLAHE_darkest_becomes_black (data : list Z) (width height lo : Z) :
  Forall isByte (Preprocess.firstChannel data) ->
  In lo (Preprocess.firstChannel data) ->
  (forall v, In v (Preprocess.firstChannel data) -> lo <= v) ->
  Clahe.equalized data width height lo = 0
  /\ ((forall v, In v (Preprocess.firstChannel data) -> v = lo) ->
      Clahe.applyCLAHE data width height = Clahe.mapColours (fun _ => 0) data).
Proof.
  intros Hbytes Hlo Hleast.
  pose proof (equalized_least_level data width height lo Hbytes Hlo Hleast) as Hzero.
  split; [exact Hzero |].
  intros Hflat. unfold Clahe.applyCLAHE. apply mapColours_ext.
  intros v Hv. rewrite (Hflat v Hv). exact Hzero.
Qed.

Lemma applyCLAHE_darkest_becomes_black_witness :
  Clahe.applyCLAHE [50; 60; 70; 7; 50; 0; 0; 9] 2 1 = [0; 0; 0; 7; 0; 0; 0; 9].
Proof.
  refine (proj2 (applyCLAHE_darkest_becomes_black [50; 60; 70; 7; 50; 0; 0; 9] 2 1 50
                   _ _ _) _).
  - repeat (constructor; [unfold isByte; lia |]). constructor.
  - cbn. auto.
  - cbn. intros v [<- | [<- | []]]; lia.
  - cbn. intros v [<- | [<- | []]]; reflexivity.
Defined.
